(** * Genre classification with random-mapping vectors

    A shallow embedding of the notebook [genre_classification_project.ipynb]:
    index vectors (random mapping), context-vector aggregation, vector
    length / normalisation / cosine distance, the vectors given to the
    clusterer and the listing of its clusters, the positional train/test
    split and the nearest-genre classifier [pairwise_distance].

    Conventions of the embedding.
    - A Python list is a [list]; a [dict] keyed by strings is a
      [gmap string _]; a Python [set] of words is a [gset string].
    - Python exceptions are values of [exn]; a computation that may raise
      has type [result A].
    - Index-vector entries are Python ints ([Z]).  Context vectors hold
      Python floats, and the code on them is given twice.  Read in the real
      numbers ([R]) it is the code in exact arithmetic: no rounding, no
      overflow, no underflow.  What is proved of it is a statement about
      values in exact arithmetic; it is a statement about the running code
      where the floats are exact, as for the counts added up from index
      vectors of zeros and ones.
    - Module [Binary64] gives the same code in binary64 ([PrimFloat]) as
      CPython computes it, with the C library's [pow] as a parameter.  The
      exceptions of the float code and the effects of rounding are stated
      there.  The two slice sizes [int(len(..) * 0.3)] and
      [int(len(..) * 0.7)] are computed in binary64 only.
    - [random.shuffle] is a state-passing oracle on an abstract generator
      state that returns some permutation of its argument.
    - The corpus reader ([brown.words], [brown.fileids],
      [brown.categories]) is a record of functions. *)

From Stdlib Require Import ZArith String Ascii.
From Stdlib Require Import Floats.
From Stdlib Require Import Reals Lra Lia.
From Stdlib Require OrderedTypeEx.
From stdpp Require Import gmap strings list fin_maps sorting.

(** ** Python exceptions and the error monad *)

Inductive exn : Set :=
| IndexError          (* list index out of range *)
| KeyError            (* missing dictionary key *)
| ZeroDivisionError   (* float division by zero *)
| ValueError          (* min() of an empty sequence, math domain error, int(nan) *)
| OverflowError.      (* int() of an infinity *)

Inductive result (A : Type) : Type :=
| Ok (a : A)
| Raise (e : exn).
Arguments Ok {A} a.
Arguments Raise {A} e.

Definition bind {A B : Type} (c : result A) (k : A → result B) : result B :=
  match c with
  | Ok a => k a
  | Raise e => Raise e
  end.

(** [x ← c; k] is stdpp's notation for [c ≫= λ x, k]. *)
#[global] Instance result_bind : MBind result := λ A B k c, bind c k.
#[global] Instance result_ret : MRet result := λ A a, Ok a.

(** [for x in xs: acc = body(acc, x)] with exceptions. *)
Fixpoint for_each {A S : Type} (body : S → A → result S) (xs : list A) (acc : S)
  : result S :=
  match xs with
  | [] => Ok acc
  | x :: xs' => acc' ← body acc x ; for_each body xs' acc'
  end.

(** [[f(x) for x in xs]] with exceptions, evaluated left to right. *)
Fixpoint list_comp {A B : Type} (f : A → result B) (xs : list A) : result (list B) :=
  match xs with
  | [] => Ok []
  | x :: xs' => y ← f x ; ys ← list_comp f xs' ; Ok (y :: ys)
  end.

(** [l[i]] for a non-negative index. *)
Definition getitem {A : Type} (l : list A) (i : nat) : result A :=
  match l !! i with
  | Some x => Ok x
  | None => Raise IndexError
  end.

(** [l[i] = x] for a non-negative index. *)
Definition setitem {A : Type} (l : list A) (i : nat) (x : A) : result (list A) :=
  if decide (i < length l) then Ok (<[i:=x]> l) else Raise IndexError.

(** [m[k]] on a dictionary. *)
Definition dict_get {A : Type} (m : gmap string A) (k : string) : result A :=
  match m !! k with
  | Some x => Ok x
  | None => Raise KeyError
  end.

(** ** Vector space builder (index vectors) *)

(** [for i in positions: index_vector[word][i] = 1]. *)
Definition mark_positions (word : string) (positions : list nat)
    (index_vector : gmap string (list Z)) : result (gmap string (list Z)) :=
  for_each (λ index_vector i,
      v ← dict_get index_vector word ;
      v' ← setitem v i 1%Z ;
      Ok (<[word := v']> index_vector))
    positions index_vector.

Section VectorSpaceBuilder.
(** The random source: [shuffle g l] is the list after [random.shuffle(l)]
    together with the next generator state. *)
Variable rng : Type.
Variable shuffle : rng → list nat → list nat * rng.

(** One iteration of [for word in vocabulary]. *)
Definition index_step (d m : nat) (st : gmap string (list Z) * rng) (word : string)
  : result (gmap string (list Z) * rng) :=
  let '(index_vector, g) := st in
  let '(random_positions, g') := shuffle g (seq 0 d) in
  index_vector' ← mark_positions word (take m random_positions) index_vector ;
  Ok (index_vector', g').

(** [index_vector = {word: [0]*d for word in vocabulary}] followed by the
    loop over the vocabulary. *)
Definition build_index_vector (d m : nat) (vocabulary : gset string) (g : rng)
  : result (gmap string (list Z) * rng) :=
  let index_vector : gmap string (list Z) :=
    gset_to_gmap (replicate d 0%Z) vocabulary in
  for_each (index_step d m) (elements vocabulary) (index_vector, g).
End VectorSpaceBuilder.

(** ** The corpus reader *)

Record corpus : Type := {
  all_categories : list string;          (* brown.categories() *)
  fileids : string → list string;        (* brown.fileids(categories=genre) *)
  words : string → list string;          (* brown.words(doc) *)
  categories_of : string → list string   (* brown.categories(doc) *)
}.

(** [brown.words(files)] for a list of file ids: the files' words in order. *)
Definition words_of_files (brown : corpus) (files : list string) : list string :=
  concat (words brown <$> files).

(** [str.lower] on ASCII text. *)
Definition lower_ascii (c : ascii) : ascii :=
  let n := nat_of_ascii c in
  if (65 <=? n) && (n <=? 90) then ascii_of_nat (n + 32) else c.

Fixpoint lower (s : string) : string :=
  match s with
  | EmptyString => EmptyString
  | String c s' => String (lower_ascii c) (lower s')
  end.

(** ** Context aggregator *)

(** [def add_vector(a, b): for i, x in enumerate(b): a[i] += x].
    The list [a] is updated in place; the model returns it. *)
Definition add_vector (a : list R) (b : list Z) : result (list R) :=
  for_each (λ a '(i, x), ai ← getitem a i ; setitem a i (ai + IZR x)%R)
           (zip (seq 0 (length b)) b) a.

(** [for word in context: add_vector(cv[key], index_vector[word])] on the
    dictionary [cv] of context vectors. *)
Definition accumulate (index_vector : gmap string (list Z)) (key : string)
    (context : list string) (cv : gmap string (list R))
  : result (gmap string (list R)) :=
  for_each (λ cv word,
      a ← dict_get cv key ;
      b ← dict_get index_vector word ;
      a' ← add_vector a b ;
      Ok (<[key := a']> cv))
    context cv.

(** [{key: [0.0]*d for key in keys}]. *)
Definition zero_vectors (d : nat) (keys : list string) : gmap string (list R) :=
  gset_to_gmap (replicate d 0%R) (list_to_set keys).

(** [context_vector = {doc: [0.0]*d for doc in documents}] and the loop
    [for doc in documents: context = [w.lower() for w in brown.words(doc)] ...]. *)
Definition build_context_vector (brown : corpus) (index_vector : gmap string (list Z))
    (d : nat) (documents : list string) : result (gmap string (list R)) :=
  for_each (λ cv doc, accumulate index_vector doc (lower <$> words brown doc) cv)
           documents (zero_vectors d documents).

(** ** Vector mathematics in exact arithmetic

    [vector_length], [normalize] and [cosine_dist] with the float
    operations read as the operations of the real numbers.  The squares
    neither overflow nor underflow here, so these functions show the
    values of the code in exact arithmetic and its behaviour on vectors of
    zeros, not its exceptions on other floats; for those see [Binary64]. *)

(** [math.sqrt]: a domain error on a negative argument. *)
Definition math_sqrt (x : R) : result R :=
  if Rlt_dec x 0 then Raise ValueError else Ok (sqrt x).

(** [x / y] on floats. *)
Definition truediv (x y : R) : result R :=
  if Req_dec_T y 0 then Raise ZeroDivisionError else Ok (x / y)%R.

(** [sum(xs)]: a left fold from 0. *)
Definition py_sum (xs : list R) : R := foldl Rplus 0%R xs.

(** [def vector_length(v)]. *)
Definition vector_length (v : list R) : result R :=
  let total := py_sum ((λ x, x ^ 2)%R <$> v) in
  math_sqrt total.

(** [def normalize(a): return [(x / vector_length(a)) for x in a]]. *)
Definition normalize (a : list R) : result (list R) :=
  list_comp (λ x, len ← vector_length a ; truediv x len) a.

(** The loop of [cosine_dist]: [while i <= len(b) - 1: total += a[i] * b[i]; i += 1];
    [n] is the number of iterations left, [len(b) - i]. *)
Fixpoint cosine_loop (n : nat) (a b : list R) (i : nat) (total : R) : result R :=
  match n with
  | O => Ok total
  | S n' =>
      ai ← getitem a i ;
      bi ← getitem b i ;
      cosine_loop n' a b (S i) (total + ai * bi)%R
  end.

(** [def cosine_dist(a, b)]. *)
Definition cosine_dist (a b : list R) : result R :=
  total ← cosine_loop (length b) a b 0 0%R ;
  la ← vector_length a ;
  lb ← vector_length b ;
  q ← truediv total (la * lb)%R ;
  Ok (1 - q)%R.

(** ** The same code in binary64

    The vector mathematics and the classifier with the arithmetic of Python
    floats (CPython 3.8, the notebook's kernel): every operation rounds to
    the nearest binary64 value, [sum] adds from left to right, and a
    comparison with a NaN is false.

    [x ** 2] is CPython's [float_pow] with the exponent 2: the special
    values are decided by CPython itself, every other square is the C
    library's [pow(x, 2.0)], and a result that is infinite is turned into
    [OverflowError].  The library function is a parameter of the module:
    glibc's result is within one unit in the last place of the square, and
    it is not always the float nearest to it. *)

Module Binary64.
Section Libm.
(** [pow(x, 2.0)] of the C library, on a finite [x > 0] other than 1. *)
Variable libm_pow2 : float → float.

(** [x ** 2]. *)
Definition float_pow2 (x : float) : result float :=
  if PrimFloat.is_nan x then Ok x
  else if PrimFloat.is_infinity x then Ok infinity
  else if PrimFloat.eqb x 0 then Ok 0%float
  else if PrimFloat.eqb (PrimFloat.abs x) 1 then Ok 1%float
  else
    let r := libm_pow2 (PrimFloat.abs x) in
    if PrimFloat.is_infinity r then Raise OverflowError else Ok r.

Definition math_sqrt (x : float) : result float :=
  if PrimFloat.ltb x 0 then Raise ValueError else Ok (PrimFloat.sqrt x).

Definition truediv (x y : float) : result float :=
  if PrimFloat.eqb y 0 then Raise ZeroDivisionError else Ok (PrimFloat.div x y).

Definition py_sum (xs : list float) : float := foldl PrimFloat.add 0%float xs.

(** [sum(x ** 2 for x in v)] takes the squares one after the other, so the
    first square that overflows raises; the additions raise nothing. *)
Definition vector_length (v : list float) : result float :=
  squares ← list_comp float_pow2 v ;
  math_sqrt (py_sum squares).

Definition normalize (a : list float) : result (list float) :=
  list_comp (λ x, len ← vector_length a ; truediv x len) a.

Fixpoint cosine_loop (n : nat) (a b : list float) (i : nat) (total : float)
  : result float :=
  match n with
  | O => Ok total
  | S n' =>
      ai ← getitem a i ;
      bi ← getitem b i ;
      cosine_loop n' a b (S i) (PrimFloat.add total (PrimFloat.mul ai bi))
  end.

Definition cosine_dist (a b : list float) : result float :=
  total ← cosine_loop (length b) a b 0 0%float ;
  la ← vector_length a ;
  lb ← vector_length b ;
  q ← truediv total (PrimFloat.mul la lb) ;
  Ok (PrimFloat.sub 1 q).

(** The globals that [pairwise_distance] reads. *)
Record globals : Type := {
  brown : corpus;
  test_documents : list string;
  context_vector_document : gmap string (list float);
  context_vector_genre : gmap string (list float)
}.

Definition pair : Type := string * string * float.

Definition distance (G : globals) (doc genre : string) : result float :=
  dv ← dict_get (context_vector_document G) doc ;
  a ← normalize dv ;
  gv ← dict_get (context_vector_genre G) genre ;
  b ← normalize gv ;
  cosine_dist a b.

Definition all_pairs (G : globals) (docs genres : list string) : result (list pair) :=
  for_each (λ print_pairs doc,
      for_each (λ print_pairs genre,
          c ← distance G doc genre ;
          Ok (print_pairs ++ [(doc, genre, c)]))
        genres print_pairs)
    docs [].

(** [min(xs, key=key)]: an element replaces the best one so far when its
    key is below the key of that one, by the comparison [<] of floats. *)
Fixpoint min_from {A : Type} (key : A → float) (best : A) (rest : list A) : A :=
  match rest with
  | [] => best
  | x :: rest' =>
      if PrimFloat.ltb (key x) (key best) then min_from key x rest'
      else min_from key best rest'
  end.

Definition py_min {A : Type} (key : A → float) (xs : list A) : result A :=
  match xs with
  | [] => Raise ValueError
  | x :: rest => Ok (min_from key x rest)
  end.

Definition classify_step (G : globals) (print_pairs : list pair)
    (st : list pair * nat * nat) (doc : string) : result (list pair * nat * nat) :=
  let '(min_pairs, correct, incorrect) := st in
  let relevant := filter (λ p : pair, p.1.1 = doc) print_pairs in
  min_distance ← py_min (λ d : pair, d.2) relevant ;
  gold ← getitem (categories_of (brown G) doc) 0 ;
  if decide (min_distance.1.2 = gold)
  then Ok (min_pairs ++ [min_distance], S correct, incorrect)
  else Ok (min_pairs ++ [min_distance], correct, S incorrect).

Fixpoint insert_by_id (x : pair) (xs : list pair) : list pair :=
  match xs with
  | [] => [x]
  | y :: xs' =>
      if String.ltb y.1.1 x.1.1 then y :: insert_by_id x xs' else x :: y :: xs'
  end.

Definition sorted_by_id (xs : list pair) : list pair := foldr insert_by_id [] xs.

Record report : Type := {
  min_pairs : list pair;
  table : list (string * string * float * string);
  correct : nat;
  incorrect : nat;
  percentage : float
}.

(** [float(n)] for a count [n] (below [2^63]). *)
Definition float_of_count (n : nat) : float :=
  PrimFloat.of_uint63 (Uint63.of_Z (Z.of_nat n)).

Definition pairwise_distance (G : globals) (docs genres : list string) : result report :=
  print_pairs ← all_pairs G docs genres ;
  '(min_pairs, correct, incorrect) ← for_each (classify_step G print_pairs) docs ([], 0, 0) ;
  rows ← list_comp (λ i : pair,
            gold ← getitem (categories_of (brown G) i.1.1) 0 ;
            Ok (i.1.1, i.1.2, i.2, gold))
          (sorted_by_id min_pairs) ;
  q ← truediv (float_of_count correct) (float_of_count (length (test_documents G))) ;
  Ok {| min_pairs := min_pairs; table := rows; correct := correct;
        incorrect := incorrect; percentage := PrimFloat.mul q 100 |}.
End Libm.
End Binary64.

(** ** Train/test split of the supervised part *)

(** [int(f)] on a binary64 float: truncation towards zero. *)
Definition py_int (f : float) : result Z :=
  match Prim2SF f with
  | S754_zero _ => Ok 0%Z
  | S754_finite s m e =>
      let mag := (if (0 <=? e)%Z then Z.shiftl (Z.pos m) e
                  else Z.shiftr (Z.pos m) (- e))%Z in
      Ok (if s then (- mag)%Z else mag)
  | S754_infinity _ => Raise OverflowError
  | S754_nan => Raise ValueError
  end.

(** The float literals [0.3] and [0.7]: the nearest binary64 values. *)
Definition float_0_3 : float := 0x1.3333333333333p-2%float.
Definition float_0_7 : float := 0x1.6666666666666p-1%float.

(** [int(n * ratio)] for a list length [n]; the int is converted to a
    float before the multiplication. *)
Definition slice_size (n : nat) (ratio : float) : result nat :=
  z ← py_int (PrimFloat.mul (PrimFloat.of_uint63 (Uint63.of_Z (Z.of_nat n))) ratio) ;
  Ok (Z.to_nat z).

(** [size = int(len(brown.fileids(categories=genre)) * 0.3)] and
    [brown.fileids(categories=genre)[:size]]. *)
Definition test_files (brown : corpus) (genre : string) : result (list string) :=
  let files := fileids brown genre in
  size ← slice_size (length files) float_0_3 ;
  Ok (take size files).

(** [size = int(len(brown.fileids(categories=genre)) * 0.7)] and
    [brown.fileids(categories=genre)[size:]]. *)
Definition train_files (brown : corpus) (genre : string) : result (list string) :=
  let files := fileids brown genre in
  size ← slice_size (length files) float_0_7 ;
  Ok (drop size files).


(** [test_documents]: the test files of every training genre, in order. *)
Definition build_test_documents (brown : corpus) (genres : list string)
  : result (list string) :=
  for_each (λ test_documents genre,
      files ← test_files brown genre ;
      Ok (test_documents ++ files))
    genres [].

(** [context_vector_genre]: every genre's vector accumulates the words of
    its training files. *)
Definition build_context_vector_genre (brown : corpus)
    (index_vector : gmap string (list Z)) (d : nat) (genres : list string)
  : result (gmap string (list R)) :=
  for_each (λ cv genre,
      files ← train_files brown genre ;
      accumulate index_vector genre (lower <$> words_of_files brown files) cv)
    genres (zero_vectors d genres).

(** ** Nearest-genre classifier *)

(** The globals that [pairwise_distance] reads. *)
Record globals : Type := {
  brown : corpus;
  test_documents : list string;
  context_vector_document : gmap string (list R);
  context_vector_genre : gmap string (list R)
}.

(** A (document, genre, cosine distance) triple. *)
Definition pair : Type := string * string * R.

(** [cosine_dist(normalize(context_vector_document[doc]),
                 normalize(context_vector_genre[genre]))]. *)
Definition distance (G : globals) (doc genre : string) : result R :=
  dv ← dict_get (context_vector_document G) doc ;
  a ← normalize dv ;
  gv ← dict_get (context_vector_genre G) genre ;
  b ← normalize gv ;
  cosine_dist a b.

(** The first loop: every (document, genre) pair with its distance. *)
Definition all_pairs (G : globals) (docs genres : list string) : result (list pair) :=
  for_each (λ print_pairs doc,
      for_each (λ print_pairs genre,
          c ← distance G doc genre ;
          Ok (print_pairs ++ [(doc, genre, c)]))
        genres print_pairs)
    docs [].

(** [min(xs, key=key)]: the first element whose key is minimal. *)
Fixpoint min_from {A : Type} (key : A → R) (best : A) (rest : list A) : A :=
  match rest with
  | [] => best
  | x :: rest' =>
      if Rlt_dec (key x) (key best) then min_from key x rest'
      else min_from key best rest'
  end.

Definition py_min {A : Type} (key : A → R) (xs : list A) : result A :=
  match xs with
  | [] => Raise ValueError
  | x :: rest => Ok (min_from key x rest)
  end.

(** One iteration of the second loop; the state is
    [(min_pairs, correct, incorrect)]. *)
Definition classify_step (G : globals) (print_pairs : list pair)
    (st : list pair * nat * nat) (doc : string) : result (list pair * nat * nat) :=
  let '(min_pairs, correct, incorrect) := st in
  let relevant := filter (λ p : pair, p.1.1 = doc) print_pairs in
  min_distance ← py_min (λ d : pair, d.2) relevant ;
  gold ← getitem (categories_of (brown G) doc) 0 ;
  if decide (min_distance.1.2 = gold)
  then Ok (min_pairs ++ [min_distance], S correct, incorrect)
  else Ok (min_pairs ++ [min_distance], correct, S incorrect).

(** [sorted(xs, key=lambda x: x[0])]: a stable sort on the file id. *)
Fixpoint insert_by_id (x : pair) (xs : list pair) : list pair :=
  match xs with
  | [] => [x]
  | y :: xs' =>
      if String.ltb y.1.1 x.1.1 then y :: insert_by_id x xs' else x :: y :: xs'
  end.

Definition sorted_by_id (xs : list pair) : list pair := foldr insert_by_id [] xs.

(** What a call prints: the table rows (file id, predicted genre, cosine
    distance, gold standard) and the two statistics lines. *)
Record report : Type := {
  min_pairs : list pair;
  table : list (string * string * R * string);
  correct : nat;
  incorrect : nat;
  percentage : R
}.

(** [def pairwise_distance(docs, genres)]. *)
Definition pairwise_distance (G : globals) (docs genres : list string) : result report :=
  print_pairs ← all_pairs G docs genres ;
  '(min_pairs, correct, incorrect) ← for_each (classify_step G print_pairs) docs ([], 0, 0) ;
  rows ← list_comp (λ i : pair,
            gold ← getitem (categories_of (brown G) i.1.1) 0 ;
            Ok (i.1.1, i.1.2, i.2, gold))
          (sorted_by_id min_pairs) ;
  q ← truediv (INR correct) (INR (length (test_documents G))) ;
  Ok {| min_pairs := min_pairs; table := rows; correct := correct;
        incorrect := incorrect; percentage := (q * 100)%R |}.


(** ** Part 1: the vectors for the clusterer and the listing of the clusters

    [KMeansClusterer] is NLTK's; its result [clusters], one label per
    vector, is an input of the listing. *)

(** [vectors = [numpy.array(f) for f in [normalize(context_vector[d]) for d in documents]]];
    the conversion to arrays keeps the numbers. *)
Definition clustering_vectors (context_vector : gmap string (list R))
    (documents : list string) : result (list (list R)) :=
  list_comp (λ d, v ← dict_get context_vector d ; normalize v) documents.

(** [max(xs)] on ints. *)
Definition py_max (xs : list Z) : result Z :=
  match xs with
  | [] => Raise ValueError
  | x :: rest => Ok (foldl (λ best y, if (best <? y)%Z then y else best) x rest)
  end.

(** [sorted(xs, key=lambda x: x[1])]: a stable sort on the label. *)
Fixpoint insert_by_label (x : string * Z) (xs : list (string * Z)) : list (string * Z) :=
  match xs with
  | [] => [x]
  | y :: xs' =>
      if (y.2 <? x.2)%Z then y :: insert_by_label x xs' else x :: y :: xs'
  end.

Definition sorted_by_label (xs : list (string * Z)) : list (string * Z) :=
  foldr insert_by_label [] xs.

(** [while i <= max(clusters): list_c = [item for item in zipped if item[1] == i];
    list_all.append(list_c); i += 1]; [fuel] is the number of iterations left. *)
Fixpoint group_loop (fuel : nat) (zipped : list (string * Z)) (i : Z)
    (list_all : list (list (string * Z))) : list (list (string * Z)) :=
  match fuel with
  | O => list_all
  | S fuel' =>
      let list_c := filter (λ item : string * Z, item.2 = i) zipped in
      group_loop fuel' zipped (i + 1)%Z (list_all ++ [list_c])
  end.

(** The lines printed under "Clusters:": for every group the label of its
    first item, [i[0][1]], and the file ids of the group. *)
Definition cluster_lines (list_all : list (list (string * Z)))
  : result (list (Z * list string)) :=
  list_comp (λ group, first ← getitem group 0 ; Ok (first.2, group.*1)) list_all.

(** The listing of cell 11 after the clustering. *)
Definition clusters_listing (documents : list string) (clusters : list Z)
  : result (list (Z * list string)) :=
  let zipped := sorted_by_label (zip documents clusters) in
  top ← py_max clusters ;
  cluster_lines (group_loop (Z.to_nat (top + 1)) zipped 0%Z []).

(** The lines printed under "Gold standard:". *)
Definition gold_listing (corp : corpus) (categories : list string)
  : list (string * list string) :=
  (λ category, (category, fileids corp category)) <$> categories.

(** * Vocabulary of the properties *)

(** What [mark_positions] does to the vector of the word itself. *)
Definition set_ones (v : list Z) (positions : list nat) : result (list Z) :=
  for_each (λ v i, setitem v i 1%Z) positions v.

(** The number of entries of [v] equal to 1. *)
Definition ones (v : list Z) : nat := length (filter (λ x, x = 1%Z) v).

(** Every entry of [v] is 0 or 1. *)
Definition binary (v : list Z) : Prop := Forall (λ x, x = 0%Z ∨ x = 1%Z) v.

(** A deterministic stand-in for the random source: it reverses the list. *)
Definition reversing_shuffle (g : unit) (l : list nat) : list nat * unit := (reverse l, g).

(** Entry [j] of the index vector of [word] (0 where there is none). *)
Definition component (index_vector : gmap string (list Z)) (word : string) (j : nat) : Z :=
  default 0%Z (index_vector !! word ≫= (.!! j)).

(** Entry [j] of the elementwise sum of the index vectors of the token
    occurrences in [context], one summand per occurrence. *)
Fixpoint occurrence_sum (index_vector : gmap string (list Z)) (context : list string)
    (j : nat) : R :=
  match context with
  | [] => 0%R
  | word :: rest =>
      (IZR (component index_vector word j) + occurrence_sum index_vector rest j)%R
  end.

(** The index vectors cover every lower-cased token of [doc], with
    vectors of length [d]. *)
Definition covered (corp : corpus) (index_vector : gmap string (list Z)) (d : nat)
    (doc : string) : Prop :=
  ∀ w, w ∈ words corp doc → ∃ b, index_vector !! lower w = Some b ∧ length b = d.

(** Every lower-cased token of [doc] has an index vector, of length at most
    [d] (so that adding it to a vector of length [d] stays in range). *)
Definition fits (corp : corpus) (index_vector : gmap string (list Z)) (d : nat)
    (doc : string) : Prop :=
  ∀ w, w ∈ words corp doc → ∃ b, index_vector !! lower w = Some b ∧ length b ≤ d.

(** A two-word vocabulary with [d = 4], [m = 2], and a one-document corpus. *)
Definition toy_index_vector : gmap string (list Z) :=
  {[ "a" := [1; 1; 0; 0]%Z; "b" := [0; 1; 1; 0]%Z ]}.

Definition toy_corpus : corpus := {|
  all_categories := ["X"];
  fileids := λ _, ["doc"];
  words := λ _, ["A"; "b"; "a"];
  categories_of := λ _, ["X"]
|}.

(** The sum of the squares of the entries, the dot product of two vectors
    (over their common indices) and the Euclidean length. *)
Fixpoint sum_squares (v : list R) : R :=
  match v with
  | [] => 0%R
  | x :: v' => (x ^ 2 + sum_squares v')%R
  end.

Fixpoint dot (a b : list R) : R :=
  match a, b with
  | x :: a', y :: b' => (x * y + dot a' b')%R
  | _, _ => 0%R
  end.

Definition euclid (v : list R) : R := sqrt (sum_squares v).

(** A genre of six documents, as science fiction in the Brown corpus. *)
Definition six_documents : corpus := {|
  all_categories := ["science_fiction"];
  fileids := λ _, ["cm01"; "cm02"; "cm03"; "cm04"; "cm05"; "cm06"];
  words := λ _, [];
  categories_of := λ _, ["science_fiction"]
|}.

(** Both slice sizes of a list of length [n] are computed without an
    error, the first is the floor of [3n/10], the second is the floor of
    [7n/10] or one less, and the first is at most the second. *)
Definition slice_sizes_ok (n : nat) : bool :=
  match slice_size n float_0_3, slice_size n float_0_7 with
  | Ok s3, Ok s7 =>
      (s3 =? 3 * n / 10) && (s3 <=? s7) && (s7 <=? 7 * n / 10) && (7 * n / 10 <=? S s7)
      && (s7 <=? n)
  | _, _ => false
  end.

(** The value a computation returns (0 when it raises). *)
Definition value (r : result R) : R :=
  match r with
  | Ok c => c
  | Raise _ => 0%R
  end.

(** The pairs of one document, in the order of the genres. *)
Definition row (G : globals) (genres : list string) (doc : string) : list pair :=
  (λ genre, (doc, genre, value (distance G doc genre))) <$> genres.

(** The first pair of least distance among the pairs of [doc]. *)
Definition best_pair (G : globals) (genres : list string) (doc : string) : pair :=
  match row G genres doc with
  | [] => (doc, EmptyString, 0%R)
  | p :: ps => min_from (λ d : pair, d.2) p ps
  end.

(** The predicted genre of the pair is the first category of its document. *)
Definition predicted_correctly (G : globals) (p : pair) : Prop :=
  head (categories_of (brown G) p.1.1) = Some p.1.2.

#[global] Instance predicted_correctly_dec (G : globals) (p : pair) :
  Decision (predicted_correctly G p).
Proof. unfold predicted_correctly. apply _. Defined.

(** [cv] has under [key] a vector of dimension [D] whose length is not 0. *)
Definition nonzero_vector (cv : gmap string (list R)) (D : nat) (key : string) : Prop :=
  ∃ v len, cv !! key = Some v ∧ length v = D ∧ vector_length v = Ok len ∧ len ≠ 0%R.

(** The inputs on which [pairwise_distance] is meant to run: at least one
    genre, a non-zero vector of dimension [D] for every document and every
    genre, a category for every document, a non-empty global test set. *)
Record classifiable (G : globals) (D : nat) (docs genres : list string) : Prop := {
  genres_nonempty : genres ≠ [];
  docs_vectors : ∀ doc, doc ∈ docs → nonzero_vector (context_vector_document G) D doc;
  genres_vectors : ∀ genre, genre ∈ genres → nonzero_vector (context_vector_genre G) D genre;
  docs_labelled : ∀ doc, doc ∈ docs → categories_of (brown G) doc ≠ [];
  test_nonempty : test_documents G ≠ []
}.

(** The call [pairwise_distance(docs, genres)] meets no exception: every
    distance is computed, there is a genre when there is a document, every
    document has a category and the global test set is not empty. *)
Record runs (G : globals) (docs genres : list string) : Prop := {
  runs_distance : ∀ doc genre, doc ∈ docs → genre ∈ genres →
                  ∃ c, distance G doc genre = Ok c;
  runs_genres : docs ≠ [] → genres ≠ [];
  runs_labelled : ∀ doc, doc ∈ docs → categories_of (brown G) doc ≠ [];
  runs_test : test_documents G ≠ []
}.

(** Two genres with orthogonal vectors and one test document whose vector
    is that of genre X while its category in the corpus is Y; the global
    test set has two documents. *)
Definition toy_globals : globals := {|
  brown := {| all_categories := ["X"; "Y"];
              fileids := λ _, ["d1"; "d2"];
              words := λ _, ["cat"];
              categories_of := λ _, ["Y"] |};
  test_documents := ["d1"; "d2"];
  context_vector_document := {[ "d1" := [1; 0]%R ]};
  context_vector_genre := {[ "X" := [1; 0]%R; "Y" := [0; 1]%R ]}
|}.

(** The sum of a list of reals. *)
Definition Rsum (xs : list R) : R := foldr Rplus 0%R xs.

(** The file ids with label [i], in the order of the documents. *)
Definition labelled (documents : list string) (clusters : list Z) (i : Z) : list string :=
  (filter (λ item : string * Z, item.2 = i) (zip documents clusters)).*1.

(** The first category of a document (the empty string when it has none). *)
Definition gold_of (G : globals) (doc : string) : string :=
  default EmptyString (head (categories_of (brown G) doc)).





(** A C library whose [pow(x, 2.0)] is the float nearest to the square.
    glibc's [pow] returns this float for every square that the examples of
    this file take. *)
Definition rounded_square (x : float) : float := PrimFloat.mul x x.

(** The float a computation returns (0 when it raises), and the pairs of one
    document in binary64, in the order of the genres. *)
Definition float_value (r : result float) : float :=
  match r with
  | Ok c => c
  | Raise _ => 0%float
  end.

Definition float_row (libm_pow2 : float → float) (G : Binary64.globals)
    (genres : list string) (doc : string) : list Binary64.pair :=
  (λ genre, (doc, genre, float_value (Binary64.distance libm_pow2 G doc genre))) <$> genres.

(** One test document and two genres whose vectors have the same direction,
    [Y = 5 X], as Python floats. *)
Definition parallel_genres : Binary64.globals := {|
  Binary64.brown := {| all_categories := ["X"; "Y"];
                       fileids := λ _, ["d"];
                       words := λ _, [];
                       categories_of := λ _, ["X"] |};
  Binary64.test_documents := ["d"];
  Binary64.context_vector_document := {[ "d" := [1; 2; 3]%float ]};
  Binary64.context_vector_genre := {[ "X" := [3; 2; 1]%float; "Y" := [15; 10; 5]%float ]}
|}.



(** * Properties *)

(** ** The error monad *)

Lemma getitem_Ok {A : Type} (l : list A) (i : nat) (x : A) :
  l !! i = Some x → getitem l i = Ok x.
Proof. unfold getitem. by intros ->. Qed.

Lemma setitem_Ok {A : Type} (l : list A) (i : nat) (x : A) :
  i < length l → setitem l i x = Ok (<[i:=x]> l).
Proof. unfold setitem. intros. by rewrite decide_True. Qed.

Lemma dict_get_Ok {A : Type} (m : gmap string A) (k : string) (x : A) :
  m !! k = Some x → dict_get m k = Ok x.
Proof. unfold dict_get. by intros ->. Qed.

(** ** Index vectors *)

Lemma mark_positions_set_ones (word : string) (positions : list nat)
    (index_vector : gmap string (list Z)) (v : list Z) :
  index_vector !! word = Some v →
  mark_positions word positions index_vector
  = (v' ← set_ones v positions ; Ok (<[word := v']> index_vector)).
Proof.
  unfold mark_positions, set_ones. revert index_vector v.
  induction positions as [|i positions IH]; intros index_vector v Hv; simpl.
  - by rewrite insert_id.
  - rewrite (dict_get_Ok _ _ _ Hv). simpl.
    destruct (setitem v i 1%Z) as [v1|e]; simpl; [|done].
    rewrite (IH (<[word:=v1]> index_vector) v1) by apply lookup_insert_eq.
    destruct (for_each _ positions v1) as [v'|e]; simpl; [|done].
    by rewrite insert_insert_eq.
Qed.

Lemma ones_insert (v : list Z) (p : nat) :
  v !! p = Some 0%Z → ones (<[p:=1%Z]> v) = S (ones v).
Proof.
  unfold ones. revert p. induction v as [|x v IH]; intros [|p] Hp; simplify_eq/=.
  - rewrite !filter_cons. by repeat case_decide.
  - specialize (IH p Hp). rewrite !filter_cons. case_decide; simpl; by rewrite IH.
Qed.

Lemma binary_insert (v : list Z) (p : nat) : binary v → binary (<[p:=1%Z]> v).
Proof.
  unfold binary. intros Hv. apply Forall_insert; [done | by right].
Qed.

Lemma set_ones_count (ps : list nat) (v : list Z) :
  NoDup ps → Forall (λ i, v !! i = Some 0%Z) ps → binary v →
  ∃ v', set_ones v ps = Ok v' ∧ length v' = length v ∧
        ones v' = ones v + length ps ∧ binary v'.
Proof.
  unfold set_ones. revert v.
  induction ps as [|p ps IH]; intros v Hnd Hz Hb; simpl.
  - exists v. repeat split; [lia | done].
  - apply NoDup_cons in Hnd as [Hp Hnd]. apply Forall_cons in Hz as [Hvp Hz].
    rewrite setitem_Ok by (by eapply lookup_lt_Some). simpl.
    destruct (IH (<[p:=1%Z]> v)) as (v' & Hrun & Hlen & Hones & Hb'); [done| |by apply binary_insert|].
    + apply Forall_forall. intros i Hi.
      rewrite Forall_forall in Hz.
      rewrite list_lookup_insert_ne; [by apply Hz | set_solver].
    + exists v'. rewrite Hrun, Hlen, Hones, length_insert, (ones_insert _ _ Hvp).
      repeat split; [lia | done].
Qed.

Lemma set_ones_lookup (ps : list nat) (v : list Z) :
  Forall (λ i, i < length v) ps →
  ∃ v', set_ones v ps = Ok v' ∧ length v' = length v ∧
        (∀ i, i ∈ ps → i < length v → v' !! i = Some 1%Z) ∧
        (∀ i, i ∉ ps → v' !! i = v !! i).
Proof.
  unfold set_ones. revert v.
  induction ps as [|p ps IH]; intros v Hlt; simpl.
  - exists v. split; [done|]. split; [done|]. split; [|done].
    intros i Hi. by apply elem_of_nil in Hi.
  - apply Forall_cons in Hlt as [Hp Hlt].
    rewrite setitem_Ok by done. simpl.
    destruct (IH (<[p:=1%Z]> v)) as (v' & Hrun & Hlen & Hin & Hout).
    { by rewrite length_insert. }
    rewrite length_insert in Hlen, Hin.
    exists v'. split; [done|]. split; [done|]. split.
    + intros i Hi Hil. destruct (decide (i ∈ ps)) as [Hips|Hips]; [by apply Hin|].
      rewrite Hout by done. apply elem_of_cons in Hi as [->|?]; [|done].
      by apply list_lookup_insert_eq.
    + intros i Hi. apply not_elem_of_cons in Hi as [Hne Hi].
      rewrite Hout by done. by apply list_lookup_insert_ne.
Qed.

Lemma set_ones_zero_vector (d m : nat) (ps : list nat) :
  m ≤ d → ps ≡ₚ seq 0 d →
  ∃ v, set_ones (replicate d 0%Z) (take m ps) = Ok v ∧
       length v = d ∧ ones v = m ∧ binary v.
Proof.
  intros Hmd Hperm.
  assert (NoDup ps) as Hnd by (rewrite Hperm; apply NoDup_seq).
  destruct (set_ones_count (take m ps) (replicate d 0%Z)) as (v & Hrun & Hlen & Hones & Hb).
  - eapply sublist_NoDup; [done | apply sublist_take].
  - apply Forall_forall. intros i Hi.
    apply lookup_replicate_2.
    assert (i ∈ ps) as Hips by (eapply subseteq_take; done).
    rewrite Hperm in Hips. apply elem_of_seq in Hips. lia.
  - apply Forall_replicate. by left.
  - exists v. split; [done|]. rewrite Hlen, Hones, length_replicate, length_take.
    assert (length ps = d) as -> by (by rewrite Hperm, length_seq).
    assert (ones (replicate d 0%Z) = 0) as ->.
    { unfold ones. clear. induction d as [|d IH]; simpl; [done|].
      by rewrite filter_cons_False. }
    repeat split; [lia | done].
Qed.

Lemma set_ones_all (d m : nat) (ps : list nat) :
  d < m → ps ≡ₚ seq 0 d →
  set_ones (replicate d 0%Z) (take m ps) = Ok (replicate d 1%Z).
Proof.
  intros Hdm Hperm.
  assert (length ps = d) as Hlen by (by rewrite Hperm, length_seq).
  rewrite take_ge by lia.
  destruct (set_ones_lookup ps (replicate d 0%Z)) as (v & Hrun & Hlenv & Hin & _).
  - apply Forall_forall. intros i Hi. rewrite Hperm in Hi.
    apply elem_of_seq in Hi. rewrite length_replicate. lia.
  - rewrite Hrun. f_equal. rewrite length_replicate in Hlenv, Hin.
    apply list_eq. intros i. destruct (decide (i < d)) as [Hi|Hi].
    + rewrite lookup_replicate_2 by done. apply Hin; [|done].
      rewrite Hperm. apply elem_of_seq. lia.
    + rewrite !lookup_ge_None_2; [done | rewrite length_replicate; lia | lia].
Qed.

Section IndexVectorLoop.
Variable rng : Type.
Variable shuffle : rng → list nat → list nat * rng.
(** [random.shuffle] only reorders its argument. *)
Hypothesis shuffle_perm : ∀ g l, (shuffle g l).1 ≡ₚ l.

(** The loop over the vocabulary establishes, for every word it visits,
    whatever one run of the body establishes from the zero vector. *)
Lemma index_loop (d m : nat) (P : list Z → Prop) :
  (∀ ps, ps ≡ₚ seq 0 d → ∃ v, set_ones (replicate d 0%Z) (take m ps) = Ok v ∧ P v) →
  ∀ (ws : list string) (iv : gmap string (list Z)) (g : rng),
    NoDup ws →
    (∀ w, w ∈ ws → iv !! w = Some (replicate d 0%Z)) →
    ∃ iv' g', for_each (index_step rng shuffle d m) ws (iv, g) = Ok (iv', g') ∧
              (∀ w, w ∈ ws → ∃ v, iv' !! w = Some v ∧ P v) ∧
              (∀ w, w ∉ ws → iv' !! w = iv !! w).
Proof.
  intros Hbody ws. induction ws as [|w ws IH]; intros iv g Hnd Hzero; simpl.
  - exists iv, g. split; [done|]. split; [|done].
    intros w Hw. by apply elem_of_nil in Hw.
  - apply NoDup_cons in Hnd as [Hw Hnd].
    unfold index_step at 1.
    pose proof (shuffle_perm g (seq 0 d)) as Hperm.
    destruct (shuffle g (seq 0 d)) as [ps g1]; simpl in Hperm.
    rewrite (mark_positions_set_ones _ _ _ _ (Hzero w ltac:(left))).
    destruct (Hbody ps Hperm) as (v & -> & Hv). simpl.
    destruct (IH (<[w:=v]> iv) g1 Hnd) as (iv' & g' & Hrun & Hin & Hout).
    { intros w' Hw'. rewrite lookup_insert_ne by set_solver.
      apply Hzero. by right. }
    exists iv', g'. split; [done|]. split.
    + intros w' Hw'. apply elem_of_cons in Hw' as [->|Hw']; [|by apply Hin].
      exists v. split; [|done]. rewrite Hout by done. apply lookup_insert_eq.
    + intros w' Hw'. apply not_elem_of_cons in Hw' as [Hne Hw'].
      rewrite Hout by done. by apply lookup_insert_ne.
Qed.

Lemma build_index_vector_loop (d m : nat) (P : list Z → Prop)
    (vocabulary : gset string) (g : rng) :
  (∀ ps, ps ≡ₚ seq 0 d → ∃ v, set_ones (replicate d 0%Z) (take m ps) = Ok v ∧ P v) →
  ∃ iv g', build_index_vector rng shuffle d m vocabulary g = Ok (iv, g') ∧
           ∀ word, word ∈ vocabulary → ∃ v, iv !! word = Some v ∧ P v.
Proof.
  intros Hbody. unfold build_index_vector.
  destruct (index_loop d m P Hbody (elements vocabulary)
              (gset_to_gmap (replicate d 0%Z) vocabulary) g)
    as (iv & g' & Hrun & Hin & _).
  - apply NoDup_elements.
  - intros w Hw. apply lookup_gset_to_gmap_Some. split; [|done].
    by apply elem_of_elements.
  - exists iv, g'. split; [done|]. intros word Hword.
    apply Hin. by apply elem_of_elements.
Qed.

(** C4: with [m ≤ d], whatever [random.shuffle] returns, every word of the
    vocabulary gets an index vector of length [d] with exactly [m] entries
    equal to 1 and all other entries equal to 0. *)
Theorem index_vector_shape (d m : nat) (vocabulary : gset string) (g : rng) :
  m ≤ d →
  ∃ iv g', build_index_vector rng shuffle d m vocabulary g = Ok (iv, g') ∧
           ∀ word, word ∈ vocabulary →
             ∃ v, iv !! word = Some v ∧ length v = d ∧ ones v = m ∧ binary v.
Proof.
  intros Hmd. apply build_index_vector_loop.
  intros ps Hps. by apply set_ones_zero_vector.
Qed.

(** C5 (as the code behaves): with [d < m] nothing fails; the slice
    [random_positions[:m]] is the whole shuffled list, so every word of the
    vocabulary gets the vector of [d] ones. *)
Theorem index_vector_all_ones (d m : nat) (vocabulary : gset string) (g : rng) :
  d < m →
  ∃ iv g', build_index_vector rng shuffle d m vocabulary g = Ok (iv, g') ∧
           ∀ word, word ∈ vocabulary → iv !! word = Some (replicate d 1%Z).
Proof.
  intros Hdm.
  destruct (build_index_vector_loop d m (λ v, v = replicate d 1%Z) vocabulary g)
    as (iv & g' & Hrun & Hall).
  - intros ps Hps. exists (replicate d 1%Z). split; [|done]. by apply set_ones_all.
  - exists iv, g'. split; [done|]. intros word Hword.
    by destruct (Hall word Hword) as (v & -> & ->).
Qed.
End IndexVectorLoop.

Lemma reversing_shuffle_perm (g : unit) (l : list nat) : (reversing_shuffle g l).1 ≡ₚ l.
Proof. apply reverse_Permutation. Qed.

Lemma index_vector_shape_witness :
  ∃ iv g', build_index_vector unit reversing_shuffle 200 5 {["cat"; "dog"]} tt = Ok (iv, g') ∧
           ∀ word, word ∈ ({["cat"; "dog"]} : gset string) →
             ∃ v, iv !! word = Some v ∧ length v = 200 ∧ ones v = 5 ∧ binary v.
Proof.
  apply (index_vector_shape unit reversing_shuffle reversing_shuffle_perm 200 5).
  lia.
Defined.

Lemma index_vector_all_ones_witness :
  ∃ iv g', build_index_vector unit reversing_shuffle 2 3 {["cat"]} tt = Ok (iv, g') ∧
           ∀ word, word ∈ ({["cat"]} : gset string) → iv !! word = Some (replicate 2 1%Z).
Proof.
  apply (index_vector_all_ones unit reversing_shuffle reversing_shuffle_perm 2 3).
  lia.
Defined.

(** With [d = 2 < m = 3] the construction returns normally, and the vector
    has two ones, fewer than [m]. *)
Lemma index_vector_no_failure :
  build_index_vector unit reversing_shuffle 2 3 {["cat"]} tt
    = Ok ({["cat" := [1%Z; 1%Z]]}, tt)
  ∧ ones [1%Z; 1%Z] < 3.
Proof. split; [vm_compute; reflexivity | vm_compute; lia]. Qed.

(** ** Context aggregation *)

Lemma add_vector_loop (b : list Z) (k : nat) (a : list R) :
  k + length b ≤ length a →
  ∃ a', for_each (λ a '(i, x), ai ← getitem a i ; setitem a i (ai + IZR x)%R)
                 (zip (seq k (length b)) b) a = Ok a' ∧
        length a' = length a ∧
        ∀ j x, a !! j = Some x →
          a' !! j = Some (if decide (k ≤ j) then (x + IZR (default 0%Z (b !! (j - k)%nat)))%R
                          else x).
Proof.
  revert k a. induction b as [|y b IH]; intros k a Hlen; simpl in *.
  - exists a. split; [done|]. split; [done|]. intros j x Hj.
    rewrite Hj. f_equal. case_decide; [|done]. simpl. lra.
  - destruct (lookup_lt_is_Some_2 a k) as [ak Hak]; [lia|].
    rewrite (getitem_Ok _ _ _ Hak). simpl.
    rewrite setitem_Ok by lia. simpl.
    destruct (IH (S k) (<[k:=(ak + IZR y)%R]> a)) as (a' & Hrun & Hlen' & Hlook).
    { rewrite length_insert. lia. }
    rewrite length_insert in Hlen'.
    exists a'. split; [done|]. split; [done|]. intros j x Hj.
    destruct (decide (j = k)) as [->|Hne].
    + rewrite (Hlook k (ak + IZR y)%R).
      2:{ apply list_lookup_insert_eq. lia. }
      rewrite decide_False by lia. rewrite decide_True by lia.
      rewrite Nat.sub_diag. simpl. congruence.
    + rewrite (Hlook j x) by (by rewrite list_lookup_insert_ne).
      destruct (decide (S k ≤ j)), (decide (k ≤ j)); try lia; [|done].
      replace (j - k) with (S (j - S k)) by lia. done.
Qed.

Lemma add_vector_spec (a : list R) (b : list Z) :
  length b ≤ length a →
  ∃ a', add_vector a b = Ok a' ∧ length a' = length a ∧
        ∀ j x, a !! j = Some x → a' !! j = Some (x + IZR (default 0%Z (b !! j)))%R.
Proof.
  intros Hlen. destruct (add_vector_loop b 0 a) as (a' & Hrun & Hlen' & Hlook); [lia|].
  exists a'. split; [done|]. split; [done|]. intros j x Hj.
  rewrite (Hlook j x Hj). rewrite decide_True by lia. by rewrite Nat.sub_0_r.
Qed.

Lemma accumulate_spec (index_vector : gmap string (list Z)) (key : string)
    (context : list string) (cv : gmap string (list R)) (a : list R) :
  cv !! key = Some a →
  (∀ word, word ∈ context → ∃ b, index_vector !! word = Some b ∧ length b ≤ length a) →
  ∃ cv' a', accumulate index_vector key context cv = Ok cv' ∧
            cv' !! key = Some a' ∧ length a' = length a ∧
            (∀ j x, a !! j = Some x →
               a' !! j = Some (x + occurrence_sum index_vector context j)%R) ∧
            (∀ k, k ≠ key → cv' !! k = cv !! k).
Proof.
  unfold accumulate. revert cv a.
  induction context as [|word context IH]; intros cv a Hkey Hiv; simpl.
  - exists cv, a. split; [done|]. split; [done|]. split; [done|]. split; [|done].
    intros j x ->. f_equal. lra.
  - destruct (Hiv word ltac:(left)) as (b & Hb & Hlen).
    rewrite (dict_get_Ok _ _ _ Hkey). simpl.
    rewrite (dict_get_Ok _ _ _ Hb). simpl.
    destruct (add_vector_spec a b Hlen) as (a1 & -> & Hlen1 & Hlook1). simpl.
    destruct (IH (<[key:=a1]> cv) a1) as (cv' & a' & Hrun & Hkey' & Hlen' & Hlook' & Hother).
    { apply lookup_insert_eq. }
    { intros w Hw. destruct (Hiv w ltac:(by right)) as (b' & ? & ?).
      exists b'. split; [done | lia]. }
    exists cv', a'. split; [done|]. split; [done|]. split; [lia|]. split.
    + intros j x Hj. rewrite (Hlook' j _ (Hlook1 j x Hj)). f_equal.
      unfold component. rewrite Hb. simpl. lra.
    + intros k Hk. rewrite Hother by done. by apply lookup_insert_ne.
Qed.

Lemma zero_vectors_lookup (d : nat) (keys : list string) (key : string) :
  key ∈ keys → zero_vectors d keys !! key = Some (replicate d 0%R).
Proof.
  intros Hkey. unfold zero_vectors. apply lookup_gset_to_gmap_Some.
  split; [|done]. by apply elem_of_list_to_set.
Qed.

Lemma add_vector_loop_short (b : list Z) (k : nat) (a : list R) :
  k ≤ length a → length a < k + length b →
  for_each (λ a '(i, x), ai ← getitem a i ; setitem a i (ai + IZR x)%R)
           (zip (seq k (length b)) b) a = Raise IndexError.
Proof.
  revert k a. induction b as [|y b IH]; intros k a Hk Hlen; simpl in *; [lia|].
  destruct (decide (k < length a)) as [Hlt|Hge].
  - destruct (lookup_lt_is_Some_2 a k Hlt) as [ak Hak].
    rewrite (getitem_Ok _ _ _ Hak). simpl. rewrite setitem_Ok by done. simpl.
    apply IH; rewrite length_insert; lia.
  - unfold getitem. rewrite lookup_ge_None_2 by lia. done.
Qed.

Lemma add_vector_Ok_inv (a a' : list R) (b : list Z) :
  add_vector a b = Ok a' → length b ≤ length a.
Proof.
  intros Hrun. destruct (decide (length b ≤ length a)) as [|Hlt]; [done|].
  unfold add_vector in Hrun. rewrite add_vector_loop_short in Hrun; [done | lia | lia].
Qed.

Lemma accumulate_Ok_inv (index_vector : gmap string (list Z)) (key : string)
    (context : list string) (cv cv' : gmap string (list R)) (a : list R) :
  cv !! key = Some a →
  accumulate index_vector key context cv = Ok cv' →
  ∀ word, word ∈ context → ∃ b, index_vector !! word = Some b ∧ length b ≤ length a.
Proof.
  unfold accumulate. revert cv a.
  induction context as [|word context IH]; intros cv a Hkey Hrun w Hw.
  - by apply elem_of_nil in Hw.
  - simpl in Hrun. rewrite (dict_get_Ok _ _ _ Hkey) in Hrun. simpl in Hrun.
    destruct (dict_get index_vector word) as [b|] eqn:Hb; [|done]. simpl in Hrun.
    unfold dict_get in Hb. destruct (index_vector !! word) as [b0|] eqn:Hb0; [|done].
    injection Hb as ->.
    destruct (add_vector a b) as [a1|] eqn:Hadd; [|done]. simpl in Hrun.
    pose proof (add_vector_Ok_inv _ _ _ Hadd) as Hlen.
    apply elem_of_cons in Hw as [->|Hw]; [by eauto|].
    destruct (add_vector_spec a b Hlen) as (a1' & Hadd' & Hlen1 & _).
    rewrite Hadd in Hadd'. injection Hadd' as <-.
    rewrite <- Hlen1.
    apply (IH (<[key:=a1]> cv) a1); [apply lookup_insert_eq | done | done].
Qed.

Section ContextVectors.
Variable corp : corpus.
Variable index_vector : gmap string (list Z).
Variable d : nat.

Lemma covered_fits (doc : string) :
  covered corp index_vector d doc → fits corp index_vector d doc.
Proof. intros Hcov w Hw. destruct (Hcov w Hw) as (b & ? & ?). exists b. split; [done|lia]. Qed.

Lemma context_loop (docs : list string) (cv : gmap string (list R)) :
  NoDup docs →
  (∀ doc, doc ∈ docs → cv !! doc = Some (replicate d 0%R)) →
  (∀ doc, doc ∈ docs → fits corp index_vector d doc) →
  ∃ cv', for_each (λ cv doc, accumulate index_vector doc (lower <$> words corp doc) cv)
                  docs cv = Ok cv' ∧
         (∀ doc, doc ∈ docs →
            ∃ v, cv' !! doc = Some v ∧ length v = d ∧
                 ∀ j, j < d →
                   v !! j = Some (occurrence_sum index_vector (lower <$> words corp doc) j)) ∧
         (∀ k, k ∉ docs → cv' !! k = cv !! k).
Proof.
  revert cv. induction docs as [|doc docs IH]; intros cv Hnd Hzero Hcov; simpl.
  - exists cv. split; [done|]. split; [|done]. intros doc Hdoc. by apply elem_of_nil in Hdoc.
  - apply NoDup_cons in Hnd as [Hdoc Hnd].
    destruct (accumulate_spec index_vector doc (lower <$> words corp doc) cv (replicate d 0%R))
      as (cv1 & v & -> & Hv & Hlen & Hsum & Hother).
    { apply Hzero. by left. }
    { intros word Hword. apply list_elem_of_fmap in Hword as (w & -> & Hw).
      destruct (Hcov doc ltac:(left) w Hw) as (b & Hb & Hlenb).
      exists b. split; [done|]. rewrite length_replicate. lia. }
    simpl. rewrite length_replicate in Hlen.
    destruct (IH cv1 Hnd) as (cv' & Hrun & Hin & Hout).
    { intros doc' Hdoc'. rewrite Hother by set_solver. apply Hzero. by right. }
    { intros doc' Hdoc'. apply Hcov. by right. }
    exists cv'. split; [done|]. split.
    + intros doc' Hdoc'. apply elem_of_cons in Hdoc' as [->|Hdoc']; [|by apply Hin].
      exists v. rewrite Hout by done. split; [done|]. split; [done|].
      intros j Hj. rewrite (Hsum j 0%R) by (by apply lookup_replicate_2).
      f_equal. lra.
    + intros k Hk. apply not_elem_of_cons in Hk as [Hne Hk].
      rewrite Hout by done. by apply Hother.
Qed.

(** A loop that returns found an index vector that fits for every token. *)
Lemma context_loop_fits (docs : list string) (cv cv' : gmap string (list R)) :
  NoDup docs →
  (∀ doc, doc ∈ docs → cv !! doc = Some (replicate d 0%R)) →
  for_each (λ cv doc, accumulate index_vector doc (lower <$> words corp doc) cv)
           docs cv = Ok cv' →
  ∀ doc, doc ∈ docs → fits corp index_vector d doc.
Proof.
  revert cv. induction docs as [|doc docs IH]; intros cv Hnd Hzero Hrun doc' Hdoc'.
  - by apply elem_of_nil in Hdoc'.
  - apply NoDup_cons in Hnd as [Hdoc Hnd]. simpl in Hrun.
    destruct (accumulate index_vector doc (lower <$> words corp doc) cv) as [cv1|] eqn:Hacc;
      [|done]. simpl in Hrun.
    pose proof (accumulate_Ok_inv _ _ _ _ _ _ (Hzero doc ltac:(left)) Hacc) as Hfit.
    rewrite length_replicate in Hfit.
    apply elem_of_cons in Hdoc' as [->|Hdoc'].
    + intros w Hw. apply Hfit, list_elem_of_fmap. by exists w.
    + destruct (accumulate_spec index_vector doc (lower <$> words corp doc) cv
                  (replicate d 0%R)) as (cv1' & _ & Hacc' & _ & _ & _ & Hother).
      { apply Hzero. by left. }
      { intros word Hword. rewrite length_replicate. by apply Hfit. }
      rewrite Hacc in Hacc'. injection Hacc' as <-.
      apply (IH cv1); [done| |done|done].
      intros doc2 Hdoc2. rewrite Hother by set_solver. apply Hzero. by right.
Qed.

(** C1: for distinct document ids, the aggregation returns when the index
    vectors cover the tokens; and whenever it returns, every document's
    context vector has length [d] and, entry by entry, is the sum over the
    token occurrences of the document (lower-cased) of the index vector of
    the token; a token that occurs twice is added twice. *)
Theorem context_vector_is_sum (documents : list string) :
  NoDup documents →
  ((∀ doc, doc ∈ documents → covered corp index_vector d doc) →
   ∃ cv, build_context_vector corp index_vector d documents = Ok cv) ∧
  ∀ cv, build_context_vector corp index_vector d documents = Ok cv →
    ∀ doc, doc ∈ documents →
      ∃ v, cv !! doc = Some v ∧ length v = d ∧
           ∀ j, j < d →
             v !! j = Some (occurrence_sum index_vector (lower <$> words corp doc) j).
Proof.
  intros Hnd. unfold build_context_vector.
  assert (∀ doc, doc ∈ documents →
            zero_vectors d documents !! doc = Some (replicate d 0%R)) as Hzero
    by (intros doc Hdoc; by apply zero_vectors_lookup).
  split.
  - intros Hcov.
    destruct (context_loop documents (zero_vectors d documents) Hnd Hzero)
      as (cv & Hrun & _); [|by exists cv].
    intros doc Hdoc. by apply covered_fits, Hcov.
  - intros cv Hrun.
    pose proof (context_loop_fits documents _ _ Hnd Hzero Hrun) as Hfits.
    destruct (context_loop documents (zero_vectors d documents) Hnd Hzero Hfits)
      as (cv' & Hrun' & Hin & _).
    rewrite Hrun in Hrun'. by injection Hrun' as <-.
Qed.
End ContextVectors.

Lemma toy_covered (doc : string) : covered toy_corpus toy_index_vector 4 doc.
Proof.
  intros w Hw. simpl in Hw.
  repeat (apply elem_of_cons in Hw as [->|Hw]); [..|by apply elem_of_nil in Hw].
  - exists [1; 1; 0; 0]%Z. split; reflexivity.
  - exists [0; 1; 1; 0]%Z. split; reflexivity.
  - exists [1; 1; 0; 0]%Z. split; reflexivity.
Qed.

Lemma context_vector_is_sum_witness :
  ∃ cv, build_context_vector toy_corpus toy_index_vector 4 ["doc"] = Ok cv ∧
        ∀ doc, doc ∈ ["doc"] →
          ∃ v, cv !! doc = Some v ∧ length v = 4 ∧
               ∀ j, j < 4 →
                 v !! j = Some (occurrence_sum toy_index_vector
                                  (lower <$> words toy_corpus doc) j).
Proof.
  destruct (context_vector_is_sum toy_corpus toy_index_vector 4 ["doc"])
    as [Hreturns Hresult]; [apply NoDup_singleton|].
  destruct Hreturns as [cv Hcv]; [intros doc _; apply toy_covered|].
  exists cv. split; [exact Hcv | exact (Hresult cv Hcv)].
Defined.

(** The tokens a, b, a give twice the index vector of a plus once that of b. *)
Lemma occurrence_sum_a_b_a (index_vector : gmap string (list Z)) (j : nat) :
  occurrence_sum index_vector ["a"; "b"; "a"] j
  = (2 * IZR (component index_vector "a" j) + 1 * IZR (component index_vector "b" j))%R.
Proof. simpl. lra. Qed.

Example context_vector_a_b_a :
  ∃ cv, build_context_vector toy_corpus toy_index_vector 4 ["doc"] = Ok cv ∧
        cv !! "doc" = Some [2; 3; 1; 0]%R.
Proof.
  destruct (context_loop toy_corpus toy_index_vector 4 ["doc"] (zero_vectors 4 ["doc"]))
    as (cv & Hrun & Hin & _).
  - apply NoDup_singleton.
  - intros doc Hdoc. by apply zero_vectors_lookup.
  - intros doc _. apply covered_fits, toy_covered.
  - exists cv. split; [exact Hrun|].
    destruct (Hin "doc" ltac:(left)) as (v & -> & Hlen & Hsum). f_equal.
    change (lower <$> words toy_corpus "doc") with ["a"; "b"; "a"] in Hsum.
    apply list_eq. intros j. destruct (decide (j < 4)) as [Hj|Hj].
    + rewrite (Hsum j Hj), occurrence_sum_a_b_a.
      destruct j as [|[|[|[|j]]]]; [..|lia]; simpl; f_equal;
        repeat match goal with
          | |- context [component ?m ?w ?i] =>
              let z := eval vm_compute in (component m w i) in
              change (component m w i) with z
          end; lra.
    + rewrite !lookup_ge_None_2; [done | simpl; lia | lia].
Qed.

(** ** Vector mathematics *)

Section VectorMath.
Local Open Scope R_scope.

Lemma truediv_Ok (x y : R) : y ≠ 0 → truediv x y = Ok (x / y).
Proof. unfold truediv. intros Hy. by destruct (Req_dec_T y 0). Qed.

Lemma truediv_zero (x : R) : truediv x 0 = Raise ZeroDivisionError.
Proof. unfold truediv. by destruct (Req_dec_T 0 0). Qed.

Lemma math_sqrt_Ok (x : R) : 0 <= x → math_sqrt x = Ok (sqrt x).
Proof. unfold math_sqrt. intros Hx. destruct (Rlt_dec x 0); [lra | done]. Qed.

Lemma foldl_Rplus (acc : R) (xs : list R) : foldl Rplus acc xs = acc + py_sum xs.
Proof.
  unfold py_sum. revert acc. induction xs as [|x xs IH]; intros acc; simpl; [lra|].
  rewrite (IH (acc + x)), (IH (0 + x)). lra.
Qed.

Lemma py_sum_squares (v : list R) : py_sum ((λ x, x ^ 2) <$> v) = sum_squares v.
Proof.
  induction v as [|x v IH]; [done|].
  rewrite fmap_cons. unfold py_sum at 1. cbn [foldl].
  rewrite foldl_Rplus, IH. cbn [sum_squares]. lra.
Qed.

Lemma sum_squares_nonneg (v : list R) : 0 <= sum_squares v.
Proof.
  induction v as [|x v IH]; simpl; [lra|].
  pose proof (pow2_ge_0 x). lra.
Qed.

(** [vector_length] never raises: it is the Euclidean length. *)
Lemma vector_length_euclid (v : list R) : vector_length v = Ok (euclid v).
Proof.
  unfold vector_length, euclid. rewrite py_sum_squares.
  apply math_sqrt_Ok, sum_squares_nonneg.
Qed.

Lemma euclid_nonneg (v : list R) : 0 <= euclid v.
Proof. apply sqrt_pos. Qed.

Lemma euclid_sqr (v : list R) : euclid v * euclid v = sum_squares v.
Proof. apply sqrt_sqrt, sum_squares_nonneg. Qed.

Lemma sum_squares_zero (v : list R) : Forall (λ x, x = 0) v → sum_squares v = 0.
Proof. induction 1 as [|x v -> _ IH]; simpl; [done|]. rewrite IH. lra. Qed.

Lemma euclid_zero (v : list R) : Forall (λ x, x = 0) v → euclid v = 0.
Proof. intros Hv. unfold euclid. rewrite sum_squares_zero by done. apply sqrt_0. Qed.

Lemma list_comp_Ok {A B : Type} (f : A → result B) (g : A → B) (xs : list A) :
  (∀ x, x ∈ xs → f x = Ok (g x)) → list_comp f xs = Ok (g <$> xs).
Proof.
  induction xs as [|x xs IH]; intros Hf; simpl; [done|].
  rewrite (Hf x) by (by left). simpl.
  rewrite IH; [done|]. intros y Hy. apply Hf. by right.
Qed.

Lemma normalize_Ok (v : list R) :
  euclid v ≠ 0 → normalize v = Ok ((λ x, x / euclid v) <$> v).
Proof.
  intros Hv. unfold normalize. apply list_comp_Ok. intros x _.
  rewrite vector_length_euclid. simpl. by apply truediv_Ok.
Qed.

Lemma sum_squares_scale (k : R) (v : list R) :
  k ≠ 0 → sum_squares ((λ x, x / k) <$> v) = sum_squares v / (k * k).
Proof.
  intros Hk. induction v as [|x v IH].
  - cbn [fmap list_fmap sum_squares]. by field.
  - rewrite fmap_cons. cbn [sum_squares]. rewrite IH. by field.
Qed.

Lemma euclid_normalized (v : list R) :
  euclid v ≠ 0 → euclid ((λ x, x / euclid v) <$> v) = 1.
Proof.
  intros Hv. unfold euclid at 1. rewrite sum_squares_scale, euclid_sqr by done.
  pose proof (euclid_sqr v) as Hsq.
  assert (sum_squares v ≠ 0) as Hne.
  { intros H0. rewrite H0 in Hsq. apply Rmult_integral in Hsq. tauto. }
  replace (sum_squares v / sum_squares v) with 1 by (by field).
  apply sqrt_1.
Qed.

Lemma euclid_nonzero (v : list R) : 0 < sum_squares v → euclid v ≠ 0.
Proof. intros Hv. pose proof (sqrt_lt_R0 _ Hv). unfold euclid. lra. Qed.


(** C6 (as the code behaves): normalising a non-empty vector whose entries
    are all zero raises the [ZeroDivisionError] of the division
    [x / vector_length(a)]; [vector_length] itself returns 0. *)
Theorem normalize_zero_vector (v : list R) :
  v ≠ [] → Forall (λ x, x = 0) v →
  vector_length v = Ok 0 ∧ normalize v = Raise ZeroDivisionError.
Proof.
  intros Hne Hzero. rewrite vector_length_euclid, (euclid_zero v Hzero).
  split; [done|]. destruct v as [|x v]; [done|].
  unfold normalize. simpl. rewrite vector_length_euclid, (euclid_zero _ Hzero). simpl.
  by rewrite truediv_zero.
Qed.

Lemma dot_nil_r (a : list R) : dot a [] = 0.
Proof. by destruct a. Qed.


Lemma dot_nonneg (a b : list R) :
  Forall (λ x, 0 <= x) a → Forall (λ x, 0 <= x) b → 0 <= dot a b.
Proof.
  intros Ha. revert b. induction Ha as [|x a Hx _ IH]; intros b Hb; simpl; [lra|].
  destruct Hb as [|y b Hy Hb]; [lra|].
  specialize (IH b Hb). nra.
Qed.

(** The Cauchy-Schwarz inequality on lists. *)
Lemma dot_sqr_le (a b : list R) : dot a b * dot a b <= sum_squares a * sum_squares b.
Proof.
  revert b. induction a as [|x a IH]; intros b.
  - simpl. pose proof (sum_squares_nonneg b). lra.
  - destruct b as [|y b].
    + simpl. pose proof (sum_squares_nonneg (x :: a)). simpl in *. lra.
    + specialize (IH b). cbn [dot sum_squares].
      pose proof (sum_squares_nonneg a) as HA.
      pose proof (sum_squares_nonneg b) as HB.
      set (S := dot a b) in *. set (A := sum_squares a) in *.
      set (B := sum_squares b) in *.
      assert (2 * (x * y * S) <= x * x * B + y * y * A) as Hmix.
      { destruct (Rle_lt_dec A 0) as [HA0|HA0].
        - assert (A = 0) as HAz by lra.
          assert (S * S <= 0) as HS by (rewrite HAz in IH; lra).
          assert (S = 0) as -> by nra. nra.
        - pose proof (pow2_ge_0 (x * S - y * A)) as Hsq.
          assert (0 <= A * (x * x * B + y * y * A - 2 * (x * y * S))) as Hprod by nra.
          apply Rnot_lt_le. intros Hlt.
          assert (A * (x * x * B + y * y * A - 2 * (x * y * S)) < 0); [|lra].
          rewrite Rmult_comm. apply Rmult_neg_pos; lra. }
      nra.
Qed.

Lemma dot_le_euclid (a b : list R) : dot a b <= euclid a * euclid b.
Proof.
  pose proof (dot_sqr_le a b) as Hcs.
  rewrite <- (euclid_sqr a), <- (euclid_sqr b) in Hcs.
  pose proof (euclid_nonneg a). pose proof (euclid_nonneg b).
  apply Rnot_lt_le. intros Hlt.
  assert (0 <= euclid a * euclid b) by nra. nra.
Qed.

(** The loop of [cosine_dist] adds up the dot product, provided [a] is at
    least as long as [b]. *)
Lemma cosine_loop_dot (n : nat) (a b : list R) (i : nat) (total : R) :
  (length b ≤ length a)%nat → (i + n)%nat = length b →
  cosine_loop n a b i total = Ok (total + dot (drop i a) (drop i b)).
Proof.
  revert i total. induction n as [|n IH]; intros i total Hlen Hi; simpl.
  - rewrite (drop_ge b) by lia. rewrite dot_nil_r. f_equal. lra.
  - destruct (lookup_lt_is_Some_2 a i) as [ai Hai]; [lia|].
    destruct (lookup_lt_is_Some_2 b i) as [bi Hbi]; [lia|].
    rewrite (getitem_Ok _ _ _ Hai), (getitem_Ok _ _ _ Hbi). simpl.
    rewrite IH by lia.
    rewrite (drop_S a ai i Hai), (drop_S b bi i Hbi). simpl. f_equal. lra.
Qed.

(** When [a] is shorter than [b] the loop reads past the end of [a]. *)
Lemma cosine_loop_short (n : nat) (a b : list R) (i : nat) (total : R) :
  (length a < length b)%nat → (i ≤ length a)%nat → (i + n)%nat = length b →
  cosine_loop n a b i total = Raise IndexError.
Proof.
  revert i total. induction n as [|n IH]; intros i total Hlen Hia Hi; simpl; [lia|].
  destruct (decide (i < length a)%nat) as [Hlt|Hge].
  - destruct (lookup_lt_is_Some_2 a i) as [ai Hai]; [lia|].
    destruct (lookup_lt_is_Some_2 b i) as [bi Hbi]; [lia|].
    rewrite (getitem_Ok _ _ _ Hai), (getitem_Ok _ _ _ Hbi). simpl.
    apply IH; lia.
  - unfold getitem. rewrite (lookup_ge_None_2 a i) by lia. done.
Qed.

Lemma cosine_dist_short (a b : list R) :
  (length a < length b)%nat → cosine_dist a b = Raise IndexError.
Proof.
  intros Hlen. unfold cosine_dist. rewrite cosine_loop_short; [done | done | lia | lia].
Qed.

Lemma cosine_dist_Ok (a b : list R) :
  (length b ≤ length a)%nat → euclid a ≠ 0 → euclid b ≠ 0 →
  cosine_dist a b = Ok (1 - dot a b / (euclid a * euclid b)).
Proof.
  intros Hlen Ha Hb. unfold cosine_dist.
  rewrite cosine_loop_dot by (done || lia). simpl.
  rewrite !vector_length_euclid. simpl.
  rewrite truediv_Ok by (by apply Rmult_integral_contrapositive).
  simpl. do 2 f_equal. rewrite !drop_0. f_equal. lra.
Qed.

(** C8 (in exact arithmetic): for two vectors of one dimension with
    non-negative entries and non-zero lengths, [cosine_dist] returns a value
    between 0 and 1. *)
Theorem cosine_dist_range (a b : list R) (la lb : R) :
  length a = length b →
  vector_length a = Ok la → la ≠ 0 →
  vector_length b = Ok lb → lb ≠ 0 →
  Forall (λ x, 0 <= x) a → Forall (λ x, 0 <= x) b →
  ∃ c, cosine_dist a b = Ok c ∧ 0 <= c <= 1.
Proof.
  rewrite !vector_length_euclid. intros Hlen [= <-] Ha [= <-] Hb Hpa Hpb.
  eexists. split; [apply cosine_dist_Ok; (done || lia)|].
  pose proof (euclid_nonneg a). pose proof (euclid_nonneg b).
  assert (0 < euclid a * euclid b) as Hprod by (apply Rmult_lt_0_compat; lra).
  pose proof (dot_nonneg a b Hpa Hpb) as Hdot.
  pose proof (dot_le_euclid a b) as Hcs.
  assert (dot a b / (euclid a * euclid b) * (euclid a * euclid b) = dot a b) as Hq
    by (field; lra).
  set (q := dot a b / (euclid a * euclid b)) in *.
  set (p := euclid a * euclid b) in *.
  split; nra.
Qed.

End VectorMath.

Lemma euclid_1_0 : euclid [1; 0]%R = 1%R.
Proof.
  unfold euclid. simpl. replace (1 * (1 * 1) + (0 * (0 * 1) + 0))%R with 1%R by lra.
  apply sqrt_1.
Qed.

Lemma euclid_0_1 : euclid [0; 1]%R = 1%R.
Proof.
  unfold euclid. simpl. replace (0 * (0 * 1) + (1 * (1 * 1) + 0))%R with 1%R by lra.
  apply sqrt_1.
Qed.



Lemma normalize_zero_vector_witness :
  vector_length [0; 0; 0]%R = Ok 0%R ∧ normalize [0; 0; 0]%R = Raise ZeroDivisionError.
Proof.
  apply (normalize_zero_vector [0; 0; 0]%R).
  - discriminate.
  - repeat constructor.
Defined.

(** Normalising the zero vector of dimension 2: the length is computed
    without an error and the division raises [ZeroDivisionError]. *)
Lemma normalize_raises_zero_division :
  vector_length [0; 0]%R = Ok 0%R ∧ normalize [0; 0]%R = Raise ZeroDivisionError.
Proof.
  assert (euclid [0; 0]%R = 0%R) as Hlen by (apply euclid_zero; repeat constructor).
  rewrite vector_length_euclid, Hlen. split; [done|].
  unfold normalize. simpl. rewrite vector_length_euclid, Hlen. simpl.
  by rewrite truediv_zero.
Qed.

Lemma cosine_dist_range_witness :
  ∃ c, cosine_dist [1; 0]%R [1; 1]%R = Ok c ∧ (0 <= c <= 1)%R.
Proof.
  apply (cosine_dist_range [1; 0]%R [1; 1]%R (euclid [1; 0]%R) (euclid [1; 1]%R)).
  - reflexivity.
  - apply vector_length_euclid.
  - apply euclid_nonzero. simpl. lra.
  - apply vector_length_euclid.
  - apply euclid_nonzero. simpl. lra.
  - repeat constructor; lra.
  - repeat constructor; lra.
Defined.


(** ** The positional split *)

Lemma slice_sizes_upto_500 : forallb slice_sizes_ok (seq 0 501) = true.
Proof. vm_compute. reflexivity. Qed.

Lemma slice_sizes (n : nat) :
  n ≤ 500 →
  ∃ s3 s7, slice_size n float_0_3 = Ok s3 ∧ slice_size n float_0_7 = Ok s7 ∧
           s3 = 3 * n / 10 ∧ s3 ≤ s7 ∧ s7 ≤ 7 * n / 10 ≤ S s7 ∧ s7 ≤ n.
Proof.
  intros Hn. pose proof slice_sizes_upto_500 as Hall.
  rewrite forallb_forall in Hall. specialize (Hall n).
  unfold slice_sizes_ok in Hall.
  destruct (slice_size n float_0_3) as [s3|], (slice_size n float_0_7) as [s7|];
    try (discriminate Hall; apply in_seq; lia).
  exists s3, s7.
  assert ((s3 =? 3 * n / 10) && (s3 <=? s7) && (s7 <=? 7 * n / 10)
          && (7 * n / 10 <=? S s7) && (s7 <=? n) = true) as Hb
    by (apply Hall, in_seq; lia).
  repeat (apply andb_true_iff in Hb as [Hb ?]).
  apply Nat.eqb_eq in Hb.
  repeat match goal with H : (_ <=? _) = true |- _ => apply Nat.leb_le in H end.
  repeat split; (done || lia).
Qed.

(** Rounding matters: [90 * 0.7] is just below 63 in binary64. *)
Example slice_size_90 : slice_size 90 float_0_7 = Ok 62.
Proof. vm_compute. reflexivity. Qed.

(** For a genre of up to 500 distinct files the test files are the first
    [3n/10] of the list, the training files are the last [n - s7] of it with
    [s7] about [7n/10], and no file is in both. *)
Lemma split_disjoint (corp : corpus) (genre : string) :
  length (fileids corp genre) ≤ 500 → NoDup (fileids corp genre) →
  ∃ test train,
    test_files corp genre = Ok test ∧ train_files corp genre = Ok train ∧
    test = take (3 * length (fileids corp genre) / 10) (fileids corp genre) ∧
    (∀ file, file ∈ test → file ∉ train) ∧
    length train + 7 * length (fileids corp genre) / 10 ≤ S (length (fileids corp genre)).
Proof.
  intros Hlen Hnd. unfold test_files, train_files.
  destruct (slice_sizes _ Hlen) as (s3 & s7 & -> & -> & Hs3 & Hle & Hs7 & Hn).
  rewrite <- Hs3. clear Hs3.
  remember (7 * length (fileids corp genre) / 10) as q7. simpl.
  eexists _, _. split; [done|]. split; [done|]. split; [done|]. split.
  - intros file Htest Htrain.
    apply list_elem_of_lookup in Htest as [i Hi].
    apply list_elem_of_lookup in Htrain as [j Hj].
    rewrite lookup_take_Some in Hi. destruct Hi as [Hi Hilt].
    rewrite lookup_drop in Hj.
    pose proof (NoDup_lookup _ _ _ _ Hnd Hi Hj). lia.
  - rewrite length_drop. lia.
Qed.

(** C3 (what the code does on a genre of six documents): the test set is
    the first document, the training slice [fileids[size:]] with
    [size = int(6 * 0.7) = 4] is the last two documents, while the rest of
    the list after the test set has five. *)
Theorem split_six_documents :
  test_files six_documents "science_fiction" = Ok ["cm01"] ∧
  train_files six_documents "science_fiction" = Ok ["cm05"; "cm06"] ∧
  drop 1 (fileids six_documents "science_fiction")
    = ["cm02"; "cm03"; "cm04"; "cm05"; "cm06"].
Proof. repeat split; vm_compute; reflexivity. Qed.

(** ** Zero lengths *)

Lemma sum_squares_zero_inv (v : list R) :
  sum_squares v = 0%R → Forall (λ x, x = 0%R) v.
Proof.
  induction v as [|x v IH]; simpl; intros Hsum; [constructor|].
  pose proof (sum_squares_nonneg v) as Hv. pose proof (pow2_ge_0 x) as Hx.
  simpl in Hx.
  assert (x * (x * 1) = 0)%R as Hx0 by lra.
  constructor; [|apply IH; lra].
  assert (x * x = 0)%R as Hxx by lra.
  by destruct (Rmult_integral _ _ Hxx).
Qed.

Lemma euclid_zero_iff (v : list R) : euclid v = 0%R ↔ Forall (λ x, x = 0%R) v.
Proof.
  split; [|apply euclid_zero].
  intros Hlen. apply sum_squares_zero_inv.
  rewrite <- (euclid_sqr v), Hlen. lra.
Qed.

Lemma normalize_zero_raises (v : list R) :
  v ≠ [] → euclid v = 0%R → normalize v = Raise ZeroDivisionError.
Proof.
  intros Hne Hzero. destruct v as [|x v]; [done|].
  unfold normalize. simpl. rewrite vector_length_euclid, Hzero. simpl.
  by rewrite truediv_zero.
Qed.

Lemma cosine_dist_zero_raises (a b : list R) :
  length b ≤ length a → (euclid a = 0 ∨ euclid b = 0)%R →
  cosine_dist a b = Raise ZeroDivisionError.
Proof.
  intros Hlen Hzero. unfold cosine_dist.
  rewrite cosine_loop_dot by (done || lia). simpl.
  rewrite !vector_length_euclid. simpl.
  assert (euclid a * euclid b = 0)%R as ->; [|by rewrite truediv_zero].
  destruct Hzero as [-> | ->]; lra.
Qed.

(** ** [min] with a key *)

Section MinFrom.
Context {A : Type}.
Variable key : A → R.

Lemma min_from_elem (best : A) (rest : list A) : min_from key best rest ∈ best :: rest.
Proof.
  revert best. induction rest as [|x rest IH]; intros best; simpl; [by left|].
  destruct (Rlt_dec (key x) (key best)).
  - right. apply IH.
  - specialize (IH best). apply elem_of_cons in IH as [->|IH]; [by left|].
    right. by right.
Qed.

(** The result is the first element with the least key. *)
Lemma min_from_first (best : A) (rest : list A) :
  ∃ i, (best :: rest) !! i = Some (min_from key best rest) ∧
       (∀ j y, (best :: rest) !! j = Some y → (key (min_from key best rest) <= key y)%R) ∧
       (∀ j y, j < i → (best :: rest) !! j = Some y →
               (key (min_from key best rest) < key y)%R).
Proof.
  revert best. induction rest as [|x rest IH]; intros best; simpl.
  - exists 0. split; [done|]. split; [|intros; lia].
    intros [|j] y Hy; simplify_eq/=. lra.
  - destruct (Rlt_dec (key x) (key best)) as [Hlt|Hge].
    + destruct (IH x) as (i & Hi & Hle & Hfirst).
      set (r := min_from key x rest) in *.
      assert (key r <= key x)%R as Hrx by (by apply (Hle 0)).
      exists (S i). split; [done|]. split.
      * intros [|j] y Hy; simplify_eq/=; [lra | by eapply Hle].
      * intros [|j] y Hj Hy; simplify_eq/=; [lra|].
        eapply Hfirst; [|done]. lia.
    + destruct (IH best) as (i & Hi & Hle & Hfirst).
      set (r := min_from key best rest) in *.
      assert (key r <= key best)%R as Hrb by (by apply (Hle 0)).
      destruct i as [|i].
      * exists 0. split; [done|]. split; [|intros; lia].
        intros [|[|j]] y Hy; simplify_eq/=; [lra | lra | by apply (Hle (S j))].
      * assert (key r < key best)%R as Hrb' by (apply (Hfirst 0); [lia | done]).
        exists (S (S i)). split; [done|]. split.
        -- intros [|[|j]] y Hy; simplify_eq/=; [lra | lra | by apply (Hle (S j))].
        -- intros [|[|j]] y Hj Hy; simplify_eq/=; [lra | lra |].
           apply (Hfirst (S j)); [lia | done].
Qed.

Lemma min_from_app (best : A) (l1 l2 : list A) :
  min_from key best (l1 ++ l2) = min_from key (min_from key best l1) l2.
Proof.
  revert best. induction l1 as [|x l1 IH]; intros best; simpl; [done|].
  by destruct (Rlt_dec (key x) (key best)).
Qed.

Lemma min_from_stay (best : A) (rest : list A) :
  (∀ y, y ∈ rest → (key best <= key y)%R) → min_from key best rest = best.
Proof.
  induction rest as [|x rest IH]; intros Hle; simpl; [done|].
  destruct (Rlt_dec (key x) (key best)) as [Hlt|_].
  - specialize (Hle x ltac:(left)). lra.
  - apply IH. intros y Hy. apply Hle. by right.
Qed.

(** Elements appended after the list that repeat elements of it do not
    change the result. *)
Lemma min_from_repeats (best : A) (rest more : list A) :
  (∀ y, y ∈ more → y ∈ best :: rest) →
  min_from key best (rest ++ more) = min_from key best rest.
Proof.
  intros Hmore. rewrite min_from_app. apply min_from_stay. intros y Hy.
  destruct (min_from_first best rest) as (_ & _ & Hle & _).
  apply Hmore, list_elem_of_lookup in Hy as [j Hj]. by eapply Hle.
Qed.
End MinFrom.

(** ** The classifier *)

Section Classifier.
Variable G : globals.
Variable D : nat.

Lemma normalize_nonzero (v : list R) (len : R) :
  vector_length v = Ok len → len ≠ 0%R →
  ∃ w, normalize v = Ok w ∧ length w = length v ∧ euclid w = 1%R.
Proof.
  rewrite vector_length_euclid. intros [= <-] Hlen.
  eexists. split; [by apply normalize_Ok|]. split; [by rewrite length_fmap|].
  by apply euclid_normalized.
Qed.

Lemma distance_Ok (doc genre : string) :
  nonzero_vector (context_vector_document G) D doc →
  nonzero_vector (context_vector_genre G) D genre →
  distance G doc genre = Ok (value (distance G doc genre)).
Proof.
  intros (dv & ld & Hdv & Hdl & Hdlen & Hdnz) (gv & lg & Hgv & Hgl & Hglen & Hgnz).
  destruct (normalize_nonzero dv ld Hdlen Hdnz) as (a & Ha & Hal & Hae).
  destruct (normalize_nonzero gv lg Hglen Hgnz) as (b & Hb & Hbl & Hbe).
  assert (∃ c, distance G doc genre = Ok c) as [c Hc]; [|by rewrite Hc].
  unfold distance.
  rewrite (dict_get_Ok _ _ _ Hdv). simpl. rewrite Ha. simpl.
  rewrite (dict_get_Ok _ _ _ Hgv). simpl. rewrite Hb. simpl.
  eexists. apply cosine_dist_Ok; [lia | rewrite Hae; lra | rewrite Hbe; lra].
Qed.

Lemma inner_pairs (doc : string) (genres : list string) (print_pairs : list pair) :
  (∀ genre, genre ∈ genres →
     distance G doc genre = Ok (value (distance G doc genre))) →
  for_each (λ print_pairs genre,
      c ← distance G doc genre ; Ok (print_pairs ++ [(doc, genre, c)]))
    genres print_pairs
  = Ok (print_pairs ++ row G genres doc).
Proof.
  unfold row. revert print_pairs.
  induction genres as [|genre genres IH]; intros print_pairs Hd; simpl.
  - by rewrite app_nil_r.
  - rewrite (Hd genre) by (by left). simpl.
    rewrite IH by (intros g Hg; apply Hd; by right).
    by rewrite <- app_assoc.
Qed.

Lemma all_pairs_rows (docs genres : list string) :
  (∀ doc genre, doc ∈ docs → genre ∈ genres →
     distance G doc genre = Ok (value (distance G doc genre))) →
  all_pairs G docs genres = Ok (concat (row G genres <$> docs)).
Proof.
  unfold all_pairs. intros Hd.
  assert (∀ print_pairs,
    for_each (λ print_pairs doc,
        for_each (λ print_pairs genre,
            c ← distance G doc genre ; Ok (print_pairs ++ [(doc, genre, c)]))
          genres print_pairs)
      docs print_pairs
    = Ok (print_pairs ++ concat (row G genres <$> docs))) as Hloop; [|apply Hloop].
  induction docs as [|doc docs IH]; intros print_pairs; simpl.
  - by rewrite app_nil_r.
  - rewrite inner_pairs by (intros g Hg; apply Hd; [by left | done]). simpl.
    rewrite IH by (intros d g Hd' Hg; apply Hd; [by right | done]).
    by rewrite <- app_assoc.
Qed.

(** The pairs that mention [doc] start with the row of [doc]; what follows
    repeats pairs of that row (when [doc] occurs again among the documents). *)
Lemma relevant_pairs (docs genres : list string) (doc : string) :
  doc ∈ docs →
  ∃ more, filter (λ p : pair, p.1.1 = doc) (concat (row G genres <$> docs))
          = row G genres doc ++ more ∧
          ∀ y, y ∈ more → y ∈ row G genres doc.
Proof.
  assert (∀ d, filter (λ p : pair, p.1.1 = doc) (row G genres d)
               = if decide (d = doc) then row G genres d else []) as Hrow.
  { intros d. unfold row. induction genres as [|g gs IH].
    - by case_decide.
    - rewrite fmap_cons, filter_cons, IH. simpl. by repeat case_decide. }
  assert (∀ ds y, y ∈ filter (λ p : pair, p.1.1 = doc) (concat (row G genres <$> ds)) →
                  y ∈ row G genres doc) as Hall.
  { induction ds as [|d ds IH]; intros y; simpl.
    - intros Hy. by apply elem_of_nil in Hy.
    - rewrite filter_app, Hrow, elem_of_app. intros [Hy|Hy]; [|by apply IH].
      case_decide; [by subst | by apply elem_of_nil in Hy]. }
  induction docs as [|d docs IH]; intros Hdoc; [by apply elem_of_nil in Hdoc|].
  simpl. rewrite filter_app, Hrow.
  destruct (decide (d = doc)) as [->|Hne].
  - eexists. split; [done|]. apply Hall.
  - apply elem_of_cons in Hdoc as [?|Hdoc]; [congruence|]. by apply IH.
Qed.

Lemma best_pair_elem (genres : list string) (doc : string) :
  genres ≠ [] → best_pair G genres doc ∈ row G genres doc.
Proof.
  intros Hg. unfold best_pair.
  destruct (row G genres doc) as [|p ps] eqn:Hrow.
  - destruct genres; [done | discriminate Hrow].
  - apply min_from_elem.
Qed.

Lemma row_elem (genres : list string) (doc : string) (p : pair) :
  p ∈ row G genres doc ↔
  ∃ genre, genre ∈ genres ∧ p = (doc, genre, value (distance G doc genre)).
Proof.
  unfold row. rewrite list_elem_of_fmap. split; intros (g & ? & ?); by exists g.
Qed.

Lemma best_pair_doc (genres : list string) (doc : string) :
  genres ≠ [] → (best_pair G genres doc).1.1 = doc.
Proof.
  intros Hg. apply best_pair_elem with (doc := doc) in Hg.
  apply row_elem in Hg as (g & _ & ->). done.
Qed.

Lemma classify_step_spec (docs genres : list string) (doc : string)
    (mp : list pair) (c i : nat) :
  genres ≠ [] → doc ∈ docs → categories_of (brown G) doc ≠ [] →
  classify_step G (concat (row G genres <$> docs)) (mp, c, i) doc
  = Ok (mp ++ [best_pair G genres doc],
        c + length (filter (predicted_correctly G) [best_pair G genres doc]),
        i + length (filter (λ p, ¬ predicted_correctly G p) [best_pair G genres doc])).
Proof.
  intros Hg Hdoc Hcat. unfold classify_step.
  destruct (relevant_pairs docs genres doc Hdoc) as (more & -> & Hmore).
  pose proof (best_pair_doc genres doc Hg) as Hbd.
  unfold best_pair in *.
  destruct (row G genres doc) as [|p ps] eqn:Hrow.
  { destruct genres; [done | discriminate Hrow]. }
  simpl. rewrite min_from_repeats by done.
  set (best := min_from (λ d : pair, d.2) p ps) in *.
  destruct (categories_of (brown G) doc) as [|gold cats] eqn:Hcats; [done|].
  assert (predicted_correctly G best ↔ best.1.2 = gold) as Hpc.
  { unfold predicted_correctly. rewrite Hbd, Hcats. simpl. split; congruence. }
  simpl. rewrite !filter_cons, !filter_nil.
  destruct (decide (best.1.2 = gold)) as [Heq|Hne]; repeat case_decide;
    try tauto; simpl; do 3 f_equal; lia.
Qed.

Lemma classify_loop (docs genres ds : list string) (mp : list pair) (c i : nat) :
  genres ≠ [] →
  (∀ doc, doc ∈ ds → doc ∈ docs ∧ categories_of (brown G) doc ≠ []) →
  for_each (classify_step G (concat (row G genres <$> docs))) ds (mp, c, i)
  = Ok (mp ++ (best_pair G genres <$> ds),
        c + length (filter (predicted_correctly G) (best_pair G genres <$> ds)),
        i + length (filter (λ p, ¬ predicted_correctly G p) (best_pair G genres <$> ds))).
Proof.
  intros Hg. revert mp c i. induction ds as [|doc ds IH]; intros mp c i Hds.
  - simpl. rewrite app_nil_r. do 3 f_equal; lia.
  - destruct (Hds doc ltac:(left)) as [Hdoc Hcat].
    cbn [for_each]. rewrite (classify_step_spec docs genres doc mp c i Hg Hdoc Hcat).
    simpl. rewrite IH by (intros d Hd; apply Hds; by right).
    rewrite <- app_assoc. simpl.
    change (list_fmap string pair (best_pair G genres) ds) with (best_pair G genres <$> ds).
    rewrite !(filter_cons _ (best_pair G genres doc)), !filter_nil.
    do 2 f_equal; [f_equal|]; repeat case_decide; simpl; lia.
Qed.

Lemma insert_by_id_perm (x : pair) (xs : list pair) : insert_by_id x xs ≡ₚ x :: xs.
Proof.
  induction xs as [|y xs IH]; simpl; [done|].
  destruct (String.ltb y.1.1 x.1.1); [|done].
  rewrite IH. apply Permutation_swap.
Qed.

Lemma sorted_by_id_perm (xs : list pair) : sorted_by_id xs ≡ₚ xs.
Proof.
  unfold sorted_by_id. induction xs as [|x xs IH]; simpl; [done|].
  by rewrite insert_by_id_perm, IH.
Qed.

Lemma list_comp_total {A B : Type} (f : A → result B) (xs : list A) :
  (∀ x, x ∈ xs → ∃ y, f x = Ok y) → ∃ ys, list_comp f xs = Ok ys.
Proof.
  induction xs as [|x xs IH]; intros Hf; simpl; [by eexists|].
  destruct (Hf x ltac:(left)) as [y ->]. simpl.
  destruct IH as [ys ->]; [intros z Hz; apply Hf; by right|]. simpl. by eexists.
Qed.

Lemma distance_value (doc genre : string) :
  (∃ c, distance G doc genre = Ok c) →
  distance G doc genre = Ok (value (distance G doc genre)).
Proof. intros [c Hc]. by rewrite Hc. Qed.

(** When the call meets no exception, its report is determined by
    [best_pair]. *)
Lemma pairwise_distance_spec (docs genres : list string) :
  runs G docs genres →
  ∃ rep, pairwise_distance G docs genres = Ok rep ∧
         min_pairs rep = best_pair G genres <$> docs ∧
         correct rep = length (filter (predicted_correctly G) (min_pairs rep)) ∧
         incorrect rep = length (filter (λ p, ¬ predicted_correctly G p) (min_pairs rep)) ∧
         percentage rep = (INR (correct rep) / INR (length (test_documents G)) * 100)%R.
Proof.
  intros [Hd Hg Hcat Htest].
  assert (INR (length (test_documents G)) ≠ 0%R) as HT
    by (apply not_0_INR; by destruct (test_documents G)).
  unfold pairwise_distance.
  rewrite all_pairs_rows by (intros; apply distance_value; auto). simpl.
  destruct (decide (docs = [])) as [->|Hdocs].
  { simpl. rewrite truediv_Ok by done. simpl. eexists. split; [done|]. by simpl. }
  specialize (Hg Hdocs).
  rewrite (classify_loop docs genres docs [] 0 0 Hg) by auto. simpl.
  destruct (list_comp_total
    (λ i : pair, gold ← getitem (categories_of (brown G) i.1.1) 0 ; Ok (i.1.1, i.1.2, i.2, gold))
    (sorted_by_id (best_pair G genres <$> docs))) as [rows ->].
  { intros p Hp. rewrite sorted_by_id_perm in Hp.
    apply list_elem_of_fmap in Hp as (doc & -> & Hdoc).
    rewrite (best_pair_doc genres doc Hg).
    specialize (Hcat doc Hdoc).
    destruct (categories_of (brown G) doc) as [|gold cats]; [done|]. by eexists. }
  simpl. rewrite truediv_Ok by done.
  simpl. eexists. split; [done|]. simpl. done.
Qed.

Lemma classifiable_runs (docs genres : list string) :
  classifiable G D docs genres → runs G docs genres.
Proof.
  intros [Hg Hdv Hgv Hcat Htest]. split; [|done..].
  intros doc genre Hdoc Hgenre. eexists. apply distance_Ok; auto.
Qed.

Lemma for_each_Ok_inv {A S : Type} (body : S → A → result S) (xs : list A) (acc acc' : S) :
  for_each body xs acc = Ok acc' → ∀ x, x ∈ xs → ∃ a a', body a x = Ok a'.
Proof.
  revert acc. induction xs as [|y xs IH]; intros acc Hrun x Hx.
  - by apply elem_of_nil in Hx.
  - simpl in Hrun. destruct (body acc y) as [acc1|e] eqn:Hy; [|done].
    apply elem_of_cons in Hx as [->|Hx]; [by eauto|]. by eapply IH.
Qed.

(** A call that returns met no exception. *)
Lemma pairwise_distance_runs (docs genres : list string) (rep : report) :
  pairwise_distance G docs genres = Ok rep → runs G docs genres.
Proof.
  unfold pairwise_distance.
  destruct (all_pairs G docs genres) as [pp|] eqn:Hpp; [|done]. simpl.
  destruct (for_each (classify_step G pp) docs ([], 0, 0)) as [[[mp c] i]|] eqn:Hloop;
    [|done]. simpl.
  destruct (list_comp _ (sorted_by_id mp)) as [rows|]; [|done]. simpl.
  unfold truediv. destruct (Req_dec_T (INR (length (test_documents G))) 0) as [|HT]; [done|].
  intros _.
  assert (∀ doc genre, doc ∈ docs → genre ∈ genres → ∃ c, distance G doc genre = Ok c)
    as Hdist.
  { intros doc genre Hdoc Hgenre. unfold all_pairs in Hpp.
    destruct (for_each_Ok_inv _ _ _ _ Hpp doc Hdoc) as (a & a' & Hinner).
    destruct (for_each_Ok_inv _ _ _ _ Hinner genre Hgenre) as (b & b' & Hbody).
    destruct (distance G doc genre) as [dist|]; [by eexists | done]. }
  rewrite all_pairs_rows in Hpp by (intros; apply distance_value; auto).
  injection Hpp as <-.
  assert (∀ doc, doc ∈ docs →
            filter (λ p : pair, p.1.1 = doc) (concat (row G genres <$> docs)) ≠ [] ∧
            categories_of (brown G) doc ≠ []) as Hstep.
  { intros doc Hdoc.
    destruct (for_each_Ok_inv _ _ _ _ Hloop doc Hdoc) as ([[mp0 c0] i0] & st' & Hbody).
    unfold classify_step in Hbody.
    destruct (filter _ _) as [|p ps]; [done|]. split; [done|].
    simpl in Hbody. by destruct (categories_of (brown G) doc). }
  split; [done| |by apply Hstep|].
  - intros Hdocs ->. destruct docs as [|doc docs']; [done|].
    destruct (Hstep doc ltac:(left)) as [Hrel _]. apply Hrel.
    assert (concat (row G [] <$> doc :: docs') = []) as ->; [|done].
    clear. induction (doc :: docs') as [|d ds IH]; [done|].
    by rewrite fmap_cons, concat_cons, IH.
  - intros Hnil. apply HT. by rewrite Hnil.
Qed.

Lemma dot_scale (ka kb : R) (a b : list R) :
  ka ≠ 0%R → kb ≠ 0%R →
  dot ((λ x, x / ka)%R <$> a) ((λ x, x / kb)%R <$> b) = (dot a b / (ka * kb))%R.
Proof.
  intros Ha Hb. revert b. induction a as [|x a IH]; intros [|y b].
  1-3: cbn [fmap list_fmap dot]; by field.
  rewrite !fmap_cons. cbn [dot]. rewrite IH. by field.
Qed.

(** The distance of the normalised vectors is the cosine distance of the
    vectors themselves. *)
Lemma distance_eval (doc genre : string) (dv gv : list R) :
  context_vector_document G !! doc = Some dv →
  context_vector_genre G !! genre = Some gv →
  length dv = length gv → euclid dv ≠ 0%R → euclid gv ≠ 0%R →
  distance G doc genre = Ok (1 - dot dv gv / (euclid dv * euclid gv))%R.
Proof.
  intros Hdv Hgv Hlen Hd Hg. unfold distance.
  rewrite (dict_get_Ok _ _ _ Hdv). simpl. rewrite (normalize_Ok dv Hd). simpl.
  rewrite (dict_get_Ok _ _ _ Hgv). simpl. rewrite (normalize_Ok gv Hg). simpl.
  rewrite cosine_dist_Ok.
  - rewrite !euclid_normalized, dot_scale by done. f_equal. by field.
  - rewrite !length_fmap. lia.
  - rewrite euclid_normalized by done. lra.
  - rewrite euclid_normalized by done. lra.
Qed.




(** C10 (as the code behaves): the call returns on classifiable inputs; and
    whenever it returns, the reported percentage is the number of correctly
    classified documents of [docs] divided by the length of the global
    [test_documents], times 100; it equals the accuracy over [docs] only
    when the two lengths agree or no document is classified correctly (and
    in both cases it does). *)
Theorem reported_accuracy (docs genres : list string) :
  (classifiable G D docs genres → ∃ rep, pairwise_distance G docs genres = Ok rep) ∧
  ∀ rep, pairwise_distance G docs genres = Ok rep →
    length (min_pairs rep) = length docs ∧
    correct rep = length (filter (predicted_correctly G) (min_pairs rep)) ∧
    percentage rep = (INR (correct rep) / INR (length (test_documents G)) * 100)%R ∧
    (percentage rep = (INR (correct rep) / INR (length docs) * 100)%R ↔
     length docs = length (test_documents G) ∨ correct rep = 0).
Proof.
  split.
  { intros Hc.
    destruct (pairwise_distance_spec docs genres (classifiable_runs docs genres Hc))
      as (rep & Hrun & _). by exists rep. }
  intros rep Hrep. pose proof (pairwise_distance_runs docs genres rep Hrep) as Hruns.
  destruct (pairwise_distance_spec docs genres Hruns)
    as (rep' & Hrun & Hmp & Hcor & _ & Hpct).
  rewrite Hrep in Hrun. injection Hrun as <-.
  destruct Hruns as [_ _ _ Htest].
  assert (length (min_pairs rep) = length docs) as Hlen by (by rewrite Hmp, length_fmap).
  split; [done|]. split; [done|]. split; [done|].
  rewrite Hpct.
  assert (0 < INR (length (test_documents G)))%R as HT
    by (apply lt_0_INR; destruct (test_documents G); simpl; [done|lia]).
  split.
  - intros Heq.
    destruct (decide (correct rep = 0)) as [?|Hne]; [by right|]. left.
    assert (correct rep ≤ length docs) as Hle
      by (rewrite Hcor, <- Hlen; apply length_filter).
    assert (0 < INR (correct rep))%R as HC by (apply lt_0_INR; lia).
    assert (0 < INR (length docs))%R as HL by (apply lt_0_INR; lia).
    apply INR_eq.
    assert (INR (correct rep) * INR (length docs)
            = INR (correct rep) * INR (length (test_documents G)))%R as Hmul.
    { apply (Rmult_eq_reg_r (100 / (INR (length docs) * INR (length (test_documents G))))%R).
      - transitivity (INR (correct rep) / INR (length (test_documents G)) * 100)%R;
          [field; lra|].
        rewrite Heq. field; lra.
      - apply Rgt_not_eq. apply Rdiv_lt_0_compat; [lra|]. by apply Rmult_lt_0_compat. }
    apply (Rmult_eq_reg_l (INR (correct rep))); [done | lra].
  - intros [->| ->]; [done|]. simpl. unfold Rdiv. by rewrite !Rmult_0_l.
Qed.
End Classifier.

(** ** The classifier on the toy data *)

Lemma toy_distance_X : distance toy_globals "d1" "X" = Ok 0%R.
Proof.
  rewrite (distance_eval toy_globals "d1" "X" [1; 0]%R [1; 0]%R);
    [| reflexivity | reflexivity | reflexivity | rewrite euclid_1_0; lra..].
  rewrite euclid_1_0. simpl. f_equal. field.
Qed.

Lemma toy_distance_Y : distance toy_globals "d1" "Y" = Ok 1%R.
Proof.
  rewrite (distance_eval toy_globals "d1" "Y" [1; 0]%R [0; 1]%R);
    [| reflexivity | reflexivity | reflexivity
     | rewrite euclid_1_0; lra | rewrite euclid_0_1; lra].
  rewrite euclid_1_0, euclid_0_1. simpl. f_equal. field.
Qed.

Lemma toy_classifiable : classifiable toy_globals 2 ["d1"] ["X"; "Y"].
Proof.
  split.
  - discriminate.
  - intros doc Hdoc. apply list_elem_of_singleton in Hdoc as ->.
    exists [1; 0]%R, (euclid [1; 0]%R).
    split; [reflexivity|]. split; [reflexivity|].
    split; [apply vector_length_euclid | rewrite euclid_1_0; lra].
  - intros genre Hgenre.
    apply elem_of_cons in Hgenre as [->|Hgenre];
      [|apply list_elem_of_singleton in Hgenre as ->].
    + exists [1; 0]%R, (euclid [1; 0]%R).
      split; [reflexivity|]. split; [reflexivity|].
      split; [apply vector_length_euclid | rewrite euclid_1_0; lra].
    + exists [0; 1]%R, (euclid [0; 1]%R).
      split; [reflexivity|]. split; [reflexivity|].
      split; [apply vector_length_euclid | rewrite euclid_0_1; lra].
  - intros doc _. discriminate.
  - discriminate.
Qed.

Lemma toy_best_pair : best_pair toy_globals ["X"; "Y"] "d1" = ("d1", "X", 0%R).
Proof.
  unfold best_pair, row. simpl. rewrite toy_distance_X, toy_distance_Y. simpl.
  destruct (Rlt_dec 1 0); [lra | done].
Qed.



Lemma reported_accuracy_witness :
  ∃ rep, pairwise_distance toy_globals ["d1"] ["X"; "Y"] = Ok rep ∧
         length (min_pairs rep) = length ["d1"] ∧
         correct rep = length (filter (predicted_correctly toy_globals) (min_pairs rep)) ∧
         percentage rep
           = (INR (correct rep) / INR (length (test_documents toy_globals)) * 100)%R ∧
         (percentage rep = (INR (correct rep) / INR (length ["d1"]) * 100)%R ↔
          length ["d1"] = length (test_documents toy_globals) ∨ correct rep = 0).
Proof.
  destruct (reported_accuracy toy_globals 2 ["d1"] ["X"; "Y"]) as [Hreturns Hresult].
  destruct (Hreturns toy_classifiable) as [rep Hrep].
  exists rep. split; [exact Hrep | exact (Hresult rep Hrep)].
Defined.

(** One document, classified as X although its category is Y, and a global
    test set of two documents: the reported percentage is 0, which is also
    the accuracy over the one document, although the lengths differ. *)
Lemma accuracy_equal_with_different_lengths :
  ∃ rep, pairwise_distance toy_globals ["d1"] ["X"; "Y"] = Ok rep ∧
         min_pairs rep = [("d1", "X", 0%R)] ∧
         correct rep = 0 ∧
         percentage rep = (INR (correct rep) / INR (length ["d1"]) * 100)%R ∧
         length ["d1"] ≠ length (test_documents toy_globals).
Proof.
  destruct (pairwise_distance_spec toy_globals ["d1"] ["X"; "Y"]
              (classifiable_runs toy_globals 2 _ _ toy_classifiable))
    as (rep & Hrun & Hmp & Hcor & _ & Hpct).
  simpl in Hmp. rewrite toy_best_pair in Hmp.
  assert (correct rep = 0) as Hzero.
  { rewrite Hcor, Hmp. rewrite filter_cons, filter_nil.
    rewrite decide_False; [done|]. unfold predicted_correctly. simpl. discriminate. }
  exists rep. split; [done|]. split; [done|]. split; [done|]. split.
  - rewrite Hpct, Hzero. simpl. unfold Rdiv. by rewrite !Rmult_0_l.
  - simpl. lia.
Qed.

(** ** Rounding in the cosine distance *)

(** In binary64 [sqrt 3 * sqrt 3] is just below 3, so the distance of the
    vector [1, 1, 1] to itself is one unit in the last place below 0; and
    a first vector shorter than the second gives no value at all.  (The
    squares of 1.0 are fixed by CPython, whatever the C library is.) *)
Lemma cosine_dist_outside_range :
  Binary64.vector_length rounded_square [1; 1; 1]%float = Ok 0x1.bb67ae8584caap+0%float ∧
  Binary64.cosine_dist rounded_square [1; 1; 1]%float [1; 1; 1]%float
    = Ok (-0x1p-52)%float ∧
  PrimFloat.ltb (-0x1p-52)%float 0 = true ∧
  cosine_dist [1; 1]%R [1; 1; 1]%R = Raise IndexError.
Proof.
  split; [vm_compute; reflexivity|]. split; [vm_compute; reflexivity|].
  split; [vm_compute; reflexivity|].
  apply cosine_dist_short. simpl. lia.
Qed.

(** Multiplication of binary64 floats is commutative. *)
Lemma float_mul_comm (x y : float) : PrimFloat.mul x y = PrimFloat.mul y x.
Proof.
  apply Prim2SF_inj. rewrite !mul_spec. unfold SF64mul, SFmul.
  destruct (Prim2SF x) as [sx|sx| |sx mx ex], (Prim2SF y) as [sy|sy| |sy my ey];
    try reflexivity; rewrite (xorb_comm sx sy); try reflexivity.
  by rewrite (Pos.mul_comm mx my), (Z.add_comm ex ey).
Qed.

Lemma cosine_loop_binary64_comm (n : nat) (a b : list float) (i : nat) (total : float) :
  Binary64.cosine_loop n a b i total = Binary64.cosine_loop n b a i total.
Proof.
  revert i total. induction n as [|n IH]; intros i total; simpl; [done|].
  unfold getitem. destruct (a !! i) as [ai|], (b !! i) as [bi|]; simpl; try done.
  by rewrite (float_mul_comm ai bi).
Qed.

(** * Further properties of the code *)

(** ** The vector mathematics as Python computes it: which exceptions *)

Lemma SFltb_binary_round_aux_false (prec emax m e : Z) (l : location) :
  SFltb (binary_round_aux prec emax false m e l) (S754_zero false) = false.
Proof.
  unfold binary_round_aux.
  destruct (shr_fexp prec emax m e l) as [mrs' e'].
  destruct (shr_fexp prec emax _ e' loc_Exact) as [mrs'' e''].
  destruct (shr_m mrs''); [reflexivity| |reflexivity].
  destruct (Z.leb e'' (Z.sub emax prec)); reflexivity.
Qed.

(** The sum of two floats that are not below 0 is not below 0. *)
Lemma float_add_nonneg (x y : float) :
  PrimFloat.ltb x 0 = false → PrimFloat.ltb y 0 = false →
  PrimFloat.ltb (PrimFloat.add x y) 0 = false.
Proof.
  rewrite !ltb_spec, add_spec. change (Prim2SF 0) with (S754_zero false).
  unfold SF64add, SFadd.
  destruct (Prim2SF x) as [sx|sx| |sx mx ex], (Prim2SF y) as [sy|sy| |sy my ey];
    try destruct sx; try destruct sy; try reflexivity; try discriminate; intros _ _.
  simpl cond_Zopp. cbv beta zeta. unfold binary_normalize.
  match goal with
  | |- context [Z.add (Zpos ?p) (Zpos ?q)] =>
      change (Z.add (Zpos p) (Zpos q)) with (Zpos (p + q))
  end.
  unfold binary_round. destruct (shl_align _ _ _) as [mz ez].
  apply SFltb_binary_round_aux_false.
Qed.

(** The rounded product of a float with itself is not below 0. *)
Lemma rounded_square_nonneg (x : float) : PrimFloat.ltb (rounded_square x) 0 = false.
Proof.
  unfold rounded_square. rewrite ltb_spec, mul_spec.
  change (Prim2SF 0) with (S754_zero false). unfold SF64mul, SFmul.
  destruct (Prim2SF x) as [sx|sx| |sx mx ex]; try destruct sx; try reflexivity;
    simpl xorb; apply SFltb_binary_round_aux_false.
Qed.

(** A NaN is below nothing. *)
Lemma is_nan_ltb (x y : float) : PrimFloat.is_nan x = true → PrimFloat.ltb x y = false.
Proof.
  unfold PrimFloat.is_nan. rewrite FloatAxioms.eqb_spec, ltb_spec.
  destruct (Prim2SF x) as [sx|sx| |sx mx ex]; [by destruct sx..|done|].
  unfold SFeqb, SFcompare.
  destruct sx; rewrite Z.compare_refl, Pos.compare_cont_refl; done.
Qed.

(** The floats equal to 0 are [0.0] and [-0.0]. *)
Lemma float_zero_cases (x : float) :
  PrimFloat.eqb x 0 = true → x = 0%float ∨ x = (-0)%float.
Proof.
  rewrite FloatAxioms.eqb_spec. change (Prim2SF 0) with (S754_zero false). intros Heq.
  destruct (Prim2SF x) as [sx|sx| |sx mx ex] eqn:Hx;
    [|by destruct sx|done|by destruct sx].
  rewrite <- (SF2Prim_Prim2SF x), Hx. destruct sx; [right | left]; reflexivity.
Qed.

Lemma list_comp_raise_inv {A B : Type} (f : A → result B) (xs : list A) (e : exn) :
  list_comp f xs = Raise e → ∃ x, x ∈ xs ∧ f x = Raise e.
Proof.
  induction xs as [|x xs IH]; simpl; [done|].
  destruct (f x) as [y|e'] eqn:Hfx; simpl.
  - destruct (list_comp f xs) as [ys|e']; simpl; [done|].
    intros [= <-]. destruct IH as (x0 & Hx0 & Hraise); [done|].
    exists x0. split; [by right | done].
  - intros [= <-]. exists x. split; [by left | done].
Qed.

Lemma list_comp_Ok_inv {A B : Type} (f : A → result B) (xs : list A) (ys : list B) :
  list_comp f xs = Ok ys → Forall2 (λ x y, f x = Ok y) xs ys.
Proof.
  revert ys. induction xs as [|x xs IH]; intros ys; simpl.
  - intros [= <-]. constructor.
  - destruct (f x) as [y|e] eqn:Hfx; simpl; [|done].
    destruct (list_comp f xs) as [ys'|e]; simpl; [|done].
    intros [= <-]. constructor; [done | by apply IH].
Qed.

Section Binary64Errors.
Variable libm_pow2 : float → float.

Lemma float_pow2_raise (x : float) (e : exn) :
  Binary64.float_pow2 libm_pow2 x = Raise e → e = OverflowError.
Proof. unfold Binary64.float_pow2. repeat case_match; congruence. Qed.

Lemma float_pow2_zero (x : float) :
  PrimFloat.eqb x 0 = true → Binary64.float_pow2 libm_pow2 x = Ok 0%float.
Proof. intros Hx. by destruct (float_zero_cases x Hx) as [-> | ->]. Qed.

Lemma float_pow2_nonneg (x s : float) :
  (∀ y, PrimFloat.ltb (libm_pow2 y) 0 = false) →
  Binary64.float_pow2 libm_pow2 x = Ok s → PrimFloat.ltb s 0 = false.
Proof.
  intros Hlibm. unfold Binary64.float_pow2.
  destruct (PrimFloat.is_nan x) eqn:Hnan; [intros [= <-]; by apply is_nan_ltb|].
  destruct (PrimFloat.is_infinity x); [by intros [= <-]|].
  destruct (PrimFloat.eqb x 0); [by intros [= <-]|].
  destruct (PrimFloat.eqb (PrimFloat.abs x) 1); [by intros [= <-]|].
  cbv zeta. destruct (PrimFloat.is_infinity _); [done|]. intros [= <-]. apply Hlibm.
Qed.

Lemma py_sum_nonneg (xs : list float) :
  Forall (λ s, PrimFloat.ltb s 0 = false) xs →
  PrimFloat.ltb (Binary64.py_sum xs) 0 = false.
Proof.
  unfold Binary64.py_sum.
  assert (∀ acc, PrimFloat.ltb acc 0 = false →
            Forall (λ s, PrimFloat.ltb s 0 = false) xs →
            PrimFloat.ltb (foldl PrimFloat.add acc xs) 0 = false) as Hfold; [|by apply Hfold].
  induction xs as [|x xs IH]; intros acc Hacc Hall; simpl; [done|].
  apply Forall_cons in Hall as [Hx Hall]. apply IH; [by apply float_add_nonneg | done].
Qed.

Lemma vector_length_binary64_cases (v : list float) :
  (∀ y, PrimFloat.ltb (libm_pow2 y) 0 = false) →
  (∀ e, Binary64.vector_length libm_pow2 v = Raise e →
        e = OverflowError ∧
        ∃ x, x ∈ v ∧ Binary64.float_pow2 libm_pow2 x = Raise OverflowError) ∧
  ((∃ x, x ∈ v ∧ Binary64.float_pow2 libm_pow2 x = Raise OverflowError) →
   Binary64.vector_length libm_pow2 v = Raise OverflowError) ∧
  ((∀ x, x ∈ v → ∃ s, Binary64.float_pow2 libm_pow2 x = Ok s) →
   ∃ len, Binary64.vector_length libm_pow2 v = Ok len).
Proof.
  intros Hlibm.
  assert (∀ squares, list_comp (Binary64.float_pow2 libm_pow2) v = Ok squares →
            Binary64.math_sqrt (Binary64.py_sum squares)
            = Ok (PrimFloat.sqrt (Binary64.py_sum squares))) as Hsqrt.
  { intros squares Hsq. unfold Binary64.math_sqrt. rewrite py_sum_nonneg; [done|].
    apply list_comp_Ok_inv in Hsq.
    eapply Forall2_Forall_r; [exact Hsq|]. apply Forall_forall.
    intros x _ s Hs. by apply (float_pow2_nonneg x). }
  unfold Binary64.vector_length. split; [|split].
  - intros e Hrun.
    destruct (list_comp (Binary64.float_pow2 libm_pow2) v) as [squares|e'] eqn:Hsq;
      simpl in Hrun.
    + by rewrite (Hsqrt squares) in Hrun.
    + injection Hrun as <-. destruct (list_comp_raise_inv _ _ _ Hsq) as (x & Hx & Hraise).
      pose proof (float_pow2_raise x e' Hraise) as ->. split; [done|]. by exists x.
  - intros (x & Hx & Hraise).
    destruct (list_comp (Binary64.float_pow2 libm_pow2) v) as [squares|e'] eqn:Hsq; simpl.
    + apply list_comp_Ok_inv in Hsq. exfalso.
      apply list_elem_of_lookup in Hx as [k Hk].
      destruct (Forall2_lookup_l _ _ _ _ _ Hsq Hk) as (s & _ & Hs). congruence.
    + destruct (list_comp_raise_inv _ _ _ Hsq) as (x' & _ & Hraise').
      by rewrite (float_pow2_raise x' e' Hraise').
  - intros Hall. destruct (list_comp_total _ v Hall) as [squares Hsq].
    rewrite Hsq. simpl. rewrite (Hsqrt squares Hsq). by eexists.
Qed.

(** X1: [vector_length] in binary64, for a C library whose squares are
    never below 0.  The only exception is the [OverflowError] of [x ** 2],
    raised exactly when the square of an entry overflows: [math.sqrt] never
    gets a negative argument.  When every square is computed the length is
    returned.  (It can still be infinite, when the sum overflows, and 0.0
    for a vector with non-zero entries, when the squares underflow.) *)
Theorem vector_length_binary64_errors (v : list float) :
  (∀ y, PrimFloat.ltb (libm_pow2 y) 0 = false) →
  (∀ e, Binary64.vector_length libm_pow2 v = Raise e →
        e = OverflowError ∧
        ∃ x, x ∈ v ∧ Binary64.float_pow2 libm_pow2 x = Raise OverflowError) ∧
  ((∃ x, x ∈ v ∧ Binary64.float_pow2 libm_pow2 x = Raise OverflowError) →
   Binary64.vector_length libm_pow2 v = Raise OverflowError) ∧
  ((∀ x, x ∈ v → ∃ s, Binary64.float_pow2 libm_pow2 x = Ok s) →
   ∃ len, Binary64.vector_length libm_pow2 v = Ok len).
Proof. apply vector_length_binary64_cases. Qed.

Lemma normalize_loop_binary64 (a xs : list float) :
  list_comp (λ x, len ← Binary64.vector_length libm_pow2 a ; Binary64.truediv x len) xs
  = match xs with
    | [] => Ok []
    | _ =>
        len ← Binary64.vector_length libm_pow2 a ;
        if PrimFloat.eqb len 0 then Raise ZeroDivisionError
        else Ok ((λ x, PrimFloat.div x len) <$> xs)
    end.
Proof.
  induction xs as [|x xs IH]; [done|]. cbn [list_comp]. rewrite IH.
  destruct (Binary64.vector_length libm_pow2 a) as [len|e]; simpl; [|done].
  unfold Binary64.truediv. destruct (PrimFloat.eqb len 0); simpl; [done|].
  by destruct xs.
Qed.

(** X2: [normalize] in binary64.  The empty vector is returned as it is.
    For a non-empty vector the outcome is that of computing
    [vector_length] once: its exception if it raises, [ZeroDivisionError]
    if the length is 0.0 or -0.0, and otherwise every entry divided by the
    length (the code computes the length again for every entry).  A
    non-empty vector whose entries are all 0.0 or -0.0 has length 0.0 and
    raises [ZeroDivisionError]. *)
Theorem normalize_binary64_outcome (v : list float) :
  Binary64.normalize libm_pow2 v
  = match v with
    | [] => Ok []
    | _ =>
        len ← Binary64.vector_length libm_pow2 v ;
        if PrimFloat.eqb len 0 then Raise ZeroDivisionError
        else Ok ((λ x, PrimFloat.div x len) <$> v)
    end
  ∧ (Forall (λ x, PrimFloat.eqb x 0 = true) v →
     Binary64.vector_length libm_pow2 v = Ok 0%float ∧
     (v ≠ [] → Binary64.normalize libm_pow2 v = Raise ZeroDivisionError)).
Proof.
  split; [apply normalize_loop_binary64|]. intros Hzero.
  assert (Binary64.vector_length libm_pow2 v = Ok 0%float) as Hlen.
  { unfold Binary64.vector_length.
    rewrite (list_comp_Ok _ (λ _, 0%float)).
    - simpl. assert (Binary64.py_sum ((λ _ : float, 0%float) <$> v) = 0%float) as ->; [|done].
      unfold Binary64.py_sum. clear. induction v as [|x v IH]; [done|]. exact IH.
    - intros x Hx. rewrite Forall_forall in Hzero. by apply float_pow2_zero, Hzero. }
  split; [done|]. intros Hne. unfold Binary64.normalize.
  rewrite normalize_loop_binary64, Hlen. by destruct v.
Qed.

Lemma cosine_loop_binary64_Ok (n : nat) (a b : list float) (i : nat) (total : float) :
  i + n ≤ length a → i + n ≤ length b →
  ∃ t, Binary64.cosine_loop n a b i total = Ok t.
Proof.
  revert i total. induction n as [|n IH]; intros i total Ha Hb; simpl; [by eexists|].
  destruct (lookup_lt_is_Some_2 a i) as [ai Hai]; [lia|].
  destruct (lookup_lt_is_Some_2 b i) as [bi Hbi]; [lia|].
  rewrite (getitem_Ok _ _ _ Hai), (getitem_Ok _ _ _ Hbi). simpl. apply IH; lia.
Qed.

Lemma cosine_loop_binary64_short (n : nat) (a b : list float) (i : nat) (total : float) :
  length a < length b → i ≤ length a → i + n = length b →
  Binary64.cosine_loop n a b i total = Raise IndexError.
Proof.
  revert i total. induction n as [|n IH]; intros i total Hlen Hia Hi; simpl; [lia|].
  destruct (decide (i < length a)) as [Hlt|Hge].
  - destruct (lookup_lt_is_Some_2 a i) as [ai Hai]; [lia|].
    destruct (lookup_lt_is_Some_2 b i) as [bi Hbi]; [lia|].
    rewrite (getitem_Ok _ _ _ Hai), (getitem_Ok _ _ _ Hbi). simpl.
    apply IH; lia.
  - unfold getitem. rewrite (lookup_ge_None_2 a i) by lia. done.
Qed.

(** X3: the exceptions of [cosine_dist a b] in binary64, for a C library
    whose squares are never below 0.  [IndexError] is raised exactly when
    [a] is shorter than [b], whatever the entries are (the loop runs before
    any length is taken).  Otherwise [OverflowError] is raised exactly when
    the square of an entry of [a] or [b] overflows, and
    [ZeroDivisionError] exactly when both lengths are computed and their
    product is 0.0 or -0.0.  There is no other exception. *)
Theorem cosine_dist_binary64_errors (a b : list float) :
  (∀ y, PrimFloat.ltb (libm_pow2 y) 0 = false) →
  (Binary64.cosine_dist libm_pow2 a b = Raise IndexError ↔ length a < length b) ∧
  (Binary64.cosine_dist libm_pow2 a b = Raise OverflowError ↔
   length b ≤ length a ∧
   ∃ x, x ∈ a ++ b ∧ Binary64.float_pow2 libm_pow2 x = Raise OverflowError) ∧
  (Binary64.cosine_dist libm_pow2 a b = Raise ZeroDivisionError ↔
   length b ≤ length a ∧
   ∃ la lb, Binary64.vector_length libm_pow2 a = Ok la ∧
            Binary64.vector_length libm_pow2 b = Ok lb ∧
            PrimFloat.eqb (PrimFloat.mul la lb) 0 = true) ∧
  (∀ e, Binary64.cosine_dist libm_pow2 a b = Raise e →
        e = IndexError ∨ e = OverflowError ∨ e = ZeroDivisionError).
Proof.
  intros Hlibm.
  assert (∀ v, (∃ len, Binary64.vector_length libm_pow2 v = Ok len ∧
                  ∀ x, x ∈ v → Binary64.float_pow2 libm_pow2 x ≠ Raise OverflowError) ∨
               (Binary64.vector_length libm_pow2 v = Raise OverflowError ∧
                ∃ x, x ∈ v ∧ Binary64.float_pow2 libm_pow2 x = Raise OverflowError)) as Hvl.
  { intros v. destruct (vector_length_binary64_cases v Hlibm) as (Hraise & Hover & _).
    destruct (Binary64.vector_length libm_pow2 v) as [len|e] eqn:Hv.
    - left. exists len. split; [done|]. intros x Hx Hx_over.
      assert (Ok len = Raise OverflowError) as Habsurd by (apply Hover; by exists x).
      discriminate Habsurd.
    - right. destruct (Hraise e eq_refl) as [-> ?]. done. }
  unfold Binary64.cosine_dist.
  destruct (decide (length a < length b)) as [Hshort|Hlong].
  { rewrite cosine_loop_binary64_short by (done || lia). simpl.
    split; [done|]. split; [split; [done | intros [? _]; lia]|].
    split; [split; [done | intros [? _]; lia]|]. intros e [= <-]. by left. }
  destruct (cosine_loop_binary64_Ok (length b) a b 0 0%float) as [total ->]; [lia | lia |].
  simpl.
  destruct (Hvl a) as [(la & -> & Ha)|[-> (x & Hx & Hover)]]; simpl.
  2:{ split; [split; [done | lia]|]. split.
      - split; [intros _; split; [lia|]; exists x; split; [set_solver | done] | done].
      - split; [split; [done | by intros (_ & ? & ? & ? & _)]|]. intros e [= <-]. auto. }
  destruct (Hvl b) as [(lb & -> & Hb)|[-> (x & Hx & Hover)]]; simpl.
  2:{ split; [split; [done | lia]|]. split.
      - split; [intros _; split; [lia|]; exists x; split; [set_solver | done] | done].
      - split; [split; [done | by intros (_ & ? & ? & _ & ? & _)]|]. intros e [= <-]. auto. }
  unfold Binary64.truediv. destruct (PrimFloat.eqb (PrimFloat.mul la lb) 0) eqn:Hzero; simpl.
  - split; [split; [done | lia]|]. split.
    + split; [done|]. intros (_ & x & Hx & Hover).
      apply elem_of_app in Hx as [Hx|Hx]; [by destruct (Ha x Hx) | by destruct (Hb x Hx)].
    + split; [split; [intros _; split; [lia|]; by exists la, lb | done]|].
      intros e [= <-]. auto.
  - split; [split; [done | lia]|]. split.
    + split; [done|]. intros (_ & x & Hx & Hover).
      apply elem_of_app in Hx as [Hx|Hx]; [by destruct (Ha x Hx) | by destruct (Hb x Hx)].
    + split; [|done]. split; [done|].
      intros (_ & la' & lb' & [= <-] & [= <-] & Hz). congruence.
Qed.
End Binary64Errors.

Lemma vector_length_binary64_errors_witness :
  (∀ e, Binary64.vector_length rounded_square [0x1.4e718d7d7625ap+664%float] = Raise e →
        e = OverflowError ∧
        ∃ x, x ∈ [0x1.4e718d7d7625ap+664%float] ∧
             Binary64.float_pow2 rounded_square x = Raise OverflowError) ∧
  ((∃ x, x ∈ [0x1.4e718d7d7625ap+664%float] ∧
         Binary64.float_pow2 rounded_square x = Raise OverflowError) →
   Binary64.vector_length rounded_square [0x1.4e718d7d7625ap+664%float]
   = Raise OverflowError) ∧
  ((∀ x, x ∈ [0x1.4e718d7d7625ap+664%float] →
         ∃ s, Binary64.float_pow2 rounded_square x = Ok s) →
   ∃ len, Binary64.vector_length rounded_square [0x1.4e718d7d7625ap+664%float] = Ok len).
Proof.
  apply (vector_length_binary64_errors rounded_square [0x1.4e718d7d7625ap+664%float]).
  exact rounded_square_nonneg.
Defined.

(** Overflow and underflow of the squares: the length of [1e200] is not
    computed, the length of [1e-200] is 0.0 and its normalisation divides by
    zero. *)
Lemma vector_length_out_of_range :
  Binary64.vector_length rounded_square [0x1.4e718d7d7625ap+664%float] = Raise OverflowError ∧
  Binary64.vector_length rounded_square [0x1.87e92154ef7acp-665%float] = Ok 0%float ∧
  Binary64.normalize rounded_square [0x1.87e92154ef7acp-665%float] = Raise ZeroDivisionError.
Proof. repeat split; vm_compute; reflexivity. Qed.

Lemma cosine_dist_binary64_errors_witness :
  (Binary64.cosine_dist rounded_square [0]%float [0x1.4e718d7d7625ap+664]%float
   = Raise IndexError ↔ length [0%float] < length [0x1.4e718d7d7625ap+664%float]) ∧
  (Binary64.cosine_dist rounded_square [0]%float [0x1.4e718d7d7625ap+664]%float
   = Raise OverflowError ↔
   length [0x1.4e718d7d7625ap+664%float] ≤ length [0%float] ∧
   ∃ x, x ∈ [0%float] ++ [0x1.4e718d7d7625ap+664%float] ∧
        Binary64.float_pow2 rounded_square x = Raise OverflowError) ∧
  (Binary64.cosine_dist rounded_square [0]%float [0x1.4e718d7d7625ap+664]%float
   = Raise ZeroDivisionError ↔
   length [0x1.4e718d7d7625ap+664%float] ≤ length [0%float] ∧
   ∃ la lb, Binary64.vector_length rounded_square [0%float] = Ok la ∧
            Binary64.vector_length rounded_square [0x1.4e718d7d7625ap+664%float] = Ok lb ∧
            PrimFloat.eqb (PrimFloat.mul la lb) 0 = true) ∧
  (∀ e, Binary64.cosine_dist rounded_square [0]%float [0x1.4e718d7d7625ap+664]%float
        = Raise e →
        e = IndexError ∨ e = OverflowError ∨ e = ZeroDivisionError).
Proof.
  apply (cosine_dist_binary64_errors rounded_square [0]%float [0x1.4e718d7d7625ap+664]%float).
  exact rounded_square_nonneg.
Defined.

(** X20: the symmetry of [cosine_dist] does not depend on exact arithmetic
    or on the C library: in binary64, for two vectors of the same
    dimension, whenever one order of the arguments returns a float the other
    order returns the same float, and when one order raises an exception so
    does the other. *)
Theorem cosine_dist_binary64_symmetric (libm_pow2 : float → float) (a b : list float) :
  length a = length b →
  (∀ c, Binary64.cosine_dist libm_pow2 a b = Ok c →
        Binary64.cosine_dist libm_pow2 b a = Ok c) ∧
  (∀ e, Binary64.cosine_dist libm_pow2 a b = Raise e →
        ∃ e', Binary64.cosine_dist libm_pow2 b a = Raise e').
Proof.
  intros Hlen. unfold Binary64.cosine_dist.
  rewrite Hlen, (cosine_loop_binary64_comm (length b) a b).
  destruct (Binary64.cosine_loop (length b) b a 0 0) as [total|e0]; simpl;
    [|split; [done | by eexists]].
  destruct (Binary64.vector_length libm_pow2 a) as [la|ea],
           (Binary64.vector_length libm_pow2 b) as [lb|eb]; simpl;
    try (split; [done | by eexists]).
  rewrite (float_mul_comm lb la).
  destruct (Binary64.truediv total (PrimFloat.mul la lb)); simpl;
    (split; [done | by eexists]).
Qed.

Lemma cosine_dist_binary64_symmetric_witness :
  Binary64.cosine_dist rounded_square [1; 2; 3]%float [0.5; 4; 7]%float
  = Ok 0x1.888e5b2b1052p-6%float ∧
  Binary64.cosine_dist rounded_square [0.5; 4; 7]%float [1; 2; 3]%float
  = Ok 0x1.888e5b2b1052p-6%float.
Proof.
  split; [vm_compute; reflexivity|].
  apply (cosine_dist_binary64_symmetric rounded_square [1; 2; 3]%float [0.5; 4; 7]%float);
    [reflexivity | vm_compute; reflexivity].
Defined.

(** ** The classifier as Python computes it *)

Lemma SFcompare_finite (s1 : bool) (m1 : positive) (e1 : Z) (s2 : bool) (m2 : positive)
    (e2 : Z) :
  SFcompare (S754_finite s1 m1 e1) (S754_finite s2 m2 e2)
  = Some match s1, s2 with
         | true, false => Lt
         | false, true => Gt
         | false, false =>
             match Z.compare e1 e2 with
             | Lt => Lt
             | Gt => Gt
             | Eq => Pos.compare m1 m2
             end
         | true, true =>
             match Z.compare e1 e2 with
             | Lt => Gt
             | Gt => Lt
             | Eq => CompOpp (Pos.compare m1 m2)
             end
         end.
Proof. reflexivity. Qed.

Ltac compare_cases :=
  repeat match goal with
  | H : context [Z.compare ?a ?b] |- _ => destruct (Z.compare_spec a b)
  | |- context [Z.compare ?a ?b] => destruct (Z.compare_spec a b)
  | H : context [Pos.compare ?a ?b] |- _ => destruct (Pos.compare_spec a b)
  | |- context [Pos.compare ?a ?b] => destruct (Pos.compare_spec a b)
  end.

Ltac spec_float_order :=
  match goal with
  | x : spec_float, y : spec_float, z : spec_float |- _ =>
      destruct x as [[]|[]| |[] ? ?], y as [[]|[]| |[] ? ?], z as [[]|[]| |[] ? ?];
      rewrite ?SFcompare_finite; simpl; try discriminate; try reflexivity;
      intros; compare_cases; simpl in *; try discriminate; try reflexivity;
      subst; try lia
  end.

Lemma SFltb_trans (x y z : spec_float) :
  SFltb x y = true → SFltb y z = true → SFltb x z = true.
Proof. unfold SFltb. spec_float_order. Qed.

Lemma SFleb_ltb_trans (x y z : spec_float) :
  SFleb x y = true → SFltb y z = true → SFltb x z = true.
Proof. unfold SFltb, SFleb. spec_float_order. Qed.

Lemma SFltb_leb_trans (x y z : spec_float) :
  SFltb x y = true → SFleb y z = true → SFltb x z = true.
Proof. unfold SFltb, SFleb. spec_float_order. Qed.

(** The comparison [<] of floats is irreflexive and transitive, also
    together with [<=]; a NaN is in no relation to any float. *)
Lemma float_ltb_irrefl (x : float) : PrimFloat.ltb x x = false.
Proof.
  rewrite ltb_spec. unfold SFltb.
  destruct (Prim2SF x) as [[]|[]| |[] m e]; rewrite ?SFcompare_finite; simpl;
    try reflexivity; by rewrite Z.compare_refl, Pos.compare_refl.
Qed.

Lemma float_ltb_trans (x y z : float) :
  PrimFloat.ltb x y = true → PrimFloat.ltb y z = true → PrimFloat.ltb x z = true.
Proof. rewrite !ltb_spec. apply SFltb_trans. Qed.

Lemma float_leb_ltb_trans (x y z : float) :
  PrimFloat.leb x y = true → PrimFloat.ltb y z = true → PrimFloat.ltb x z = true.
Proof. rewrite !ltb_spec, leb_spec. apply SFleb_ltb_trans. Qed.

Lemma float_ltb_leb_trans (x y z : float) :
  PrimFloat.ltb x y = true → PrimFloat.leb y z = true → PrimFloat.ltb x z = true.
Proof. rewrite !ltb_spec, leb_spec. apply SFltb_leb_trans. Qed.

Section FloatMin.
Context {A : Type}.
Variable key : A → float.

(** [min] on float keys returns the first element that no element is
    below; no earlier element is below or equal to it. *)
Lemma float_min_from_first (best : A) (rest : list A) :
  ∃ i, (best :: rest) !! i = Some (Binary64.min_from key best rest) ∧
       (∀ y, y ∈ best :: rest →
          PrimFloat.ltb (key y) (key (Binary64.min_from key best rest)) = false) ∧
       (∀ j y, j < i → (best :: rest) !! j = Some y →
          PrimFloat.leb (key y) (key (Binary64.min_from key best rest)) = false) ∧
       (0 < i → PrimFloat.ltb (key (Binary64.min_from key best rest)) (key best) = true).
Proof.
  revert best. induction rest as [|x rest IH]; intros best; simpl.
  - exists 0. split; [done|]. split; [|split; intros; lia].
    intros y Hy. apply list_elem_of_singleton in Hy as ->. apply float_ltb_irrefl.
  - destruct (PrimFloat.ltb (key x) (key best)) eqn:Hlt.
    + destruct (IH x) as (i & Hi & Hall & Hfirst & Hbelow).
      set (r := Binary64.min_from key x rest) in *.
      pose proof (Hall x ltac:(left)) as Hx.
      exists (S i). split; [done|]. split; [|split].
      * intros y Hy. apply elem_of_cons in Hy as [->|Hy]; [|by apply Hall].
        destruct (PrimFloat.ltb (key best) (key r)) eqn:Hbr; [|done].
        by rewrite (float_ltb_trans _ _ _ Hlt Hbr) in Hx.
      * intros [|j] y Hj Hy; simpl in Hy; [|apply (Hfirst j); [lia | done]].
        injection Hy as <-.
        destruct (PrimFloat.leb (key best) (key r)) eqn:Hbr; [|done].
        by rewrite (float_ltb_leb_trans _ _ _ Hlt Hbr) in Hx.
      * intros _. destruct i as [|i];
          [simpl in Hi; injection Hi as Hr; by rewrite <- Hr|].
        apply (float_ltb_trans _ (key x)); [apply Hbelow; lia | done].
    + destruct (IH best) as (i & Hi & Hall & Hfirst & Hbelow).
      set (r := Binary64.min_from key best rest) in *.
      destruct i as [|i].
      * exists 0. simpl in Hi. injection Hi as Hr. split; [by rewrite Hr|].
        split; [|split; intros; lia].
        intros y Hy. apply elem_of_cons in Hy as [->|Hy]; [by apply Hall; left|].
        apply elem_of_cons in Hy as [->|Hy]; [by rewrite <- Hr | by apply Hall; right].
      * pose proof (Hbelow ltac:(lia)) as Hrb.
        exists (S (S i)). split; [done|]. split; [|split; [|done]].
        -- intros y Hy. apply elem_of_cons in Hy as [->|Hy]; [by apply Hall; left|].
           apply elem_of_cons in Hy as [->|Hy]; [|by apply Hall; right].
           destruct (PrimFloat.ltb (key x) (key r)) eqn:Hyr; [|done].
           by rewrite (float_ltb_trans _ _ _ Hyr Hrb) in Hlt.
        -- intros [|[|j]] y Hj Hy; simpl in Hy.
           ++ apply (Hfirst 0); [lia | done].
           ++ injection Hy as <-.
              destruct (PrimFloat.leb (key x) (key r)) eqn:Hyr; [|done].
              by rewrite (float_leb_ltb_trans _ _ _ Hyr Hrb) in Hlt.
           ++ apply (Hfirst (S j)); [lia | done].
Qed.

Lemma float_min_from_app (best : A) (l1 l2 : list A) :
  Binary64.min_from key best (l1 ++ l2)
  = Binary64.min_from key (Binary64.min_from key best l1) l2.
Proof.
  revert best. induction l1 as [|x l1 IH]; intros best; simpl; [done|].
  by destruct (PrimFloat.ltb (key x) (key best)).
Qed.

Lemma float_min_from_stay (best : A) (rest : list A) :
  (∀ y, y ∈ rest → PrimFloat.ltb (key y) (key best) = false) →
  Binary64.min_from key best rest = best.
Proof.
  induction rest as [|x rest IH]; intros Hall; simpl; [done|].
  rewrite (Hall x) by (by left). apply IH. intros y Hy. apply Hall. by right.
Qed.

Lemma float_min_from_repeats (best : A) (rest more : list A) :
  (∀ y, y ∈ more → y ∈ best :: rest) →
  Binary64.min_from key best (rest ++ more) = Binary64.min_from key best rest.
Proof.
  intros Hmore. rewrite float_min_from_app. apply float_min_from_stay. intros y Hy.
  destruct (float_min_from_first best rest) as (_ & _ & Hall & _).
  by apply Hall, Hmore.
Qed.
End FloatMin.

Section Binary64Classifier.
Variable libm_pow2 : float → float.
Variable G : Binary64.globals.

Lemma float_inner_pairs (doc : string) (genres : list string)
    (print_pairs : list Binary64.pair) :
  (∀ genre, genre ∈ genres → ∃ c, Binary64.distance libm_pow2 G doc genre = Ok c) →
  for_each (λ print_pairs genre,
      c ← Binary64.distance libm_pow2 G doc genre ; Ok (print_pairs ++ [(doc, genre, c)]))
    genres print_pairs
  = Ok (print_pairs ++ float_row libm_pow2 G genres doc).
Proof.
  unfold float_row. revert print_pairs.
  induction genres as [|genre genres IH]; intros print_pairs Hd.
  - simpl. by rewrite app_nil_r.
  - cbn [for_each]. destruct (Hd genre ltac:(left)) as [c Hc].
    rewrite fmap_cons, Hc. cbn [mbind result_bind bind float_value].
    rewrite IH by (intros g Hg; apply Hd; by right).
    by rewrite <- app_assoc.
Qed.

Lemma float_all_pairs_rows (docs genres : list string) :
  (∀ doc genre, doc ∈ docs → genre ∈ genres →
     ∃ c, Binary64.distance libm_pow2 G doc genre = Ok c) →
  Binary64.all_pairs libm_pow2 G docs genres
  = Ok (concat (float_row libm_pow2 G genres <$> docs)).
Proof.
  unfold Binary64.all_pairs. intros Hd.
  assert (∀ print_pairs,
    for_each (λ print_pairs doc,
        for_each (λ print_pairs genre,
            c ← Binary64.distance libm_pow2 G doc genre ;
            Ok (print_pairs ++ [(doc, genre, c)]))
          genres print_pairs)
      docs print_pairs
    = Ok (print_pairs ++ concat (float_row libm_pow2 G genres <$> docs))) as Hloop;
    [|apply Hloop].
  induction docs as [|doc docs IH]; intros print_pairs.
  - simpl. by rewrite app_nil_r.
  - cbn [for_each]. rewrite float_inner_pairs by (intros g Hg; apply Hd; [by left | done]).
    cbn [mbind result_bind bind].
    rewrite IH by (intros d g Hd' Hg; apply Hd; [by right | done]).
    rewrite fmap_cons. cbn [concat]. by rewrite <- app_assoc.
Qed.

Lemma float_relevant_pairs (docs genres : list string) (doc : string) :
  doc ∈ docs →
  ∃ more, filter (λ p : Binary64.pair, p.1.1 = doc)
                 (concat (float_row libm_pow2 G genres <$> docs))
          = float_row libm_pow2 G genres doc ++ more ∧
          ∀ y, y ∈ more → y ∈ float_row libm_pow2 G genres doc.
Proof.
  assert (∀ d, filter (λ p : Binary64.pair, p.1.1 = doc) (float_row libm_pow2 G genres d)
               = if decide (d = doc) then float_row libm_pow2 G genres d else []) as Hrow.
  { intros d. unfold float_row. induction genres as [|g gs IH].
    - by case_decide.
    - rewrite fmap_cons, filter_cons, IH. simpl. by repeat case_decide. }
  assert (∀ ds y, y ∈ filter (λ p : Binary64.pair, p.1.1 = doc)
                        (concat (float_row libm_pow2 G genres <$> ds)) →
                  y ∈ float_row libm_pow2 G genres doc) as Hall.
  { induction ds as [|d ds IH]; intros y.
    - intros Hy. by apply elem_of_nil in Hy.
    - rewrite fmap_cons. cbn [concat]. rewrite filter_app, Hrow, elem_of_app.
      intros [Hy|Hy]; [|by apply IH].
      case_decide; [by subst | by apply elem_of_nil in Hy]. }
  induction docs as [|d docs IH]; intros Hdoc; [by apply elem_of_nil in Hdoc|].
  rewrite fmap_cons. cbn [concat]. rewrite filter_app, Hrow.
  destruct (decide (d = doc)) as [->|Hne].
  - eexists. split; [done|]. apply Hall.
  - apply elem_of_cons in Hdoc as [?|Hdoc]; [congruence|]. by apply IH.
Qed.

(** What the second loop appends for the documents it visits. *)
Lemma float_classify_loop (print_pairs : list Binary64.pair) (ds : list string)
    (st st' : list Binary64.pair * nat * nat) :
  for_each (Binary64.classify_step G print_pairs) ds st = Ok st' →
  ∃ ms, st'.1.1 = st.1.1 ++ ms ∧
        Forall2 (λ doc m, ∃ x r, filter (λ p : Binary64.pair, p.1.1 = doc) print_pairs = x :: r ∧
                                 m = Binary64.min_from (λ d : Binary64.pair, d.2) x r)
                ds ms.
Proof.
  revert st. induction ds as [|doc ds IH]; intros st Hrun.
  - simpl in Hrun. injection Hrun as <-. exists []. split; [by rewrite app_nil_r | constructor].
  - cbn [for_each] in Hrun.
    destruct (Binary64.classify_step G print_pairs st doc) as [st1|] eqn:Hstep; [|done].
    cbn [mbind result_bind bind] in Hrun.
    destruct (IH st1 Hrun) as (ms & Hms & Hall).
    destruct st as [[mp c] i]. unfold Binary64.classify_step in Hstep.
    destruct (filter _ print_pairs) as [|x r] eqn:Hrel; [done|]. simpl in Hstep.
    destruct (getitem (categories_of (Binary64.brown G) doc) 0) as [gold|]; [|done].
    simpl in Hstep.
    exists (Binary64.min_from (λ d : Binary64.pair, d.2) x r :: ms). split.
    + rewrite Hms. simpl. case_decide; injection Hstep as <-; simpl; by rewrite <- app_assoc.
    + constructor; [by exists x, r | done].
Qed.

(** X22: the selection as Python computes it.  In binary64 and for any C
    library, whenever the call returns, its [k]-th minimal pair is that of
    the [k]-th document, with a genre of the list and the float that
    [cosine_dist] returns for the two normalised vectors; the distance of
    no genre of the list is below it, and the distance of no earlier genre
    is below or equal to it (by the comparisons [<] and [<=] of floats, so
    with a NaN as well).  The first minimum of the computed distances is
    selected. *)
Theorem nearest_genre_binary64 (docs genres : list string) (rep : Binary64.report) :
  Binary64.pairwise_distance libm_pow2 G docs genres = Ok rep →
  length (Binary64.min_pairs rep) = length docs ∧
  ∀ k doc, docs !! k = Some doc →
    ∃ i genre c,
      Binary64.min_pairs rep !! k = Some (doc, genre, c) ∧
      genres !! i = Some genre ∧
      (∃ dv gv a b,
         Binary64.context_vector_document G !! doc = Some dv ∧
         Binary64.context_vector_genre G !! genre = Some gv ∧
         Binary64.normalize libm_pow2 dv = Ok a ∧
         Binary64.normalize libm_pow2 gv = Ok b ∧
         Binary64.cosine_dist libm_pow2 a b = Ok c) ∧
      ∀ j genre' c',
        genres !! j = Some genre' →
        Binary64.distance libm_pow2 G doc genre' = Ok c' →
        PrimFloat.ltb c' c = false ∧ (j < i → PrimFloat.leb c' c = false).
Proof.
  intros Hrep. unfold Binary64.pairwise_distance in Hrep.
  destruct (Binary64.all_pairs libm_pow2 G docs genres) as [pp|] eqn:Hpp; [|done].
  cbn [mbind result_bind bind] in Hrep.
  destruct (for_each (Binary64.classify_step G pp) docs ([], 0, 0)) as [[[mp c0] i0]|] eqn:Hloop;
    [|done].
  cbn [mbind result_bind bind] in Hrep.
  destruct (list_comp _ (Binary64.sorted_by_id mp)) as [rows|]; [|done].
  cbn [mbind result_bind bind] in Hrep.
  destruct (Binary64.truediv _ _) as [q|]; [|done]. simpl in Hrep. injection Hrep as <-.
  simpl.
  assert (∀ doc genre, doc ∈ docs → genre ∈ genres →
            ∃ c, Binary64.distance libm_pow2 G doc genre = Ok c) as Hdist.
  { intros doc genre Hdoc Hgenre. unfold Binary64.all_pairs in Hpp.
    destruct (for_each_Ok_inv _ _ _ _ Hpp doc Hdoc) as (acc & acc' & Hinner).
    destruct (for_each_Ok_inv _ _ _ _ Hinner genre Hgenre) as (acc1 & acc1' & Hbody).
    destruct (Binary64.distance libm_pow2 G doc genre) as [dist|]; [by eexists | done]. }
  rewrite float_all_pairs_rows in Hpp by done. injection Hpp as <-.
  destruct (float_classify_loop _ _ _ _ Hloop) as (ms & Hms & Hall).
  simpl in Hms. subst mp.
  split; [symmetry; by eapply Forall2_length|].
  intros k doc Hk.
  destruct (Forall2_lookup_l _ _ _ _ _ Hall Hk) as (m & Hm & x & r & Hrel & ->).
  assert (doc ∈ docs) as Hdoc by (by eapply list_elem_of_lookup_2).
  destruct (float_relevant_pairs docs genres doc Hdoc) as (more & Hfilter & Hmore).
  rewrite Hfilter in Hrel.
  destruct (float_row libm_pow2 G genres doc) as [|p ps] eqn:Hrow; [|clear Hfilter].
  { exfalso. simpl in Hrel. destruct more as [|y more]; [done|].
    specialize (Hmore y ltac:(left)). by apply elem_of_nil in Hmore. }
  simpl in Hrel. injection Hrel as <- <-.
  rewrite float_min_from_repeats in Hm by done.
  destruct (float_min_from_first (λ d : Binary64.pair, d.2) p ps)
    as (i & Hi & Hnone & Hfirst & _).
  set (best := Binary64.min_from (λ d : Binary64.pair, d.2) p ps) in *.
  rewrite <- Hrow in Hi, Hnone, Hfirst. unfold float_row in Hi, Hnone, Hfirst.
  rewrite list_lookup_fmap in Hi.
  destruct (genres !! i) as [genre|] eqn:Hgi; [|done].
  simpl in Hi. injection Hi as Hbest.
  assert (genre ∈ genres) as Hgenre by (by eapply list_elem_of_lookup_2).
  destruct (Hdist doc genre Hdoc Hgenre) as [c Hc].
  rewrite Hc in Hbest. simpl in Hbest.
  exists i, genre, c. split; [rewrite <- Hbest in Hm; exact Hm|]. split; [done|]. split.
  { unfold Binary64.distance, dict_get in Hc.
    destruct (Binary64.context_vector_document G !! doc) as [dv|]; [|done]. simpl in Hc.
    destruct (Binary64.normalize libm_pow2 dv) as [a|] eqn:Ha; [|done]. simpl in Hc.
    destruct (Binary64.context_vector_genre G !! genre) as [gv|]; [|done]. simpl in Hc.
    destruct (Binary64.normalize libm_pow2 gv) as [b|] eqn:Hb; [|done]. simpl in Hc.
    by exists dv, gv, a, b. }
  intros j genre' c' Hj Hc'.
  assert (((λ genre0, (doc, genre0,
                       float_value (Binary64.distance libm_pow2 G doc genre0)))
           <$> genres) !! j = Some (doc, genre', c')) as Hlook
    by (by rewrite list_lookup_fmap, Hj; simpl; rewrite Hc').
  split.
  - specialize (Hnone (doc, genre', c')). rewrite <- Hbest in Hnone. simpl in Hnone.
    apply Hnone. by eapply list_elem_of_lookup_2.
  - intros Hji. specialize (Hfirst j (doc, genre', c') Hji Hlook).
    by rewrite <- Hbest in Hfirst.
Qed.
End Binary64Classifier.

Lemma nearest_genre_binary64_witness :
  ∃ rep, Binary64.pairwise_distance rounded_square parallel_genres ["d"] ["X"; "Y"] = Ok rep ∧
    length (Binary64.min_pairs rep) = length ["d"] ∧
    ∀ k doc, ["d"] !! k = Some doc →
      ∃ i genre c,
        Binary64.min_pairs rep !! k = Some (doc, genre, c) ∧
        ["X"; "Y"] !! i = Some genre ∧
        (∃ dv gv a b,
           Binary64.context_vector_document parallel_genres !! doc = Some dv ∧
           Binary64.context_vector_genre parallel_genres !! genre = Some gv ∧
           Binary64.normalize rounded_square dv = Ok a ∧
           Binary64.normalize rounded_square gv = Ok b ∧
           Binary64.cosine_dist rounded_square a b = Ok c) ∧
        ∀ j genre' c',
          ["X"; "Y"] !! j = Some genre' →
          Binary64.distance rounded_square parallel_genres doc genre' = Ok c' →
          PrimFloat.ltb c' c = false ∧ (j < i → PrimFloat.leb c' c = false).
Proof.
  eexists. split; [vm_compute; reflexivity|].
  apply (nearest_genre_binary64 rounded_square parallel_genres ["d"] ["X"; "Y"]).
  vm_compute. reflexivity.
Defined.

(** X4 (in exact arithmetic): normalising both vectors first does not
    change the cosine distance, so the distance that [pairwise_distance]
    computes from the normalised vectors is the cosine distance of the
    context vectors themselves. *)
Theorem cosine_dist_of_normalized (a b : list R) :
  length b ≤ length a →
  ¬ Forall (λ x, x = 0%R) a → ¬ Forall (λ x, x = 0%R) b →
  ∃ c, cosine_dist a b = Ok c ∧
       (na ← normalize a ; nb ← normalize b ; cosine_dist na nb) = Ok c.
Proof.
  intros Hlen Ha Hb.
  rewrite <- euclid_zero_iff in Ha, Hb.
  eexists. split; [by apply cosine_dist_Ok|].
  rewrite (normalize_Ok a Ha). simpl. rewrite (normalize_Ok b Hb). simpl.
  rewrite cosine_dist_Ok.
  - rewrite !euclid_normalized by done.
    assert (∀ (ka kb : R) (u v : list R), ka ≠ 0%R → kb ≠ 0%R →
              dot ((λ x, x / ka)%R <$> u) ((λ x, x / kb)%R <$> v)
              = (dot u v / (ka * kb))%R) as Hscale.
    { intros ka kb u. induction u as [|x u IH]; intros [|y v] Hka Hkb.
      1-3: cbn [fmap list_fmap dot]; by field.
      rewrite !fmap_cons. cbn [dot]. rewrite IH by done. by field. }
    rewrite Hscale by done. f_equal. by field.
  - rewrite !length_fmap. lia.
  - rewrite euclid_normalized by done. lra.
  - rewrite euclid_normalized by done. lra.
Qed.

Lemma cosine_dist_of_normalized_witness :
  ∃ c, cosine_dist [3; 4]%R [1; 1]%R = Ok c ∧
       (na ← normalize [3; 4]%R ; nb ← normalize [1; 1]%R ; cosine_dist na nb) = Ok c.
Proof.
  apply (cosine_dist_of_normalized [3; 4]%R [1; 1]%R).
  - simpl. lia.
  - intros Hall. inversion Hall. lra.
  - intros Hall. inversion Hall. lra.
Defined.

(** ** Aggregation: bounds, order, and the vectors it produces *)

(** X5: [add_vector(a, b)] raises [IndexError] when [b] is longer than [a];
    otherwise it returns [a] with [b] added to its first [len(b)] entries,
    the other entries and the length unchanged. *)
Theorem add_vector_cases (a : list R) (b : list Z) :
  (length a < length b → add_vector a b = Raise IndexError) ∧
  (length b ≤ length a →
   ∃ a', add_vector a b = Ok a' ∧ length a' = length a ∧
         ∀ j, a' !! j = (λ x, x + IZR (default 0%Z (b !! j)))%R <$> a !! j).
Proof.
  split.
  - intros Hlen. unfold add_vector. apply add_vector_loop_short; lia.
  - intros Hlen. destruct (add_vector_spec a b Hlen) as (a' & Hrun & Hlen' & Hlook).
    exists a'. split; [done|]. split; [done|]. intros j.
    destruct (a !! j) as [x|] eqn:Hj; simpl; [by apply Hlook|].
    apply lookup_ge_None. rewrite Hlen'. by apply lookup_ge_None.
Qed.

Lemma add_vector_cases_witness :
  add_vector [1]%R [1; 1]%Z = Raise IndexError ∧
  ∃ a', add_vector [1; 2; 3]%R [1; 1]%Z = Ok a' ∧ length a' = length [1; 2; 3]%R ∧
        ∀ j, a' !! j = (λ x, x + IZR (default 0%Z ([1; 1]%Z !! j)))%R <$> [1; 2; 3]%R !! j.
Proof.
  split.
  - apply (add_vector_cases [1]%R [1; 1]%Z). simpl. lia.
  - apply (add_vector_cases [1; 2; 3]%R [1; 1]%Z). simpl. lia.
Defined.

Lemma occurrence_sum_perm (index_vector : gmap string (list Z)) (c1 c2 : list string)
    (j : nat) :
  c1 ≡ₚ c2 → occurrence_sum index_vector c1 j = occurrence_sum index_vector c2 j.
Proof.
  induction 1 as [|x l1 l2 _ IH|x y l|l1 l2 l3 _ IH1 _ IH2]; simpl; [done| | |congruence].
  - by rewrite IH.
  - lra.
Qed.

(** X6: the order of the tokens does not matter: when the accumulation of a
    token sequence into the vector of [key] returns, so does the
    accumulation of every reordering of the sequence, with the same
    dictionary. *)
Theorem accumulate_order_independent (index_vector : gmap string (list Z))
    (key : string) (context context' : list string) (cv cv' : gmap string (list R)) :
  context ≡ₚ context' →
  accumulate index_vector key context cv = Ok cv' →
  accumulate index_vector key context' cv = Ok cv'.
Proof.
  intros Hperm Hrun.
  destruct context as [|word context].
  { apply Permutation_nil_l in Hperm. by subst. }
  destruct (cv !! key) as [a|] eqn:Hkey.
  2:{ unfold accumulate in Hrun. simpl in Hrun.
      assert (dict_get cv key = Raise KeyError) as Hget
        by (unfold dict_get; by rewrite Hkey).
      by rewrite Hget in Hrun. }
  pose proof (accumulate_Ok_inv _ _ _ _ _ _ Hkey Hrun) as Hfit.
  destruct (accumulate_spec index_vector key (word :: context) cv a Hkey Hfit)
    as (cv1 & a1 & Hrun1 & Hkey1 & Hlen1 & Hsum1 & Hother1).
  destruct (accumulate_spec index_vector key context' cv a Hkey)
    as (cv2 & a2 & Hrun2 & Hkey2 & Hlen2 & Hsum2 & Hother2).
  { intros w Hw. apply Hfit. by rewrite Hperm. }
  rewrite Hrun in Hrun1. injection Hrun1 as <-. rewrite Hrun2. f_equal.
  assert (a2 = a1) as ->.
  { apply list_eq. intros j. destruct (a !! j) as [x|] eqn:Hj.
    - rewrite (Hsum1 j x Hj), (Hsum2 j x Hj). do 2 f_equal.
      symmetry. by apply occurrence_sum_perm.
    - apply lookup_ge_None in Hj.
      rewrite !lookup_ge_None_2; [done | lia | lia]. }
  apply map_eq. intros k. destruct (decide (k = key)) as [->|Hne].
  - by rewrite Hkey1, Hkey2.
  - by rewrite Hother1, Hother2.
Qed.

Lemma accumulate_order_independent_witness :
  accumulate toy_index_vector "doc" ["a"; "a"; "b"] (zero_vectors 4 ["doc"])
  = accumulate toy_index_vector "doc" ["a"; "b"; "a"] (zero_vectors 4 ["doc"]).
Proof.
  destruct (accumulate_spec toy_index_vector "doc" ["a"; "b"; "a"]
              (zero_vectors 4 ["doc"]) (replicate 4 0%R)) as (cv & a & Hrun & _).
  { apply zero_vectors_lookup. by left. }
  { intros w Hw.
    repeat (apply elem_of_cons in Hw as [->|Hw]); [..|by apply elem_of_nil in Hw];
      eexists; (split; [reflexivity | simpl; lia]). }
  rewrite Hrun.
  apply (accumulate_order_independent toy_index_vector "doc" ["a"; "b"; "a"]
           ["a"; "a"; "b"] _ cv); [|exact Hrun].
  apply perm_skip, perm_swap.
Defined.

Lemma ones_lookup (b : list Z) : 1 ≤ ones b → ∃ j, b !! j = Some 1%Z.
Proof.
  unfold ones. intros Hones.
  destruct (filter (λ x, x = 1%Z) b) as [|x xs] eqn:Hf; [simpl in Hones; lia|].
  assert (x ∈ filter (λ x, x = 1%Z) b) as Hx by (rewrite Hf; by left).
  apply list_elem_of_filter in Hx as [-> Hx].
  by apply list_elem_of_lookup in Hx.
Qed.

Lemma component_nonneg (index_vector : gmap string (list Z)) (word : string) (j : nat) :
  (∀ w b, index_vector !! w = Some b → binary b) →
  (0 <= IZR (component index_vector word j))%R.
Proof.
  intros Hbin. unfold component.
  destruct (index_vector !! word) as [b|] eqn:Hb; simpl; [|lra].
  destruct (b !! j) as [x|] eqn:Hj; simpl; [|lra].
  specialize (Hbin word b Hb). unfold binary in Hbin. rewrite Forall_forall in Hbin.
  destruct (Hbin x) as [-> | ->]; [by eapply list_elem_of_lookup_2 | lra | lra].
Qed.

Lemma occurrence_sum_nonneg (index_vector : gmap string (list Z)) (context : list string)
    (j : nat) :
  (∀ w b, index_vector !! w = Some b → binary b) →
  (0 <= occurrence_sum index_vector context j)%R.
Proof.
  intros Hbin. induction context as [|word context IH]; simpl; [lra|].
  pose proof (component_nonneg index_vector word j Hbin). lra.
Qed.

(** What the sums computed by the aggregation look like when every index
    vector consists of zeros and ones and has at least one 1. *)
Lemma occurrence_sum_zero_iff (index_vector : gmap string (list Z)) (d : nat)
    (context : list string) (v : list R) :
  (∀ w b, index_vector !! w = Some b → binary b ∧ 1 ≤ ones b) →
  (∀ w, w ∈ context → ∃ b, index_vector !! w = Some b ∧ length b ≤ d) →
  length v = d →
  (∀ j, j < d → v !! j = Some (occurrence_sum index_vector context j)) →
  Forall (λ x, (0 <= x)%R) v ∧ (Forall (λ x, x = 0%R) v ↔ context = []).
Proof.
  intros Hiv Hfits Hlen Hsum.
  assert (∀ w b, index_vector !! w = Some b → binary b) as Hbin
    by (intros w b Hb; by apply (Hiv w b)).
  split; [|split].
  - apply Forall_forall. intros x Hx.
    apply list_elem_of_lookup in Hx as [j Hj].
    assert (j < d) as Hjd by (apply lookup_lt_Some in Hj; lia).
    rewrite (Hsum j Hjd) in Hj. injection Hj as <-.
    by apply occurrence_sum_nonneg.
  - intros Hall. destruct context as [|w ws]; [done|]. exfalso.
    destruct (Hfits w) as (b & Hb & Hlenb); [by left|].
    destruct (Hiv _ _ Hb) as [_ Hone].
    destruct (ones_lookup b Hone) as [j Hj].
    assert (j < d) as Hjd by (apply lookup_lt_Some in Hj; lia).
    specialize (Hsum j Hjd). simpl in Hsum.
    rewrite Forall_forall in Hall.
    assert ((IZR (component index_vector w j)
             + occurrence_sum index_vector ws j)%R = 0%R) as Hz
      by (apply Hall; by eapply list_elem_of_lookup_2).
    assert (component index_vector w j = 1%Z) as Hc
      by (unfold component; rewrite Hb; simpl; by rewrite Hj).
    rewrite Hc in Hz.
    pose proof (occurrence_sum_nonneg index_vector ws j Hbin). lra.
  - intros ->. simpl in Hsum.
    apply Forall_forall. intros x Hx.
    apply list_elem_of_lookup in Hx as [j Hj].
    assert (j < d) as Hjd by (apply lookup_lt_Some in Hj; lia).
    rewrite (Hsum j Hjd) in Hj. by injection Hj as <-.
Qed.

Lemma occurrence_vector_zero_iff (corp : corpus) (index_vector : gmap string (list Z))
    (d : nat) (doc : string) (v : list R) :
  (∀ w b, index_vector !! w = Some b → binary b ∧ 1 ≤ ones b) →
  fits corp index_vector d doc →
  length v = d →
  (∀ j, j < d → v !! j = Some (occurrence_sum index_vector (lower <$> words corp doc) j)) →
  Forall (λ x, (0 <= x)%R) v ∧ (Forall (λ x, x = 0%R) v ↔ words corp doc = []).
Proof.
  intros Hiv Hfits Hlen Hsum.
  destruct (occurrence_sum_zero_iff index_vector d (lower <$> words corp doc) v Hiv)
    as [Hpos Hiff]; [|done|done|].
  - intros word Hword. apply list_elem_of_fmap in Hword as (w & -> & Hw). by apply Hfits.
  - split; [done|]. rewrite Hiff. split; [apply fmap_nil_inv | by intros ->].
Qed.

(** X7: with index vectors of zeros and ones that each hold at least one 1,
    the context vector of a document has no negative entry, and it is the
    zero vector exactly when the document has no token; so [normalize]
    succeeds on the vector of every document that has a token. *)
Theorem context_vector_zero_iff_no_tokens (corp : corpus)
    (index_vector : gmap string (list Z)) (d : nat) (documents : list string)
    (cv : gmap string (list R)) (doc : string) :
  NoDup documents →
  (∀ w b, index_vector !! w = Some b → binary b ∧ 1 ≤ ones b) →
  build_context_vector corp index_vector d documents = Ok cv →
  doc ∈ documents →
  ∃ v, cv !! doc = Some v ∧
       Forall (λ x, (0 <= x)%R) v ∧
       (Forall (λ x, x = 0%R) v ↔ words corp doc = []) ∧
       (words corp doc ≠ [] → ∃ w, normalize v = Ok w).
Proof.
  intros Hnd Hiv Hrun Hdoc. unfold build_context_vector in Hrun.
  assert (∀ doc, doc ∈ documents →
            zero_vectors d documents !! doc = Some (replicate d 0%R)) as Hzero
    by (intros doc' Hdoc'; by apply zero_vectors_lookup).
  pose proof (context_loop_fits corp index_vector d documents _ _ Hnd Hzero Hrun) as Hfits.
  destruct (context_loop corp index_vector d documents _ Hnd Hzero Hfits)
    as (cv' & Hrun' & Hin & _).
  rewrite Hrun in Hrun'. injection Hrun' as <-.
  destruct (Hin doc Hdoc) as (v & Hv & Hlen & Hsum).
  destruct (occurrence_vector_zero_iff corp index_vector d doc v Hiv (Hfits doc Hdoc) Hlen Hsum)
    as [Hpos Hiff].
  exists v. split; [done|]. split; [done|]. split; [done|].
  intros Hwords. eexists. apply normalize_Ok.
  rewrite euclid_zero_iff, Hiff. done.
Qed.

Lemma toy_index_vector_binary (w : string) (b : list Z) :
  toy_index_vector !! w = Some b → binary b ∧ 1 ≤ ones b.
Proof.
  unfold toy_index_vector. intros Hb.
  apply lookup_insert_Some in Hb as [[_ <-]|[_ Hb]].
  - split; [repeat (constructor; [first [by left | by right]|]); constructor | vm_compute; lia].
  - apply lookup_singleton_Some in Hb as [_ <-].
    split; [repeat (constructor; [first [by left | by right]|]); constructor | vm_compute; lia].
Qed.

Lemma context_vector_zero_iff_no_tokens_witness :
  ∃ cv v, build_context_vector toy_corpus toy_index_vector 4 ["doc"] = Ok cv ∧
          cv !! "doc" = Some v ∧
          Forall (λ x, (0 <= x)%R) v ∧
          (Forall (λ x, x = 0%R) v ↔ words toy_corpus "doc" = []) ∧
          (words toy_corpus "doc" ≠ [] → ∃ w, normalize v = Ok w).
Proof.
  destruct (context_loop toy_corpus toy_index_vector 4 ["doc"] (zero_vectors 4 ["doc"]))
    as (cv & Hrun & _).
  - apply NoDup_singleton.
  - intros doc Hdoc. by apply zero_vectors_lookup.
  - intros doc _. apply covered_fits, toy_covered.
  - exists cv.
    destruct (context_vector_zero_iff_no_tokens toy_corpus toy_index_vector 4 ["doc"]
                cv "doc") as (v & Hv); [apply NoDup_singleton | apply toy_index_vector_binary
                                       | exact Hrun | by left |].
    exists v. split; [exact Hrun | exact Hv].
Defined.

(** ** The genre vectors *)

Lemma occurrence_sum_app (index_vector : gmap string (list Z)) (c1 c2 : list string)
    (j : nat) :
  occurrence_sum index_vector (c1 ++ c2) j
  = (occurrence_sum index_vector c1 j + occurrence_sum index_vector c2 j)%R.
Proof. induction c1 as [|w c1 IH]; simpl; [lra | rewrite IH; lra]. Qed.

Lemma occurrence_sum_files (corp : corpus) (index_vector : gmap string (list Z))
    (files : list string) (j : nat) :
  occurrence_sum index_vector (lower <$> words_of_files corp files) j
  = Rsum ((λ file, occurrence_sum index_vector (lower <$> words corp file) j) <$> files).
Proof.
  unfold words_of_files, Rsum. induction files as [|file files IH]; [done|].
  rewrite !fmap_cons. cbn [concat foldr]. rewrite fmap_app, occurrence_sum_app.
  by rewrite IH.
Qed.

Lemma genre_loop (corp : corpus) (index_vector : gmap string (list Z)) (d : nat)
    (genres : list string) (cv cv' : gmap string (list R)) :
  NoDup genres →
  (∀ genre, genre ∈ genres → cv !! genre = Some (replicate d 0%R)) →
  for_each (λ cv genre,
      files ← train_files corp genre ;
      accumulate index_vector genre (lower <$> words_of_files corp files) cv)
    genres cv = Ok cv' →
  (∀ genre, genre ∈ genres →
     ∃ files v, train_files corp genre = Ok files ∧ cv' !! genre = Some v ∧ length v = d ∧
       ∀ j, j < d →
         v !! j = Some (occurrence_sum index_vector
                          (lower <$> words_of_files corp files) j)) ∧
  (∀ k, k ∉ genres → cv' !! k = cv !! k).
Proof.
  revert cv. induction genres as [|genre genres IH]; intros cv Hnd Hzero Hrun.
  - simpl in Hrun. injection Hrun as <-. split; [|done].
    intros genre Hgenre. by apply elem_of_nil in Hgenre.
  - apply NoDup_cons in Hnd as [Hgenre Hnd]. simpl in Hrun.
    destruct (train_files corp genre) as [files|] eqn:Hfiles; [|done]. simpl in Hrun.
    destruct (accumulate index_vector genre (lower <$> words_of_files corp files) cv)
      as [cv1|] eqn:Hacc; [|done]. simpl in Hrun.
    pose proof (accumulate_Ok_inv _ _ _ _ _ _ (Hzero genre ltac:(left)) Hacc) as Hfit.
    destruct (accumulate_spec index_vector genre (lower <$> words_of_files corp files) cv
                (replicate d 0%R)) as (cv1' & v & Hacc' & Hv & Hlen & Hsum & Hother);
      [apply Hzero; by left | done |].
    rewrite Hacc in Hacc'. injection Hacc' as <-. rewrite length_replicate in Hlen.
    assert (∀ genre', genre' ∈ genres → cv1 !! genre' = Some (replicate d 0%R)) as Hzero1.
    { intros genre' Hgenre'. rewrite Hother by (by intros ->). apply Hzero. by right. }
    destruct (IH cv1 Hnd Hzero1 Hrun) as [Hin Hout].
    split.
    + intros genre' Hgenre'. apply elem_of_cons in Hgenre' as [->|Hgenre']; [|by apply Hin].
      exists files, v. split; [done|]. rewrite Hout by done. split; [done|]. split; [done|].
      intros j Hj. rewrite (Hsum j 0%R) by (by apply lookup_replicate_2).
      f_equal. lra.
    + intros k Hk. apply not_elem_of_cons in Hk as [Hne Hk].
      rewrite Hout by done. by apply Hother.
Qed.

(** X8: whenever the genre vectors are built (distinct genres), the vector
    of a genre has length [d] and is, entry by entry, the sum over the
    genre's training files [fileids[size:]] of what each file's own tokens
    add up to, that is the sum of the context vectors these files would get
    as documents. *)
Theorem genre_vector_is_sum_over_training_files (corp : corpus)
    (index_vector : gmap string (list Z)) (d : nat) (genres : list string)
    (cv : gmap string (list R)) (genre : string) :
  NoDup genres →
  build_context_vector_genre corp index_vector d genres = Ok cv →
  genre ∈ genres →
  ∃ size v, slice_size (length (fileids corp genre)) float_0_7 = Ok size ∧
       cv !! genre = Some v ∧ length v = d ∧
       ∀ j, j < d →
         v !! j = Some (Rsum ((λ file, occurrence_sum index_vector
                                         (lower <$> words corp file) j)
                              <$> drop size (fileids corp genre))).
Proof.
  intros Hnd Hrun Hgenre. unfold build_context_vector_genre in Hrun.
  destruct (genre_loop corp index_vector d genres _ _ Hnd
              (λ g Hg, zero_vectors_lookup d genres g Hg) Hrun) as [Hin _].
  destruct (Hin genre Hgenre) as (files & v & Hfiles & Hv & Hlen & Hsum).
  unfold train_files in Hfiles.
  destruct (slice_size (length (fileids corp genre)) float_0_7) as [size|] eqn:Hsize;
    [|done].
  simpl in Hfiles. injection Hfiles as <-.
  exists size, v. split; [done|]. split; [done|]. split; [done|].
  intros j Hj. rewrite (Hsum j Hj). f_equal. apply occurrence_sum_files.
Qed.

Lemma genre_vector_is_sum_over_training_files_witness :
  ∃ cv size v,
    build_context_vector_genre toy_corpus toy_index_vector 4 ["X"] = Ok cv ∧
    slice_size (length (fileids toy_corpus "X")) float_0_7 = Ok size ∧
    cv !! "X" = Some v ∧ length v = 4 ∧
    ∀ j, j < 4 →
      v !! j = Some (Rsum ((λ file, occurrence_sum toy_index_vector
                                      (lower <$> words toy_corpus file) j)
                           <$> drop size (fileids toy_corpus "X"))).
Proof.
  assert (train_files toy_corpus "X" = Ok ["doc"]) as Hfiles by (vm_compute; reflexivity).
  destruct (accumulate_spec toy_index_vector "X"
              (lower <$> words_of_files toy_corpus ["doc"]) (zero_vectors 4 ["X"])
              (replicate 4 0%R)) as (cv & v0 & Hacc & _).
  - apply zero_vectors_lookup. by left.
  - intros word Hword. apply list_elem_of_fmap in Hword as (w & -> & Hw).
    destruct (toy_covered "doc" w) as (b & Hb & Hlen).
    + unfold words_of_files in Hw. simpl in Hw. exact Hw.
    + exists b. split; [done|]. rewrite length_replicate. lia.
  - assert (build_context_vector_genre toy_corpus toy_index_vector 4 ["X"] = Ok cv) as Hrun.
    { unfold build_context_vector_genre. cbn [for_each]. rewrite Hfiles. simpl.
      simpl in Hacc. by rewrite Hacc. }
    exists cv.
    destruct (genre_vector_is_sum_over_training_files toy_corpus toy_index_vector 4 ["X"]
                cv "X") as (size & v & Hres); [apply NoDup_singleton | exact Hrun | by left |].
    exists size, v. split; [exact Hrun | exact Hres].
Defined.

(** ** From the vocabulary to the vectors given to the clusterer *)

Lemma ones_replicate_1 (d : nat) : ones (replicate d 1%Z) = d.
Proof.
  unfold ones. induction d as [|d IH]; [done|]. cbn [replicate].
  rewrite filter_cons_True by done. cbn [length]. by rewrite IH.
Qed.

Section Pipeline.
Variable rng : Type.
Variable shuffle : rng → list nat → list nat * rng.
Hypothesis shuffle_perm : ∀ g l, (shuffle g l).1 ≡ₚ l.

Lemma build_index_vector_total (d m : nat) (vocabulary : gset string) (g : rng) :
  ∃ iv g', build_index_vector rng shuffle d m vocabulary g = Ok (iv, g') ∧
           dom iv = vocabulary ∧
           ∀ word v, iv !! word = Some v →
             length v = d ∧ ones v = m `min` d ∧ binary v.
Proof.
  unfold build_index_vector.
  destruct (index_loop rng shuffle shuffle_perm d m
              (λ v, length v = d ∧ ones v = m `min` d ∧ binary v))
    with (ws := elements vocabulary) (iv := gset_to_gmap (replicate d 0%Z) vocabulary)
         (g := g) as (iv & g' & Hrun & Hin & Hout).
  - intros ps Hps. destruct (decide (m ≤ d)) as [Hmd|Hmd].
    + destruct (set_ones_zero_vector d m ps Hmd Hps) as (v & Hv & Hlen & Hones & Hbin).
      exists v. rewrite Nat.min_l by done. done.
    + exists (replicate d 1%Z). split; [apply set_ones_all; [lia | done]|].
      rewrite length_replicate, ones_replicate_1, Nat.min_r by lia.
      split; [done|]. split; [done|]. apply Forall_replicate. by right.
  - apply NoDup_elements.
  - intros w Hw. apply lookup_gset_to_gmap_Some. split; [|done].
    by apply elem_of_elements.
  - exists iv, g'. split; [done|]. split.
    + apply set_eq. intros w. rewrite elem_of_dom. split.
      * intros [v Hv]. destruct (decide (w ∈ vocabulary)) as [|Hw]; [done|].
        rewrite Hout in Hv by (by rewrite elem_of_elements).
        apply lookup_gset_to_gmap_Some in Hv as [? _]. done.
      * intros Hw. destruct (Hin w) as (v & -> & _); [by apply elem_of_elements | done].
    + intros word v Hv. destruct (decide (word ∈ vocabulary)) as [Hw|Hw].
      * destruct (Hin word) as (v' & Hv' & HP); [by apply elem_of_elements|].
        rewrite Hv in Hv'. by injection Hv' as <-.
      * rewrite Hout in Hv by (by rewrite elem_of_elements).
        apply lookup_gset_to_gmap_Some in Hv as [? _]. done.
Qed.

(** X9: whatever [d], [m] and the shuffles are, the construction of the
    index vectors meets no exception; the resulting dictionary has exactly
    the words of the vocabulary as keys, and every vector has length [d],
    only zeros and ones, and [min(m, d)] ones. *)
Theorem index_vectors_keys_and_shape (d m : nat) (vocabulary : gset string) (g : rng) :
  ∃ iv g', build_index_vector rng shuffle d m vocabulary g = Ok (iv, g') ∧
           dom iv = vocabulary ∧
           ∀ word v, iv !! word = Some v →
             length v = d ∧ ones v = m `min` d ∧ binary v.
Proof. apply build_index_vector_total. Qed.

(** X10: Part 1 up to the clusterer.  With [m ≥ 1] and [d ≥ 1], distinct
    documents that each have a token, and a vocabulary that holds every
    lower-cased token, the three steps run without an exception: index
    vectors, context vectors, normalisation; the clusterer receives one
    vector per document, each of dimension [d], of Euclidean length 1 and
    without a negative entry. *)
Theorem clustering_vectors_are_unit (corp : corpus) (d m : nat) (vocabulary : gset string)
    (documents : list string) (g : rng) :
  1 ≤ m → 1 ≤ d → NoDup documents →
  (∀ doc, doc ∈ documents →
     words corp doc ≠ [] ∧ ∀ w, w ∈ words corp doc → lower w ∈ vocabulary) →
  ∃ iv g' cv vectors,
    build_index_vector rng shuffle d m vocabulary g = Ok (iv, g') ∧
    build_context_vector corp iv d documents = Ok cv ∧
    clustering_vectors cv documents = Ok vectors ∧
    length vectors = length documents ∧
    Forall (λ v, length v = d ∧ euclid v = 1%R ∧ Forall (λ x, (0 <= x)%R) v) vectors.
Proof.
  intros Hm Hd Hnd Hdocs.
  destruct (build_index_vector_total d m vocabulary g) as (iv & g' & Hiv & Hdom & Hshape).
  exists iv, g'.
  assert (∀ doc, doc ∈ documents → covered corp iv d doc) as Hcov.
  { intros doc Hdoc w Hw. destruct (Hdocs doc Hdoc) as [_ Hvoc].
    specialize (Hvoc w Hw). rewrite <- Hdom in Hvoc. apply elem_of_dom in Hvoc as [b Hb].
    exists b. split; [done|]. by destruct (Hshape _ _ Hb). }
  assert (∀ w b, iv !! w = Some b → binary b ∧ 1 ≤ ones b) as Hbin.
  { intros w b Hb. destruct (Hshape _ _ Hb) as (_ & Hones & ?). split; [done | lia]. }
  destruct (context_loop corp iv d documents (zero_vectors d documents) Hnd)
    as (cv & Hrun & Hin & _).
  { intros doc Hdoc. by apply zero_vectors_lookup. }
  { intros doc Hdoc. by apply covered_fits, Hcov. }
  exists cv.
  set (vec := λ doc : string, default [] (cv !! doc)).
  exists ((λ doc, (λ x, x / euclid (vec doc))%R <$> vec doc) <$> documents).
  assert (∀ doc, doc ∈ documents →
            cv !! doc = Some (vec doc) ∧ length (vec doc) = d ∧
            euclid (vec doc) ≠ 0%R ∧ Forall (λ x, (0 <= x)%R) (vec doc)) as Hvec.
  { intros doc Hdoc. destruct (Hin doc Hdoc) as (v & Hv & Hlen & Hsum).
    unfold vec. rewrite Hv. simpl. split; [done|]. split; [done|].
    destruct (occurrence_vector_zero_iff corp iv d doc v Hbin
                (covered_fits corp iv d doc (Hcov doc Hdoc)) Hlen Hsum) as [Hpos Hiff].
    split; [|done]. rewrite euclid_zero_iff, Hiff. by destruct (Hdocs doc Hdoc). }
  split; [done|]. split; [done|]. split; [|split].
  - unfold clustering_vectors. apply list_comp_Ok. intros doc Hdoc.
    destruct (Hvec doc Hdoc) as (Hv & _ & Hne & _).
    rewrite (dict_get_Ok _ _ _ Hv). simpl. by apply normalize_Ok.
  - by rewrite length_fmap.
  - apply Forall_fmap, Forall_forall. intros doc Hdoc. simpl.
    destruct (Hvec doc Hdoc) as (_ & Hlen & Hne & Hpos).
    split; [by rewrite length_fmap|]. split; [by apply euclid_normalized|].
    apply Forall_fmap. eapply Forall_impl; [exact Hpos|]. intros x Hx. simpl.
    pose proof (euclid_nonneg (vec doc)).
    apply Rmult_le_pos; [done|]. left. apply Rinv_0_lt_compat. lra.
Qed.
End Pipeline.

Lemma index_vectors_keys_and_shape_witness :
  ∃ iv g', build_index_vector unit reversing_shuffle 2 3 {["cat"; "dog"]} tt = Ok (iv, g') ∧
           dom iv = {["cat"; "dog"]} ∧
           ∀ word v, iv !! word = Some v →
             length v = 2 ∧ ones v = 3 `min` 2 ∧ binary v.
Proof.
  apply (index_vectors_keys_and_shape unit reversing_shuffle reversing_shuffle_perm 2 3).
Defined.

Lemma clustering_vectors_are_unit_witness :
  ∃ iv g' cv vectors,
    build_index_vector unit reversing_shuffle 4 2 {["a"; "b"]} tt = Ok (iv, g') ∧
    build_context_vector toy_corpus iv 4 ["doc"] = Ok cv ∧
    clustering_vectors cv ["doc"] = Ok vectors ∧
    length vectors = length ["doc"] ∧
    Forall (λ v, length v = 4 ∧ euclid v = 1%R ∧ Forall (λ x, (0 <= x)%R) v) vectors.
Proof.
  apply (clustering_vectors_are_unit unit reversing_shuffle reversing_shuffle_perm
           toy_corpus 4 2 {["a"; "b"]} ["doc"] tt); [lia | lia | apply NoDup_singleton |].
  intros doc _. split; [done|]. intros w Hw. simpl in Hw.
  repeat (apply elem_of_cons in Hw as [->|Hw]; [vm_compute lower; set_solver|]).
  by apply elem_of_nil in Hw.
Defined.

(** ** The classifier: counts, table, necessary conditions, edge cases *)





Section ClassifierReport.
Variable G : globals.

(** A distance that is computed comes from two vectors with a non-zero
    entry each, the genre's not longer than the document's. *)
Lemma distance_Ok_inv (doc genre : string) (c : R) :
  distance G doc genre = Ok c →
  ∃ dv gv, context_vector_document G !! doc = Some dv ∧
           context_vector_genre G !! genre = Some gv ∧
           length gv ≤ length dv ∧
           ¬ Forall (λ x, x = 0%R) dv ∧ ¬ Forall (λ x, x = 0%R) gv.
Proof.
  unfold distance, dict_get. intros Hrun.
  destruct (context_vector_document G !! doc) as [dv|] eqn:Hdv; [|done]. simpl in Hrun.
  destruct (normalize dv) as [a|] eqn:Ha; [|done]. simpl in Hrun.
  destruct (context_vector_genre G !! genre) as [gv|] eqn:Hgv; [|done]. simpl in Hrun.
  destruct (normalize gv) as [b|] eqn:Hb; [|done]. simpl in Hrun.
  assert (∀ v w, normalize v = Ok w →
            w = (λ x, x / euclid v)%R <$> v ∧ (euclid v = 0%R → v = [])) as Hnorm.
  { intros v w Hw. destruct (Req_dec_T (euclid v) 0) as [Hz|Hnz].
    - destruct v as [|x v]; [by injection Hw as <-|].
      by rewrite normalize_zero_raises in Hw.
    - rewrite (normalize_Ok v Hnz) in Hw. by injection Hw as <-. }
  destruct (Hnorm _ _ Ha) as [-> Hdz], (Hnorm _ _ Hb) as [-> Hgz].
  destruct (decide (length gv ≤ length dv)) as [Hlen|Hlen].
  2:{ rewrite cosine_dist_short in Hrun; [done | rewrite !length_fmap; lia]. }
  exists dv, gv. split; [done|]. split; [done|]. split; [done|].
  rewrite <- !euclid_zero_iff. split.
  - intros Hz. rewrite (Hdz Hz) in Hrun, Hlen.
    rewrite cosine_dist_zero_raises in Hrun; [done | by rewrite !length_fmap |].
    left. apply euclid_zero. constructor.
  - intros Hz. rewrite (Hgz Hz) in Hrun.
    rewrite cosine_dist_zero_raises in Hrun; [done | simpl; lia |].
    right. apply euclid_zero. constructor.
Qed.

Lemma pairwise_distance_table (docs genres : list string) (rep : report) :
  pairwise_distance G docs genres = Ok rep →
  table rep = (λ p : pair, (p.1.1, p.1.2, p.2, gold_of G p.1.1))
              <$> sorted_by_id (best_pair G genres <$> docs).
Proof.
  intros Hrep.
  destruct (pairwise_distance_runs G docs genres rep Hrep) as [Hd Hg Hcat Htest].
  assert (INR (length (test_documents G)) ≠ 0%R) as HT
    by (apply not_0_INR; by destruct (test_documents G)).
  unfold pairwise_distance in Hrep.
  rewrite all_pairs_rows in Hrep by (intros; apply distance_value; auto). simpl in Hrep.
  destruct (decide (docs = [])) as [->|Hdocs].
  { simpl in Hrep. rewrite truediv_Ok in Hrep by done. simpl in Hrep.
    by injection Hrep as <-. }
  specialize (Hg Hdocs).
  rewrite (classify_loop G docs genres docs [] 0 0 Hg) in Hrep by auto. simpl in Hrep.
  rewrite (list_comp_Ok
             (λ i : pair, gold ← getitem (categories_of (brown G) i.1.1) 0 ;
                          Ok (i.1.1, i.1.2, i.2, gold))
             (λ p : pair, (p.1.1, p.1.2, p.2, gold_of G p.1.1))) in Hrep.
  - simpl in Hrep. rewrite truediv_Ok in Hrep by done. simpl in Hrep.
    by injection Hrep as <-.
  - intros p Hp. rewrite sorted_by_id_perm in Hp.
    apply list_elem_of_fmap in Hp as (doc & -> & Hdoc).
    rewrite (best_pair_doc G genres doc Hg). unfold gold_of.
    specialize (Hcat doc Hdoc).
    by destruct (categories_of (brown G) doc) as [|gold cats].
Qed.

(** X11: the statistics of a call that returns: every document is counted
    once, as correct or as incorrect; the table has one row per document;
    the percentage is not negative, and it is at most 100 when there are no
    more documents than the global [test_documents] has. *)
Theorem report_counts (docs genres : list string) (rep : report) :
  pairwise_distance G docs genres = Ok rep →
  correct rep + incorrect rep = length docs ∧
  length (table rep) = length docs ∧
  (0 <= percentage rep)%R ∧
  (length docs ≤ length (test_documents G) → (percentage rep <= 100)%R).
Proof.
  intros Hrep. pose proof (pairwise_distance_runs G docs genres rep Hrep) as Hruns.
  destruct (pairwise_distance_spec G docs genres Hruns)
    as (rep' & Hrun & Hmp & Hcor & Hinc & Hpct).
  rewrite Hrep in Hrun. injection Hrun as <-.
  assert (correct rep + incorrect rep = length docs) as Hsum.
  { rewrite Hcor, Hinc, <- length_app, filter_app_complement, Hmp. apply length_fmap. }
  destruct Hruns as [_ _ _ Htest].
  assert (0 < INR (length (test_documents G)))%R as HT
    by (apply lt_0_INR; destruct (test_documents G); simpl; [done|lia]).
  pose proof (pos_INR (correct rep)) as HC.
  split; [done|]. split; [|split].
  - rewrite (pairwise_distance_table docs genres rep Hrep), length_fmap.
    by rewrite sorted_by_id_perm, length_fmap.
  - rewrite Hpct. apply Rmult_le_pos; [|lra].
    apply Rmult_le_pos; [done|]. left. by apply Rinv_0_lt_compat.
  - intros Hle. rewrite Hpct.
    assert (INR (correct rep) <= INR (length (test_documents G)))%R as Hcle
      by (apply le_INR; lia).
    assert (INR (correct rep) / INR (length (test_documents G)) <= 1)%R; [|lra].
    apply (Rmult_le_reg_r (INR (length (test_documents G)))); [done|].
    unfold Rdiv. rewrite Rmult_assoc, Rinv_l by lra. lra.
Qed.


(** X13: what a call that returns has found: the global [test_documents]
    is not empty, there is a genre unless there is no document, every
    document has a category, and for every document and genre both context
    vectors exist, have a non-zero entry, and the genre's vector is not
    longer than the document's.  So on a missing or zero vector, or with an
    empty test set, the call raises. *)
Theorem pairwise_distance_requires (docs genres : list string) (rep : report) :
  pairwise_distance G docs genres = Ok rep →
  test_documents G ≠ [] ∧
  (docs ≠ [] → genres ≠ []) ∧
  ∀ doc, doc ∈ docs →
    categories_of (brown G) doc ≠ [] ∧
    ∀ genre, genre ∈ genres →
      ∃ dv gv, context_vector_document G !! doc = Some dv ∧
               context_vector_genre G !! genre = Some gv ∧
               length gv ≤ length dv ∧
               ¬ Forall (λ x, x = 0%R) dv ∧ ¬ Forall (λ x, x = 0%R) gv.
Proof.
  intros Hrep.
  destruct (pairwise_distance_runs G docs genres rep Hrep) as [Hd Hg Hcat Htest].
  split; [done|]. split; [done|]. intros doc Hdoc. split; [by apply Hcat|].
  intros genre Hgenre. destruct (Hd doc genre Hdoc Hgenre) as [c Hc].
  by apply (distance_Ok_inv doc genre c).
Qed.

Lemma all_pairs_no_genres (docs : list string) : all_pairs G docs [] = Ok [].
Proof.
  unfold all_pairs. induction docs as [|doc docs IH]; simpl; [done | exact IH].
Qed.

(** X14: the edge cases of the call.  With documents but no genre,
    [min] is applied to an empty list: [ValueError].  With no document the
    loops do nothing: the table is empty and the percentage is 0, unless
    the global [test_documents] is empty, where the division raises
    [ZeroDivisionError]. *)
Theorem pairwise_distance_edge_cases (docs genres : list string) :
  (docs ≠ [] → pairwise_distance G docs [] = Raise ValueError) ∧
  (test_documents G = [] → pairwise_distance G [] genres = Raise ZeroDivisionError) ∧
  (test_documents G ≠ [] →
   ∃ rep, pairwise_distance G [] genres = Ok rep ∧
          min_pairs rep = [] ∧ table rep = [] ∧
          correct rep = 0 ∧ incorrect rep = 0 ∧ percentage rep = 0%R).
Proof.
  split; [|split].
  - intros Hdocs. unfold pairwise_distance. rewrite all_pairs_no_genres. simpl.
    destruct docs as [|doc docs']; [done|]. done.
  - intros Htest. unfold pairwise_distance. simpl. rewrite Htest. simpl.
    by rewrite truediv_zero.
  - intros Htest. unfold pairwise_distance. simpl.
    rewrite truediv_Ok by (apply not_0_INR; by destruct (test_documents G)).
    simpl. eexists. split; [done|]. simpl. repeat split; try done.
    unfold Rdiv. by rewrite !Rmult_0_l.
Qed.
End ClassifierReport.

Lemma toy_report :
  ∃ rep, pairwise_distance toy_globals ["d1"] ["X"; "Y"] = Ok rep.
Proof.
  destruct (pairwise_distance_spec toy_globals ["d1"] ["X"; "Y"]
              (classifiable_runs toy_globals 2 _ _ toy_classifiable)) as (rep & Hrun & _).
  by exists rep.
Qed.

Lemma report_counts_witness :
  ∃ rep, pairwise_distance toy_globals ["d1"] ["X"; "Y"] = Ok rep ∧
         correct rep + incorrect rep = length ["d1"] ∧
         length (table rep) = length ["d1"] ∧
         (0 <= percentage rep)%R ∧
         (length ["d1"] ≤ length (test_documents toy_globals) → (percentage rep <= 100)%R).
Proof.
  destruct toy_report as [rep Hrep]. exists rep. split; [exact Hrep|].
  exact (report_counts toy_globals ["d1"] ["X"; "Y"] rep Hrep).
Defined.


Lemma pairwise_distance_requires_witness :
  ∃ rep, pairwise_distance toy_globals ["d1"] ["X"; "Y"] = Ok rep ∧
    test_documents toy_globals ≠ [] ∧
    (["d1"] ≠ [] → ["X"; "Y"] ≠ []) ∧
    ∀ doc, doc ∈ ["d1"] →
      categories_of (brown toy_globals) doc ≠ [] ∧
      ∀ genre, genre ∈ ["X"; "Y"] →
        ∃ dv gv, context_vector_document toy_globals !! doc = Some dv ∧
                 context_vector_genre toy_globals !! genre = Some gv ∧
                 length gv ≤ length dv ∧
                 ¬ Forall (λ x, x = 0%R) dv ∧ ¬ Forall (λ x, x = 0%R) gv.
Proof.
  destruct toy_report as [rep Hrep]. exists rep. split; [exact Hrep|].
  exact (pairwise_distance_requires toy_globals ["d1"] ["X"; "Y"] rep Hrep).
Defined.

Lemma pairwise_distance_edge_cases_witness :
  pairwise_distance toy_globals ["d1"] [] = Raise ValueError ∧
  pairwise_distance {| brown := toy_corpus; test_documents := [];
                       context_vector_document := ∅; context_vector_genre := ∅ |}
                    [] ["X"] = Raise ZeroDivisionError ∧
  ∃ rep, pairwise_distance toy_globals [] ["X"] = Ok rep ∧
         min_pairs rep = [] ∧ table rep = [] ∧
         correct rep = 0 ∧ incorrect rep = 0 ∧ percentage rep = 0%R.
Proof.
  split; [|split].
  - by apply (pairwise_distance_edge_cases toy_globals ["d1"] []).
  - by apply (pairwise_distance_edge_cases
                {| brown := toy_corpus; test_documents := [];
                   context_vector_document := ∅; context_vector_genre := ∅ |} [] ["X"]).
  - by apply (pairwise_distance_edge_cases toy_globals [] ["X"]).
Defined.

(** ** The split: which files are used for what *)

(** X15: the split of one genre with [n ≤ 500] distinct files.  The test
    files are the first [⌊3n/10⌋] of the list, the training files are the
    list from position [size] on, where [size = int(n * 0.7)] is [⌊7n/10⌋]
    or one less; no file is used for both; and the files from position
    [⌊3n/10⌋] up to [size] are used for neither. *)
Theorem split_uses_a_file_at_most_once (corp : corpus) (genre : string) :
  length (fileids corp genre) ≤ 500 → NoDup (fileids corp genre) →
  ∃ test train size,
    test_files corp genre = Ok test ∧ train_files corp genre = Ok train ∧
    test = take (3 * length (fileids corp genre) / 10) (fileids corp genre) ∧
    train = drop size (fileids corp genre) ∧
    size ≤ 7 * length (fileids corp genre) / 10 ≤ S size ∧
    (∀ file, file ∈ test → file ∉ train) ∧
    (∀ i file, fileids corp genre !! i = Some file →
       3 * length (fileids corp genre) / 10 ≤ i ∧ i < size →
       ¬ (file ∈ test ∨ file ∈ train)).
Proof.
  intros Hlen Hnd. unfold test_files, train_files.
  destruct (slice_sizes _ Hlen) as (s3 & s7 & -> & -> & Hs3 & Hle & Hs7 & Hn).
  rewrite <- Hs3. clear Hs3.
  remember (7 * length (fileids corp genre) / 10) as q7. simpl.
  exists (take s3 (fileids corp genre)), (drop s7 (fileids corp genre)), s7.
  split; [done|]. split; [done|]. split; [done|]. split; [done|]. split; [done|].
  assert (∀ i file, fileids corp genre !! i = Some file →
            (file ∈ take s3 (fileids corp genre) → i < s3) ∧
            (file ∈ drop s7 (fileids corp genre) → s7 ≤ i)) as Hpos.
  { intros i file Hi. split.
    - intros Hin. apply list_elem_of_lookup in Hin as [j Hj].
      rewrite lookup_take_Some in Hj. destruct Hj as [Hj Hjlt].
      pose proof (NoDup_lookup _ _ _ _ Hnd Hi Hj). lia.
    - intros Hin. apply list_elem_of_lookup in Hin as [j Hj].
      rewrite lookup_drop in Hj.
      pose proof (NoDup_lookup _ _ _ _ Hnd Hi Hj). lia. }
  split.
  - intros file Htest Htrain.
    assert (file ∈ fileids corp genre) as Hfile by (by eapply subseteq_take).
    apply list_elem_of_lookup in Hfile as [i Hi].
    destruct (Hpos i file Hi) as [H3 H7]. specialize (H3 Htest). specialize (H7 Htrain). lia.
  - intros i file Hi Hrange. destruct (Hpos i file Hi) as [H3 H7].
    intros [Hin|Hin]; [specialize (H3 Hin) | specialize (H7 Hin)]; lia.
Qed.

Lemma six_documents_NoDup : NoDup (fileids six_documents "science_fiction").
Proof. apply (bool_decide_unpack _). vm_compute. reflexivity. Qed.

Lemma split_uses_a_file_at_most_once_witness :
  ∃ test train size,
    test_files six_documents "science_fiction" = Ok test ∧
    train_files six_documents "science_fiction" = Ok train ∧
    test = take (3 * length (fileids six_documents "science_fiction") / 10)
                (fileids six_documents "science_fiction") ∧
    train = drop size (fileids six_documents "science_fiction") ∧
    size ≤ 7 * length (fileids six_documents "science_fiction") / 10 ≤ S size ∧
    (∀ file, file ∈ test → file ∉ train) ∧
    (∀ i file, fileids six_documents "science_fiction" !! i = Some file →
       3 * length (fileids six_documents "science_fiction") / 10 ≤ i ∧ i < size →
       ¬ (file ∈ test ∨ file ∈ train)).
Proof.
  apply (split_uses_a_file_at_most_once six_documents "science_fiction").
  - simpl. lia.
  - exact six_documents_NoDup.
Defined.

Lemma test_documents_loop (corp : corpus) (genres : list string) (acc : list string) :
  (∀ genre, genre ∈ genres → length (fileids corp genre) ≤ 500) →
  for_each (λ test_documents genre,
      files ← test_files corp genre ; Ok (test_documents ++ files))
    genres acc
  = Ok (acc ++ concat ((λ genre, take (3 * length (fileids corp genre) / 10)
                                      (fileids corp genre)) <$> genres)).
Proof.
  revert acc. induction genres as [|genre genres IH]; intros acc Hlen.
  - simpl. by rewrite app_nil_r.
  - assert (test_files corp genre
            = Ok (take (3 * length (fileids corp genre) / 10) (fileids corp genre))) as Htest.
    { unfold test_files.
      by destruct (slice_sizes _ (Hlen genre ltac:(left))) as (s3 & s7 & -> & _ & -> & _). }
    cbn [for_each]. rewrite Htest.
    cbn [mbind result_bind bind]. rewrite IH by (intros g Hg; apply Hlen; by right).
    rewrite fmap_cons. cbn [concat]. by rewrite <- app_assoc.
Qed.

(** X16: when no genre has more than 500 files, the construction of
    [test_documents] returns, and the list is the concatenation, in the
    order of the genres, of the first [⌊3n/10⌋] files of each genre ([n] the
    number of files of the genre). *)
Theorem test_documents_are_leading_files (corp : corpus) (genres : list string) :
  (∀ genre, genre ∈ genres → length (fileids corp genre) ≤ 500) →
  build_test_documents corp genres
  = Ok (concat ((λ genre, take (3 * length (fileids corp genre) / 10)
                               (fileids corp genre)) <$> genres)).
Proof. intros Hlen. unfold build_test_documents. by rewrite test_documents_loop. Qed.

Lemma test_documents_are_leading_files_witness :
  build_test_documents six_documents ["science_fiction"]
  = Ok (concat ((λ genre, take (3 * length (fileids six_documents genre) / 10)
                               (fileids six_documents genre)) <$> ["science_fiction"])).
Proof.
  apply (test_documents_are_leading_files six_documents ["science_fiction"]).
  intros genre _. simpl. lia.
Defined.

(** ** The listing of the clusters *)

Lemma insert_by_label_filter (i : Z) (x : string * Z) (xs : list (string * Z)) :
  filter (λ item : string * Z, item.2 = i) (insert_by_label x xs)
  = filter (λ item : string * Z, item.2 = i) (x :: xs).
Proof.
  induction xs as [|y xs IH]; [done|]. cbn [insert_by_label].
  destruct (y.2 <? x.2)%Z eqn:Hlt; [|done].
  apply Z.ltb_lt in Hlt.
  rewrite (filter_cons _ y), IH, !(filter_cons _ x), (filter_cons _ y).
  repeat case_decide; (done || lia).
Qed.

(** The sort is stable: the items of one label keep their order. *)
Lemma sorted_by_label_filter (i : Z) (xs : list (string * Z)) :
  filter (λ item : string * Z, item.2 = i) (sorted_by_label xs)
  = filter (λ item : string * Z, item.2 = i) xs.
Proof.
  unfold sorted_by_label. induction xs as [|x xs IH]; [done|]. cbn [foldr].
  by rewrite insert_by_label_filter, !(filter_cons _ x), IH.
Qed.

Lemma group_loop_spec (fuel : nat) (zipped : list (string * Z)) (i : Z)
    (list_all : list (list (string * Z))) :
  group_loop fuel zipped i list_all
  = list_all ++ ((λ k, filter (λ item : string * Z, item.2 = k) zipped)
                 <$> seqZ i (Z.of_nat fuel)).
Proof.
  revert i list_all. induction fuel as [|fuel IH]; intros i list_all.
  - simpl. by rewrite app_nil_r.
  - cbn [group_loop]. rewrite IH, <- app_assoc. f_equal.
    rewrite (seqZ_cons i) by lia. rewrite fmap_cons. cbn [app]. do 3 f_equal; lia.
Qed.

Lemma py_max_spec (xs : list Z) (top : Z) :
  top ∈ xs → (∀ x, x ∈ xs → (x ≤ top)%Z) → py_max xs = Ok top.
Proof.
  assert (∀ rest x, let r := foldl (λ best y : Z, if (best <? y)%Z then y else best) x rest in
            r ∈ x :: rest ∧ ∀ y, y ∈ x :: rest → (y ≤ r)%Z) as Hfold.
  { induction rest as [|z rest IH]; intros x; simpl.
    - split; [by left|]. intros y Hy. apply list_elem_of_singleton in Hy. lia.
    - destruct (IH (if (x <? z)%Z then z else x)) as [Hin Hmax]. split.
      + apply elem_of_cons in Hin as [Heq|Hin]; [|by do 2 right].
        rewrite Heq. destruct (x <? z)%Z; [right; by left | by left].
      + intros y Hy.
        pose proof (Hmax (if (x <? z)%Z then z else x) ltac:(left)) as Hfirst.
        apply elem_of_cons in Hy as [->|Hy].
        * destruct (x <? z)%Z eqn:Hlt; [apply Z.ltb_lt in Hlt|]; lia.
        * apply elem_of_cons in Hy as [->|Hy]; [|apply Hmax; by right].
          destruct (x <? z)%Z eqn:Hlt; [|apply Z.ltb_ge in Hlt]; lia. }
  intros Hin Hmax. destruct xs as [|x rest]; [by apply elem_of_nil in Hin|].
  unfold py_max. f_equal. destruct (Hfold rest x) as [Hr Hle].
  specialize (Hle top Hin). specialize (Hmax _ Hr). simpl in *. lia.
Qed.

Lemma list_comp_raise {A B : Type} (f : A → result B) (xs : list A) (e : exn) :
  (∃ x, x ∈ xs ∧ f x = Raise e) →
  (∀ x e', x ∈ xs → f x = Raise e' → e' = e) →
  list_comp f xs = Raise e.
Proof.
  induction xs as [|x xs IH]; intros (x0 & Hx0 & Hraise) Hall.
  - by apply elem_of_nil in Hx0.
  - simpl. destruct (f x) as [y|e'] eqn:Hfx; simpl.
    + rewrite IH; [done| |].
      * exists x0. split; [|done]. apply elem_of_cons in Hx0 as [->|?]; [congruence | done].
      * intros z e' Hz. apply Hall. by right.
    + f_equal. apply (Hall x); [by left | done].
Qed.

Lemma labelled_sorted (documents : list string) (clusters : list Z) (i : Z) :
  (filter (λ item : string * Z, item.2 = i) (sorted_by_label (zip documents clusters))).*1
  = labelled documents clusters i.
Proof. unfold labelled. by rewrite sorted_by_label_filter. Qed.

(** X17: the listing of the clusters.  When [top] is the largest label and
    every label from 0 to [top] has a document, the listing has one line
    for each label 0, 1, ..., [top], in this order; the line of label [i]
    is numbered [i] and lists the documents labelled [i] in the order of
    [documents].  The sort of the pairs by label is stable, so it does not
    change the order within a cluster. *)
Theorem clusters_listing_lines (documents : list string) (clusters : list Z) (top : Z) :
  top ∈ clusters → (∀ x, x ∈ clusters → (x ≤ top)%Z) →
  (∀ i, (0 ≤ i ≤ top)%Z → labelled documents clusters i ≠ []) →
  clusters_listing documents clusters
  = Ok ((λ i, (i, labelled documents clusters i)) <$> seqZ 0 (top + 1)).
Proof.
  intros Htop Hmax Hfull. unfold clusters_listing.
  rewrite (py_max_spec clusters top Htop Hmax). cbn [mbind result_bind bind].
  rewrite group_loop_spec. cbn [app]. unfold cluster_lines.
  destruct (decide (top + 1 ≤ 0)%Z) as [Hneg|Hpos].
  { replace (Z.to_nat (top + 1)) with 0 by lia. rewrite !seqZ_nil by lia. done. }
  rewrite Z2Nat.id by lia.
  rewrite (list_comp_Ok _
             (λ group : list (string * Z), (default 0%Z (snd <$> head group), group.*1))).
  - rewrite <- list_fmap_compose. f_equal. apply list_fmap_ext. intros k i Hi. simpl.
    apply lookup_seqZ in Hi as [-> Hk]. rewrite labelled_sorted. f_equal.
    specialize (Hfull (0 + Z.of_nat k)%Z ltac:(lia)). rewrite <- labelled_sorted in Hfull.
    destruct (filter _ _) as [|first rest] eqn:Hgroup; [done|]. simpl.
    assert (first ∈ first :: rest) as Hfirst by (by left).
    rewrite <- Hgroup in Hfirst. by apply list_elem_of_filter in Hfirst as [? _].
  - intros group Hgroup. apply list_elem_of_fmap in Hgroup as (i & -> & Hi).
    apply elem_of_seqZ in Hi.
    specialize (Hfull i ltac:(lia)). rewrite <- labelled_sorted in Hfull.
    destruct (filter _ _) as [|first rest]; done.
Qed.

Lemma clusters_listing_lines_witness :
  clusters_listing ["ca01"; "cd01"; "ca02"] [1; 0; 1]%Z
  = Ok ((λ i, (i, labelled ["ca01"; "cd01"; "ca02"] [1; 0; 1]%Z i)) <$> seqZ 0 (1 + 1)).
Proof.
  apply (clusters_listing_lines ["ca01"; "cd01"; "ca02"] [1; 0; 1]%Z 1%Z).
  - by left.
  - intros x Hx. repeat (apply elem_of_cons in Hx as [->|Hx]; [lia|]).
    by apply elem_of_nil in Hx.
  - intros i Hi. assert (i = 0 ∨ i = 1)%Z as [-> | ->] by lia; vm_compute; discriminate.
Defined.

(** X18: how the listing fails.  Without any label, [max] raises
    [ValueError].  When [top] is the largest label and some label between 0
    and [top] has no document, its group is empty and the line
    [i[0][1]] raises [IndexError]. *)
Theorem clusters_listing_failures (documents : list string) (clusters : list Z)
    (top i : Z) :
  clusters_listing documents [] = Raise ValueError ∧
  (top ∈ clusters → (∀ x, x ∈ clusters → (x ≤ top)%Z) →
   (0 ≤ i ≤ top)%Z → labelled documents clusters i = [] →
   clusters_listing documents clusters = Raise IndexError).
Proof.
  split; [done|]. intros Htop Hmax Hi Hempty. unfold clusters_listing.
  rewrite (py_max_spec clusters top Htop Hmax). cbn [mbind result_bind bind].
  rewrite group_loop_spec. cbn [app]. unfold cluster_lines.
  rewrite Z2Nat.id by lia. apply list_comp_raise.
  - eexists. split; [apply list_elem_of_fmap; exists i; split; [done|]|].
    + apply elem_of_seqZ. lia.
    + simpl. rewrite <- labelled_sorted in Hempty.
      by destruct (filter _ _).
  - intros group e Hgroup Hraise. unfold getitem in Hraise.
    destruct (group !! 0); simpl in Hraise; congruence.
Qed.

Lemma clusters_listing_failures_witness :
  clusters_listing ["ca01"; "cd01"] [] = Raise ValueError ∧
  clusters_listing ["ca01"; "cd01"] [2; 0]%Z = Raise IndexError.
Proof.
  split; [apply (clusters_listing_failures ["ca01"; "cd01"] [] 0 0)|].
  apply (clusters_listing_failures ["ca01"; "cd01"] [2; 0]%Z 2%Z 1%Z).
  - by left.
  - intros x Hx. repeat (apply elem_of_cons in Hx as [->|Hx]; [lia|]).
    by apply elem_of_nil in Hx.
  - lia.
  - vm_compute. reflexivity.
Defined.

(** ** Part 2 as a whole *)







(** ** Rounding and missing index vectors *)

Lemma accumulate_KeyError (index_vector : gmap string (list Z)) (key : string)
    (context : list string) (cv : gmap string (list R)) (a : list R) :
  cv !! key = Some a →
  (∀ w b, w ∈ context → index_vector !! w = Some b → length b ≤ length a) →
  (∃ w, w ∈ context ∧ index_vector !! w = None) →
  accumulate index_vector key context cv = Raise KeyError.
Proof.
  unfold accumulate. revert cv a.
  induction context as [|word context IH]; intros cv a Hkey Hfit (w & Hw & Hnone).
  - by apply elem_of_nil in Hw.
  - cbn [for_each]. rewrite (dict_get_Ok _ _ _ Hkey). cbn [mbind result_bind bind].
    destruct (index_vector !! word) as [b|] eqn:Hb.
    2:{ unfold dict_get. by rewrite Hb. }
    rewrite (dict_get_Ok _ _ _ Hb). cbn [mbind result_bind bind].
    destruct (add_vector_spec a b (Hfit word b ltac:(left) Hb)) as (a1 & -> & Hlen1 & _).
    cbn [mbind result_bind bind]. apply (IH _ a1).
    + apply lookup_insert_eq.
    + intros w' b' Hw' Hb'. rewrite Hlen1. apply (Hfit w' b'); [by right | done].
    + exists w. split; [|done]. apply elem_of_cons in Hw as [->|Hw]; [congruence | done].
Qed.

Lemma context_loop_KeyError (corp : corpus) (index_vector : gmap string (list Z)) (d : nat)
    (docs : list string) (cv : gmap string (list R)) :
  NoDup docs →
  (∀ doc, doc ∈ docs → cv !! doc = Some (replicate d 0%R)) →
  (∀ doc w b, doc ∈ docs → w ∈ words corp doc →
     index_vector !! lower w = Some b → length b ≤ d) →
  (∃ doc w, doc ∈ docs ∧ w ∈ words corp doc ∧ index_vector !! lower w = None) →
  for_each (λ cv doc, accumulate index_vector doc (lower <$> words corp doc) cv) docs cv
  = Raise KeyError.
Proof.
  revert cv. induction docs as [|doc docs IH]; intros cv Hnd Hzero Hfit (doc0 & w0 & Hdoc0 & Hw0 & Hnone).
  - by apply elem_of_nil in Hdoc0.
  - apply NoDup_cons in Hnd as [Hdoc Hnd]. cbn [for_each].
    assert (∀ w b, w ∈ lower <$> words corp doc → index_vector !! w = Some b →
              length b ≤ length (replicate d 0%R)) as Hfit_doc.
    { intros word b Hword Hb. apply list_elem_of_fmap in Hword as (w & -> & Hw).
      rewrite length_replicate. apply (Hfit doc w b); [by left | done | done]. }
    destruct (decide (Forall (λ w, is_Some (index_vector !! lower w)) (words corp doc)))
      as [Hknown|Hunknown].
    + rewrite Forall_forall in Hknown.
      destruct (accumulate_spec index_vector doc (lower <$> words corp doc) cv
                  (replicate d 0%R)) as (cv1 & v & -> & _ & _ & _ & Hother).
      { apply Hzero. by left. }
      { intros word Hword. pose proof Hword as Hword'.
        apply list_elem_of_fmap in Hword' as (w & -> & Hw).
        destruct (Hknown w Hw) as [b Hb]. exists b. split; [done|]. by apply (Hfit_doc (lower w) b). }
      cbn [mbind result_bind bind]. apply IH; [done| | |].
      * intros doc' Hdoc'. rewrite Hother by (by intros ->). apply Hzero. by right.
      * intros doc' w b Hdoc'. apply (Hfit doc' w b). by right.
      * exists doc0, w0. split; [|done].
        apply elem_of_cons in Hdoc0 as [->|Hdoc0]; [|done].
        destruct (Hknown w0 Hw0) as [b Hb]. congruence.
    + apply not_Forall_Exists in Hunknown; [|apply _].
      apply Exists_exists in Hunknown as (w & Hw & Hnone_w).
      rewrite (accumulate_KeyError index_vector doc _ cv (replicate d 0%R)); [done| | |].
      * apply Hzero. by left.
      * exact Hfit_doc.
      * exists (lower w). split; [apply list_elem_of_fmap; by exists w|].
        by apply eq_None_not_Some.
Qed.

(** X21: a token without an index vector.  When every index vector that
    exists for a token of the documents has length at most [d], and some
    document (the ids are distinct) has a lower-cased token that is not a
    key of [index_vector], the aggregation raises [KeyError]. *)
Theorem context_vector_unknown_token (corp : corpus)
    (index_vector : gmap string (list Z)) (d : nat) (documents : list string) :
  NoDup documents →
  (∀ doc w b, doc ∈ documents → w ∈ words corp doc →
     index_vector !! lower w = Some b → length b ≤ d) →
  (∃ doc w, doc ∈ documents ∧ w ∈ words corp doc ∧ index_vector !! lower w = None) →
  build_context_vector corp index_vector d documents = Raise KeyError.
Proof.
  intros Hnd Hfit Hunknown. unfold build_context_vector.
  apply (context_loop_KeyError corp index_vector d); [done | | done | done].
  intros doc Hdoc. by apply zero_vectors_lookup.
Qed.

Lemma context_vector_unknown_token_witness :
  build_context_vector toy_corpus {[ "a" := [1; 1; 0; 0]%Z ]} 4 ["doc"] = Raise KeyError.
Proof.
  apply (context_vector_unknown_token toy_corpus {[ "a" := [1; 1; 0; 0]%Z ]} 4 ["doc"]).
  - apply NoDup_singleton.
  - intros doc w b _ _ Hb. apply lookup_singleton_Some in Hb as [_ <-]. simpl. lia.
  - exists "doc", "b". split; [by left|]. split; [by right; left | reflexivity].
Defined.
